(** * Identifier resolution of the Rune compiler database (database/ident.c)

    A shallow embedding of [database/ident.c] over an explicit model of the
    compiler database: every class of the database is a flat array of records
    addressed by integer handles, a nullable handle is an [option], and every
    function of the source that reads or writes the database takes the
    database as an argument and returns an [outcome]. *)

From Stdlib Require Import String.
From stdpp Require Import base tactics option list strings.

(** ** Handles and enumerations *)

(** Modelled from the spec: the handle types of the database (de.h and the
    generated database code are not part of the sources).  A handle is an
    index into the array of its class.  The null handle of a class
    ([deIdentNull], [deBlockNull], ...) is [None]. *)
Abbreviation deIdent := nat.
Abbreviation deBlock := nat.
Abbreviation deFunction := nat.
Abbreviation deVariable := nat.
Abbreviation deClass := nat.
Abbreviation deTclass := nat.
Abbreviation deFilepath := nat.
Abbreviation deExpression := nat.
Abbreviation deLine := (option nat).

Definition deIdentNull : option deIdent := None.
Definition deBlockNull : option deBlock := None.
Definition deFilepathNull : option deFilepath := None.
Definition deLineNull : deLine := None.

(** Modelled from the spec: interned symbols (the symbol table is not part
    of the sources); two symbols are equal exactly when their names are. *)
Inductive utSym :=
  | utSymNull
  | utSymCreate (name : string).

Definition utSymGetName (sym : utSym) : string :=
  match sym with
  | utSymNull => ""
  | utSymCreate name => name
  end.

Global Instance utSym_eq_dec : EqDecision utSym.
Proof. solve_decision. Defined.

(** Modelled from the spec: the enumerations of the database, with the
    values ident.c names. *)
Inductive deIdentType := DE_IDENT_FUNCTION | DE_IDENT_VARIABLE.

Inductive deBlockType := DE_BLOCK_FUNCTION | DE_BLOCK_STATEMENT | DE_BLOCK_CLASS.

Inductive deFunctionType :=
  | DE_FUNC_PLAIN | DE_FUNC_OPERATOR | DE_FUNC_CONSTRUCTOR | DE_FUNC_DESTRUCTOR
  | DE_FUNC_PACKAGE | DE_FUNC_MODULE | DE_FUNC_ITERATOR | DE_FUNC_FINAL
  | DE_FUNC_STRUCT | DE_FUNC_ENUM | DE_FUNC_GENERATOR | DE_FUNC_UNITTEST.

(** The three expression kinds a path is made of; every other kind of the
    AST is [DE_EXPR_OTHER]. *)
Inductive deExpressionType :=
  | DE_EXPR_IDENT | DE_EXPR_DOT | DE_EXPR_AS | DE_EXPR_OTHER.

Global Instance deIdentType_eq_dec : EqDecision deIdentType.
Proof. solve_decision. Defined.
Global Instance deBlockType_eq_dec : EqDecision deBlockType.
Proof. solve_decision. Defined.
Global Instance deFunctionType_eq_dec : EqDecision deFunctionType.
Proof. solve_decision. Defined.
Global Instance deExpressionType_eq_dec : EqDecision deExpressionType.
Proof. solve_decision. Defined.

(** ** Records of the database *)

(** Modelled from the spec: the classes of the database, each with the
    fields ident.c reads or writes.  An identifier has a name, a type, its
    block, a function or a variable, and the identifier expressions that
    refer to it; a block has a type, an optional filepath, an optional owning
    block, its owning function or class, and its table of identifiers. *)

Record deIdentRec := mkIdent {
  identType : deIdentType;
  identSym : utSym;
  identBlock : option deBlock;
  identFunction : option deFunction;
  identVariable : option deVariable;
  identExpressions : list deExpression
}.

Record deBlockRec := mkBlock {
  blockType : deBlockType;
  blockFilepath : option deFilepath;
  blockOwningBlock : option deBlock;
  blockOwningFunction : option deFunction;
  blockOwningClass : option deClass;
  blockIdents : list deIdent
}.

Record deFunctionRec := mkFunction {
  functionType : deFunctionType;
  functionSym : utSym;
  functionLine : deLine;
  functionSubBlock : option deBlock;
  functionIdents : list deIdent
}.

Record deVariableRec := mkVariable {
  variableLine : deLine;
  variableIdents : list deIdent
}.

Record deClassRec := mkClass { classTclass : option deTclass }.

Record deTclassRec := mkTclass { tclassFunction : option deFunction }.

Record deFilepathRec := mkFilepath { filepathModuleBlock : option deBlock }.

Record deExpressionRec := mkExpression {
  exprType : deExpressionType;
  exprName : utSym;
  exprLine : deLine;
  exprFirstExpression : option deExpression;
  exprNextExpression : option deExpression
}.

(** The whole database, with the block of the root ([deRootGetBlock
    (deTheRoot)]). *)
Record deDatabase := mkDatabase {
  idents : list deIdentRec;
  blocks : list deBlockRec;
  functions : list deFunctionRec;
  variables : list deVariableRec;
  classes : list deClassRec;
  tclasses : list deTclassRec;
  filepaths : list deFilepathRec;
  expressions : list deExpressionRec;
  rootBlock : option deBlock
}.

Definition setIdents (db : deDatabase) (ids : list deIdentRec) : deDatabase :=
  mkDatabase ids (blocks db) (functions db) (variables db) (classes db)
    (tclasses db) (filepaths db) (expressions db) (rootBlock db).

Definition setBlocks (db : deDatabase) (bs : list deBlockRec) : deDatabase :=
  mkDatabase (idents db) bs (functions db) (variables db) (classes db)
    (tclasses db) (filepaths db) (expressions db) (rootBlock db).

Definition setFunctions (db : deDatabase) (fs : list deFunctionRec) : deDatabase :=
  mkDatabase (idents db) (blocks db) fs (variables db) (classes db)
    (tclasses db) (filepaths db) (expressions db) (rootBlock db).

Definition setVariables (db : deDatabase) (vs : list deVariableRec) : deDatabase :=
  mkDatabase (idents db) (blocks db) (functions db) vs (classes db)
    (tclasses db) (filepaths db) (expressions db) (rootBlock db).

Definition setFilepaths (db : deDatabase) (fs : list deFilepathRec) : deDatabase :=
  mkDatabase (idents db) (blocks db) (functions db) (variables db) (classes db)
    (tclasses db) fs (expressions db) (rootBlock db).

Definition setExpressions (db : deDatabase) (es : list deExpressionRec) : deDatabase :=
  mkDatabase (idents db) (blocks db) (functions db) (variables db) (classes db)
    (tclasses db) (filepaths db) es (rootBlock db).

(** ** Outcomes *)

(** What a call does: it returns ([Ok]), it reports a compile error at a
    line and stops the compilation ([Error], the effect of [deError]; the
    outcome keeps the database as it was when the error was reported), it
    aborts the compiler ([Abort]: [utExit], a failed [utAssert], or the use of
    a null or invalid handle), or the model ran out of fuel ([OutOfFuel]). *)
Inductive outcome (A : Type) : Type :=
  | Ok (a : A)
  | Error (line : deLine) (message : string) (db : deDatabase)
  | Abort (message : string)
  | OutOfFuel.

Arguments Ok {A} a.
Arguments Error {A} line message db.
Arguments Abort {A} message.
Arguments OutOfFuel {A}.

Global Instance outcome_ret : MRet outcome := fun A a => Ok a.

Global Instance outcome_bind : MBind outcome := fun A B f m =>
  match m with
  | Ok a => f a
  | Error line message db => Error line message db
  | Abort message => Abort message
  | OutOfFuel => OutOfFuel
  end.

(** Modelled from the spec: [deError] (util.c is not part of the sources)
    reports a compile error carrying the source location and the formatted
    message, and ends the compilation.  It writes nothing to the database:
    the database of the outcome is the one the caller had reached. *)
Definition deError {A} (db : deDatabase) (line : deLine) (message : string) : outcome A :=
  Error line message db.

Definition utExit {A} (message : string) : outcome A := Abort message.

Definition utAssert (assertion : bool) : outcome unit :=
  if assertion then Ok tt else Abort "Assertion failed".

(** Reading through a handle: an index outside the array, and the null
    handle, abort. *)
Definition deref {A} (store : list A) (handle : nat) : outcome A :=
  match store !! handle with
  | Some r => Ok r
  | None => Abort "Invalid handle"
  end.

Definition nonNull {A} (handle : option A) : outcome A :=
  match handle with
  | Some h => Ok h
  | None => Abort "Null handle"
  end.

(** ** The database interface used by ident.c *)

(** Modelled from the spec: the accessors of the generated database code
    (not part of the sources).  A getter reads one field of the record of a
    handle; a setter writes one. *)

Definition deIdentGetType (db : deDatabase) (ident : deIdent) : outcome deIdentType :=
  r ← deref (idents db) ident; Ok (identType r).

Definition deIdentGetSym (db : deDatabase) (ident : deIdent) : outcome utSym :=
  r ← deref (idents db) ident; Ok (identSym r).

Definition deIdentGetBlock (db : deDatabase) (ident : deIdent) : outcome (option deBlock) :=
  r ← deref (idents db) ident; Ok (identBlock r).

Definition deIdentGetFunction (db : deDatabase) (ident : deIdent) : outcome (option deFunction) :=
  r ← deref (idents db) ident; Ok (identFunction r).

Definition deIdentGetVariable (db : deDatabase) (ident : deIdent) : outcome (option deVariable) :=
  r ← deref (idents db) ident; Ok (identVariable r).

Definition deIdentGetExpressions (db : deDatabase) (ident : deIdent)
  : outcome (list deExpression) :=
  r ← deref (idents db) ident; Ok (identExpressions r).

Definition identWithType (r : deIdentRec) (type : deIdentType) : deIdentRec :=
  mkIdent type (identSym r) (identBlock r) (identFunction r) (identVariable r)
    (identExpressions r).

Definition identWithSym (r : deIdentRec) (sym : utSym) : deIdentRec :=
  mkIdent (identType r) sym (identBlock r) (identFunction r) (identVariable r)
    (identExpressions r).

Definition identWithBlock (r : deIdentRec) (block : option deBlock) : deIdentRec :=
  mkIdent (identType r) (identSym r) block (identFunction r) (identVariable r)
    (identExpressions r).

Definition identWithFunction (r : deIdentRec) (function : option deFunction) : deIdentRec :=
  mkIdent (identType r) (identSym r) (identBlock r) function (identVariable r)
    (identExpressions r).

Definition identWithVariable (r : deIdentRec) (variable : option deVariable) : deIdentRec :=
  mkIdent (identType r) (identSym r) (identBlock r) (identFunction r) variable
    (identExpressions r).

Definition deIdentSetType (db : deDatabase) (ident : deIdent) (type : deIdentType)
  : outcome deDatabase :=
  r ← deref (idents db) ident;
  Ok (setIdents db (<[ident := identWithType r type]> (idents db))).

Definition deIdentSetSym (db : deDatabase) (ident : deIdent) (sym : utSym)
  : outcome deDatabase :=
  r ← deref (idents db) ident;
  Ok (setIdents db (<[ident := identWithSym r sym]> (idents db))).

(** Modelled from the spec: [deIdentAlloc] (generated database code, not part
    of the sources) takes the next free record of the identifier array, with
    every field null; the identifier type of a fresh record is the first
    value of its enumeration. *)
Definition deIdentAlloc (db : deDatabase) : deIdent * deDatabase :=
  (length (idents db),
   setIdents db (idents db ++ [mkIdent DE_IDENT_FUNCTION utSymNull None None None []])).

Definition deBlockGetType (db : deDatabase) (block : deBlock) : outcome deBlockType :=
  r ← deref (blocks db) block; Ok (blockType r).

Definition deBlockGetFilepath (db : deDatabase) (block : deBlock) : outcome (option deFilepath) :=
  r ← deref (blocks db) block; Ok (blockFilepath r).

(** Modelled from the spec: [deBlockGetOwningBlock] (block.c is not part of
    the sources) gives the optional owning block of a block. *)
Definition deBlockGetOwningBlock (db : deDatabase) (block : deBlock) : outcome (option deBlock) :=
  r ← deref (blocks db) block; Ok (blockOwningBlock r).

Definition deBlockGetOwningFunction (db : deDatabase) (block : deBlock)
  : outcome (option deFunction) :=
  r ← deref (blocks db) block; Ok (blockOwningFunction r).

Definition deBlockGetOwningClass (db : deDatabase) (block : deBlock) : outcome (option deClass) :=
  r ← deref (blocks db) block; Ok (blockOwningClass r).

Definition blockWithIdents (r : deBlockRec) (table : list deIdent) : deBlockRec :=
  mkBlock (blockType r) (blockFilepath r) (blockOwningBlock r) (blockOwningFunction r)
    (blockOwningClass r) table.

(** The identifier called [name] in a table of identifiers: the first entry
    whose record carries that symbol. *)
Definition identNamed (ids : list deIdentRec) (name : utSym) (ident : deIdent) : Prop :=
  identSym <$> ids !! ident = Some name.

Global Instance identNamed_dec ids name ident : Decision (identNamed ids name ident).
Proof. unfold identNamed. apply _. Defined.

Definition tableFind (ids : list deIdentRec) (name : utSym) (table : list deIdent)
  : option deIdent :=
  snd <$> list_find (identNamed ids name) table.

(** Modelled from the spec: the scope container (generated database code, not
    part of the sources) holds an ordered, name-keyed table of the
    identifiers declared directly in it, with the operations find-by-name,
    append and remove.  Find-by-name looks only in the table of the block
    itself.  The names of a table are kept unique; for a table that holds
    two entries of one name the specification does not say which of them
    find-by-name returns, and the model takes the older. *)
Definition deBlockFindIdent (db : deDatabase) (block : deBlock) (name : utSym)
  : outcome (option deIdent) :=
  r ← deref (blocks db) block; Ok (tableFind (idents db) name (blockIdents r)).

(** Modelled from the spec: append puts the identifier at the end of the
    table of the block, and the block becomes the block of the identifier. *)
Definition deBlockAppendIdent (db : deDatabase) (block : deBlock) (ident : deIdent)
  : outcome deDatabase :=
  b ← deref (blocks db) block;
  i ← deref (idents db) ident;
  Ok (setIdents
        (setBlocks db (<[block := blockWithIdents b (blockIdents b ++ [ident])]> (blocks db)))
        (<[ident := identWithBlock i (Some block)]> (idents db))).

(** Modelled from the spec: remove takes the identifier out of the table of
    the block, and the identifier is left without a block. *)
Definition deBlockRemoveIdent (db : deDatabase) (block : deBlock) (ident : deIdent)
  : outcome deDatabase :=
  b ← deref (blocks db) block;
  i ← deref (idents db) ident;
  Ok (setIdents
        (setBlocks db
           (<[block := blockWithIdents b (filter (λ j, j ≠ ident) (blockIdents b))]>
              (blocks db)))
        (<[ident := identWithBlock i None]> (idents db))).

Definition deFilepathGetModuleBlock (db : deDatabase) (filepath : deFilepath)
  : outcome (option deBlock) :=
  r ← deref (filepaths db) filepath; Ok (filepathModuleBlock r).

(** The block of the root: [deRootGetBlock (deTheRoot)], the single global
    root scope. *)
Definition deRootGetBlock (db : deDatabase) : option deBlock := rootBlock db.

Definition deFunctionGetType (db : deDatabase) (function : deFunction) : outcome deFunctionType :=
  r ← deref (functions db) function; Ok (functionType r).

Definition deFunctionGetSym (db : deDatabase) (function : deFunction) : outcome utSym :=
  r ← deref (functions db) function; Ok (functionSym r).

Definition deFunctionGetLine (db : deDatabase) (function : deFunction) : outcome deLine :=
  r ← deref (functions db) function; Ok (functionLine r).

Definition deFunctionGetSubBlock (db : deDatabase) (function : deFunction)
  : outcome (option deBlock) :=
  r ← deref (functions db) function; Ok (functionSubBlock r).

Definition functionWithIdents (r : deFunctionRec) (ids : list deIdent) : deFunctionRec :=
  mkFunction (functionType r) (functionSym r) (functionLine r) (functionSubBlock r) ids.

(** Modelled from the spec: registering an identifier on a function record
    (generated database code, not part of the sources) puts it at the end of
    the identifiers of the function, and the function becomes the payload of
    the identifier. *)
Definition deFunctionAppendIdent (db : deDatabase) (function : deFunction) (ident : deIdent)
  : outcome deDatabase :=
  f ← deref (functions db) function;
  i ← deref (idents db) ident;
  Ok (setIdents
        (setFunctions db
           (<[function := functionWithIdents f (functionIdents f ++ [ident])]> (functions db)))
        (<[ident := identWithFunction i (Some function)]> (idents db))).

Definition deVariableGetLine (db : deDatabase) (variable : deVariable) : outcome deLine :=
  r ← deref (variables db) variable; Ok (variableLine r).

(** Modelled from the spec: the same registration on a variable record. *)
Definition deVariableAppendIdent (db : deDatabase) (variable : deVariable) (ident : deIdent)
  : outcome deDatabase :=
  v ← deref (variables db) variable;
  i ← deref (idents db) ident;
  Ok (setIdents
        (setVariables db
           (<[variable := mkVariable (variableLine v) (variableIdents v ++ [ident])]>
              (variables db)))
        (<[ident := identWithVariable i (Some variable)]> (idents db))).

Definition deClassGetTclass (db : deDatabase) (class : deClass) : outcome (option deTclass) :=
  r ← deref (classes db) class; Ok (classTclass r).

Definition deTclassGetFunction (db : deDatabase) (tclass : deTclass)
  : outcome (option deFunction) :=
  r ← deref (tclasses db) tclass; Ok (tclassFunction r).

Definition deExpressionGetType (db : deDatabase) (expression : deExpression)
  : outcome deExpressionType :=
  r ← deref (expressions db) expression; Ok (exprType r).

Definition deExpressionGetName (db : deDatabase) (expression : deExpression) : outcome utSym :=
  r ← deref (expressions db) expression; Ok (exprName r).

Definition deExpressionGetFirstExpression (db : deDatabase) (expression : deExpression)
  : outcome (option deExpression) :=
  r ← deref (expressions db) expression; Ok (exprFirstExpression r).

Definition deExpressionGetNextExpression (db : deDatabase) (expression : deExpression)
  : outcome (option deExpression) :=
  r ← deref (expressions db) expression; Ok (exprNextExpression r).

Definition exprWithName (r : deExpressionRec) (name : utSym) : deExpressionRec :=
  mkExpression (exprType r) name (exprLine r) (exprFirstExpression r) (exprNextExpression r).

Definition exprWithNext (r : deExpressionRec) (next : option deExpression) : deExpressionRec :=
  mkExpression (exprType r) (exprName r) (exprLine r) (exprFirstExpression r) next.

Definition deExpressionSetName (db : deDatabase) (expression : deExpression) (name : utSym)
  : outcome deDatabase :=
  r ← deref (expressions db) expression;
  Ok (setExpressions db (<[expression := exprWithName r name]> (expressions db))).

(** Modelled from the spec: [deIdentExpressionCreate] (expression.c is not
    part of the sources) constructs an identifier-reference node for a name
    at a source location. *)
Definition deIdentExpressionCreate (db : deDatabase) (name : utSym) (line : deLine)
  : deExpression * deDatabase :=
  (length (expressions db),
   setExpressions db (expressions db ++ [mkExpression DE_EXPR_IDENT name line None None])).

(** Modelled from the spec: [deBinaryExpressionCreate] (expression.c is not
    part of the sources) joins two nodes under a new node of the given kind:
    the left node becomes its first sub-expression and the right node the
    one after the left. *)
Definition deBinaryExpressionCreate (db : deDatabase) (type : deExpressionType)
    (leftExpr rightExpr : deExpression) (line : deLine) : outcome (deExpression * deDatabase) :=
  l ← deref (expressions db) leftExpr;
  _ ← deref (expressions db) rightExpr;
  Ok (length (expressions db),
      setExpressions db
        (<[leftExpr := exprWithNext l (Some rightExpr)]> (expressions db)
           ++ [mkExpression type utSymNull line (Some leftExpr) None])).

(** ** The functions of ident.c *)

Definition duplicateIdentMessage (name : utSym) : string :=
  "Tried to create an identifier '" ++ utSymGetName name
    ++ "' that already exists on the block".

(** Create a new identifier object that lies in the block's hash table of
    identifiers. *)
Definition deIdentCreate (block : option deBlock) (type : deIdentType) (name : utSym)
    (line : deLine) (db : deDatabase) : outcome (deIdent * deDatabase) :=
  _ ← match block with
      | Some b =>
          (* Operator identifiers are not in any block hash table. *)
          oldIdent ← deBlockFindIdent db b name;
          match oldIdent with
          | Some _ => deError db line (duplicateIdentMessage name)
          | None => Ok tt
          end
      | None => Ok tt
      end;
  let '(ident, db) := deIdentAlloc db in
  db ← deIdentSetType db ident type;
  db ← deIdentSetSym db ident name;
  db ← match block with
       | Some b => deBlockAppendIdent db b ident
       | None => Ok db
       end;
  Ok (ident, db).

(** Create an identifier for a function. *)
Definition deFunctionIdentCreate (block : option deBlock) (function : deFunction)
    (name : utSym) (db : deDatabase) : outcome (deIdent * deDatabase) :=
  line ← deFunctionGetLine db function;
  '(ident, db) ← deIdentCreate block DE_IDENT_FUNCTION name line db;
  db ← deFunctionAppendIdent db function ident;
  Ok (ident, db).

(** Find the identifier in the scope block, or in the module block.  If not
    found in the module block, look in the global scope. *)
Definition deFindIdent (db : deDatabase) (scopeBlock : deBlock) (name : utSym)
  : outcome (option deIdent) :=
  ident ← deBlockFindIdent db scopeBlock name;
  match ident with
  | Some ident => Ok (Some ident)
  | None =>
      filepath ← deBlockGetFilepath db scopeBlock;
      match filepath with
      | None =>
          (* Builtin classes have no filepath. *)
          Ok deIdentNull
      | Some filepath =>
          moduleBlock ← deFilepathGetModuleBlock db filepath ≫= nonNull;
          ident ← deBlockFindIdent db moduleBlock name;
          match ident with
          | Some ident => Ok (Some ident)
          | None =>
              (* Some identifiers, like idents for built-in classes, are in
                 the global scope. *)
              rootBlock ← nonNull (deRootGetBlock db);
              ident ← deBlockFindIdent db rootBlock name;
              match ident with
              | Some ident => Ok (Some ident)
              | None => Ok deIdentNull
              end
          end
      end
  end.

(** Return the sub-block of the identifier, if it has one. *)
Definition deIdentGetSubBlock (db : deDatabase) (ident : deIdent) : outcome (option deBlock) :=
  type ← deIdentGetType db ident;
  match type with
  | DE_IDENT_FUNCTION =>
      function ← deIdentGetFunction db ident ≫= nonNull;
      deFunctionGetSubBlock db function
  | DE_IDENT_VARIABLE => Ok deBlockNull
  end.

(** Return the line number of the identifier. *)
Definition deIdentGetLine (db : deDatabase) (ident : deIdent) : outcome deLine :=
  type ← deIdentGetType db ident;
  match type with
  | DE_IDENT_FUNCTION =>
      function ← deIdentGetFunction db ident ≫= nonNull;
      deFunctionGetLine db function
  | DE_IDENT_VARIABLE =>
      variable ← deIdentGetVariable db ident ≫= nonNull;
      deVariableGetLine db variable
  end.

(** Find an identifier from the path expression.  The recursion of the
    source follows the first sub-expression; [fuel] bounds its depth. *)
Fixpoint findIdentFromPath (fuel : nat) (db : deDatabase) (scopeBlock : deBlock)
    (pathExpression : deExpression) : outcome (option deIdent) :=
  match fuel with
  | 0 => OutOfFuel
  | S fuel =>
      type ← deExpressionGetType db pathExpression;
      pathExpression ←
        (if decide (type = DE_EXPR_AS)
         then deExpressionGetFirstExpression db pathExpression ≫= nonNull
         else Ok pathExpression);
      type ← deExpressionGetType db pathExpression;
      if decide (type = DE_EXPR_IDENT) then
        name ← deExpressionGetName db pathExpression;
        deBlockFindIdent db scopeBlock name
      else
        _ ← utAssert (bool_decide (type = DE_EXPR_DOT));
        subPathExpression ← deExpressionGetFirstExpression db pathExpression ≫= nonNull;
        identExpression ← deExpressionGetNextExpression db subPathExpression ≫= nonNull;
        identType ← deExpressionGetType db identExpression;
        _ ← utAssert (bool_decide (identType = DE_EXPR_IDENT));
        ident ← findIdentFromPath fuel db scopeBlock subPathExpression;
        match ident with
        | None => Ok deIdentNull
        | Some ident =>
            scopeBlock ← deIdentGetSubBlock db ident;
            match scopeBlock with
            | None => Ok deIdentNull
            | Some scopeBlock =>
                name ← deExpressionGetName db identExpression;
                deBlockFindIdent db scopeBlock name
            end
        end
  end.

(** Find an identifier from the path expression.  [scopeBlock] is searched
    first. *)
Definition deFindIdentFromPath (fuel : nat) (db : deDatabase) (scopeBlock : deBlock)
    (pathExpression : deExpression) : outcome (option deIdent) :=
  ident ← findIdentFromPath fuel db scopeBlock pathExpression;
  match ident with
  | Some ident => Ok (Some ident)
  | None =>
      (* Try to find it in the global scope. *)
      rootBlock ← nonNull (deRootGetBlock db);
      findIdentFromPath fuel db rootBlock pathExpression
  end.

(** One turn of the loop of [deRenameIdent] over the identifier expressions
    of the identifier. *)
Definition renameIdentExpression (newName : utSym) (db : deDatabase) (expression : deExpression)
  : outcome deDatabase :=
  type ← deExpressionGetType db expression;
  _ ← utAssert (bool_decide (type = DE_EXPR_IDENT));
  deExpressionSetName db expression newName.

Fixpoint deForeachIdentExpression (body : deDatabase → deExpression → outcome deDatabase)
    (expressionList : list deExpression) (db : deDatabase) : outcome deDatabase :=
  match expressionList with
  | [] => Ok db
  | expression :: rest =>
      db ← body db expression;
      deForeachIdentExpression body rest db
  end.

(** Rename the identifier.  Also change the sym in its identifier
    expressions. *)
Definition deRenameIdent (ident : deIdent) (newName : utSym) (db : deDatabase)
  : outcome deDatabase :=
  scopeBlock ← deIdentGetBlock db ident ≫= nonNull;
  db ← deBlockRemoveIdent db scopeBlock ident;
  db ← deIdentSetSym db ident newName;
  db ← deBlockAppendIdent db scopeBlock ident;
  expressionList ← deIdentGetExpressions db ident;
  deForeachIdentExpression (renameIdentExpression newName) expressionList db.

(** Find the identifier for the block owning this identifier. *)
Definition deFindIdentOwningIdent (db : deDatabase) (ident : deIdent)
  : outcome (option deIdent) :=
  block ← deIdentGetBlock db ident ≫= nonNull;
  owningBlock ← deBlockGetOwningBlock db block;
  match owningBlock with
  | None => Ok deIdentNull
  | Some owningBlock =>
      type ← deBlockGetType db block;
      name ←
        match type with
        | DE_BLOCK_FUNCTION =>
            function ← deBlockGetOwningFunction db block ≫= nonNull;
            deFunctionGetSym db function
        | DE_BLOCK_STATEMENT => utExit "Statement blocks do not have identifiers"
        | DE_BLOCK_CLASS =>
            class ← deBlockGetOwningClass db block ≫= nonNull;
            tclass ← deClassGetTclass db class ≫= nonNull;
            function ← deTclassGetFunction db tclass ≫= nonNull;
            deFunctionGetSym db function
        end;
      deBlockFindIdent db owningBlock name
  end.

(** Return a path expression to the function.  The recursion of the source
    climbs to the owning identifier; [fuel] bounds the number of levels. *)
Fixpoint deCreateIdentPathExpression (fuel : nat) (ident : deIdent) (db : deDatabase)
  : outcome (deExpression * deDatabase) :=
  match fuel with
  | 0 => OutOfFuel
  | S fuel =>
      line ← deIdentGetLine db ident;
      sym ← deIdentGetSym db ident;
      let '(identExpr, db) := deIdentExpressionCreate db sym line in
      owningIdent ← deFindIdentOwningIdent db ident;
      match owningIdent with
      | None => Ok (identExpr, db)
      | Some owningIdent =>
          '(prefixExpr, db) ← deCreateIdentPathExpression fuel owningIdent db;
          deBinaryExpressionCreate db DE_EXPR_DOT prefixExpr identExpr line
      end
  end.

(** Copy the identifier to the destination block.  The caller must ensure the
    identifier does not already exist on [destBlock]. *)
Definition deCopyIdent (ident : deIdent) (destBlock : option deBlock) (db : deDatabase)
  : outcome (deIdent * deDatabase) :=
  type ← deIdentGetType db ident;
  sym ← deIdentGetSym db ident;
  '(newIdent, db) ← deIdentCreate destBlock type sym deLineNull db;
  db ← match type with
       | DE_IDENT_FUNCTION =>
           function ← deIdentGetFunction db ident ≫= nonNull;
           deFunctionAppendIdent db function newIdent
       | DE_IDENT_VARIABLE =>
           variable ← deIdentGetVariable db ident ≫= nonNull;
           deVariableAppendIdent db variable newIdent
       end;
  Ok (newIdent, db).

(** Determine if this identifier represents a module or package. *)
Definition deIdentIsModuleOrPackage (db : deDatabase) (ident : deIdent) : outcome bool :=
  identType ← deIdentGetType db ident;
  if decide (identType ≠ DE_IDENT_FUNCTION) then Ok false
  else
    function ← deIdentGetFunction db ident ≫= nonNull;
    type ← deFunctionGetType db function;
    Ok (bool_decide (type = DE_FUNC_PACKAGE) || bool_decide (type = DE_FUNC_MODULE)).

(** ** Invariants of the database *)

(** At most one entry of a table carries a given name. *)
Definition uniqueNames (ids : list deIdentRec) (table : list deIdent) : Prop :=
  ∀ name, length (filter (identNamed ids name) table) ≤ 1.

(** All the tables of a database have unique names. *)
Definition uniqueDb (db : deDatabase) : Prop :=
  ∀ block b, blocks db !! block = Some b → uniqueNames (idents db) (blockIdents b).

(** ** A sample database

    A root scope, a module [m] declared in it, a function [f] of the module,
    and a class template [Point] with one class built from it.  The name [x]
    is bound in the root, in the module and in the body of [f]; the method
    [show] of the template has a copy in the class. *)

Definition symX : utSym := utSymCreate "x".
Definition symM : utSym := utSymCreate "m".
Definition symF : utSym := utSymCreate "f".
Definition symPoint : utSym := utSymCreate "Point".
Definition symShow : utSym := utSymCreate "show".
Definition symY : utSym := utSymCreate "y".

(** Blocks of the sample database. *)
Definition blockG : deBlock := 0.
Definition blockM : deBlock := 1.
Definition blockL : deBlock := 2.
Definition blockClass : deBlock := 3.
Definition blockTclass : deBlock := 4.
Definition blockShow : deBlock := 5.

(** Identifiers of the sample database. *)
Definition identGX : deIdent := 0.
Definition identMX : deIdent := 1.
Definition identLX : deIdent := 2.
Definition identM : deIdent := 3.
Definition identF : deIdent := 4.
Definition identPoint : deIdent := 5.
Definition identShow : deIdent := 6.
Definition identShowCopy : deIdent := 7.

Definition sampleDb : deDatabase := {|
  idents := [
    mkIdent DE_IDENT_VARIABLE symX (Some blockG) None (Some 0) [];
    mkIdent DE_IDENT_VARIABLE symX (Some blockM) None (Some 1) [];
    mkIdent DE_IDENT_VARIABLE symX (Some blockL) None (Some 2) [0; 4];
    mkIdent DE_IDENT_FUNCTION symM (Some blockG) (Some 1) None [1];
    mkIdent DE_IDENT_FUNCTION symF (Some blockM) (Some 2) None [2];
    mkIdent DE_IDENT_FUNCTION symPoint (Some blockG) (Some 3) None [];
    mkIdent DE_IDENT_FUNCTION symShow (Some blockTclass) (Some 4) None [];
    mkIdent DE_IDENT_FUNCTION symShow (Some blockClass) (Some 4) None []
  ];
  blocks := [
    mkBlock DE_BLOCK_FUNCTION (Some 0) None (Some 0) None [identGX; identM; identPoint];
    mkBlock DE_BLOCK_FUNCTION (Some 1) (Some blockG) (Some 1) None [identMX; identF];
    mkBlock DE_BLOCK_FUNCTION (Some 1) (Some blockM) (Some 2) None [identLX];
    mkBlock DE_BLOCK_CLASS None (Some blockG) None (Some 0) [identShowCopy];
    mkBlock DE_BLOCK_FUNCTION None (Some blockG) (Some 3) None [identShow];
    mkBlock DE_BLOCK_FUNCTION None (Some blockTclass) (Some 4) None []
  ];
  functions := [
    mkFunction DE_FUNC_PACKAGE (utSymCreate "main") (Some 0) (Some blockG) [];
    mkFunction DE_FUNC_MODULE symM (Some 1) (Some blockM) [identM];
    mkFunction DE_FUNC_PLAIN symF (Some 2) (Some blockL) [identF];
    mkFunction DE_FUNC_CONSTRUCTOR symPoint (Some 10) (Some blockTclass) [identPoint];
    mkFunction DE_FUNC_PLAIN symShow (Some 11) (Some blockShow) [identShow; identShowCopy]
  ];
  variables := [
    mkVariable (Some 5) [identGX];
    mkVariable (Some 6) [identMX];
    mkVariable (Some 7) [identLX]
  ];
  classes := [ mkClass (Some 0) ];
  tclasses := [ mkTclass (Some 3) ];
  filepaths := [ mkFilepath (Some blockG); mkFilepath (Some blockM) ];
  expressions := [
    (* 0: a reference to [x] in the body of [f] *)
    mkExpression DE_EXPR_IDENT symX (Some 8) None None;
    (* 1 .. 5: the path [m.f.x]; 6: the same path under an alias *)
    mkExpression DE_EXPR_IDENT symM (Some 9) None (Some 2);
    mkExpression DE_EXPR_IDENT symF (Some 9) None None;
    mkExpression DE_EXPR_DOT utSymNull (Some 9) (Some 1) (Some 4);
    mkExpression DE_EXPR_IDENT symX (Some 9) None None;
    mkExpression DE_EXPR_DOT utSymNull (Some 9) (Some 3) None;
    mkExpression DE_EXPR_AS utSymNull (Some 9) (Some 5) None;
    (* 7: the bare path [f] *)
    mkExpression DE_EXPR_IDENT symF (Some 12) None None;
    (* 8 .. 10: the path [x.y] *)
    mkExpression DE_EXPR_IDENT symX (Some 13) None (Some 9);
    mkExpression DE_EXPR_IDENT symY (Some 13) None None;
    mkExpression DE_EXPR_DOT utSymNull (Some 13) (Some 8) None
  ];
  rootBlock := Some blockG
|}.

(** Every entry of a table is an allocated identifier. *)
Definition tablesValid (db : deDatabase) : Prop :=
  ∀ block b ident,
    blocks db !! block = Some b → ident ∈ blockIdents b → ident < length (idents db).

(** A sequence of calls of [deIdentCreate], each on the database the one
    before it left. *)
Record createCall := mkCreateCall {
  callBlock : option deBlock;
  callType : deIdentType;
  callName : utSym;
  callLine : deLine
}.

Fixpoint deIdentCreateAll (calls : list createCall) (db : deDatabase) : outcome deDatabase :=
  match calls with
  | [] => Ok db
  | call :: rest =>
      '(_, db) ← deIdentCreate (callBlock call) (callType call) (callName call)
                  (callLine call) db;
      deIdentCreateAll rest db
  end.

(** The sample database before any identifier is declared: the same blocks,
    with empty tables. *)
Definition emptyTablesDb : deDatabase :=
  setBlocks (setIdents sampleDb [])
    ((λ b, blockWithIdents b []) <$> blocks sampleDb).

(** The expression array after the loop of [deRenameIdent]: the expressions of the list carry
    the new name, every other expression is as before. *)
Definition renamedIn (newName : utSym) (expressionList : list deExpression)
    (es : list deExpressionRec) (expression : deExpression) : option deExpressionRec :=
  if decide (expression ∈ expressionList)
  then (λ r, exprWithName r newName) <$> es !! expression
  else es !! expression.

(** The database [deRenameIdent] leaves before its loop over the identifier
    expressions: the identifier is out of the table of its block and back
    in at the end, under the new name. *)
Definition renamedDb (db : deDatabase) (ident : deIdent) (newName : utSym)
    (r : deIdentRec) (scopeBlock : deBlock) (b : deBlockRec) : deDatabase :=
  setIdents
    (setBlocks db
       (<[scopeBlock := blockWithIdents b (filter (λ j, j ≠ ident) (blockIdents b) ++ [ident])]>
          (blocks db)))
    (<[ident := identWithSym r newName]> (idents db)).

(** The function or variable an identifier stands for: the link that goes
    with its type. *)
Inductive payload :=
  | FunctionPayload (function : deFunction)
  | VariablePayload (variable : deVariable).

Definition identPayload (r : deIdentRec) : option payload :=
  match identType r with
  | DE_IDENT_FUNCTION => FunctionPayload <$> identFunction r
  | DE_IDENT_VARIABLE => VariablePayload <$> identVariable r
  end.

(** The identifiers registered on a payload, when the payload is allocated. *)
Definition payloadIdents (db : deDatabase) (p : payload) : option (list deIdent) :=
  match p with
  | FunctionPayload function => functionIdents <$> functions db !! function
  | VariablePayload variable => variableIdents <$> variables db !! variable
  end.

(** ** Path expressions, as the specification describes them

    A path expression is a bare name, a dotted pair of a sub-path and a
    trailing name, or an "as" alias around a path expression. *)
Inductive path :=
  | PathIdent (name : utSym)
  | PathDot (subPath : path) (name : utSym)
  | PathAs (aliased : path).

(** The number of levels [findIdentFromPath] goes through on a path. *)
Fixpoint depth (p : path) : nat :=
  match p with
  | PathIdent _ => 1
  | PathDot subPath _ => S (depth subPath)
  | PathAs aliased => depth aliased
  end.

(** Path resolution in the words of the specification: unwrap one level of
    aliasing; a bare name is a plain lookup in the scope block; for a dotted
    pair, resolve the sub-path in the scope block, fail if that fails, take
    the sub-block of the identifier, fail if it has none, and look the
    trailing name up in that sub-block.  Any other shape is malformed. *)
Fixpoint resolvePath (db : deDatabase) (scopeBlock : deBlock) (p : path)
  : outcome (option deIdent) :=
  let resolveDot subPath name :=
    ident ← resolvePath db scopeBlock subPath;
    match ident with
    | None => Ok None
    | Some ident =>
        subBlock ← deIdentGetSubBlock db ident;
        match subBlock with
        | None => Ok None
        | Some subBlock => deBlockFindIdent db subBlock name
        end
    end in
  match p with
  | PathIdent name => deBlockFindIdent db scopeBlock name
  | PathDot subPath name => resolveDot subPath name
  | PathAs (PathIdent name) => deBlockFindIdent db scopeBlock name
  | PathAs (PathDot subPath name) => resolveDot subPath name
  | PathAs (PathAs _) => Abort "Assertion failed"
  end.

(** The outer entry point in the words of the specification: resolve the
    path in the scope block, and if that fails, resolve it again with the
    global root scope in place of the scope block. *)
Definition resolvePathWithFallback (db : deDatabase) (scopeBlock : deBlock) (p : path)
  : outcome (option deIdent) :=
  ident ← resolvePath db scopeBlock p;
  match ident with
  | Some ident => Ok (Some ident)
  | None =>
      rootBlock ← nonNull (deRootGetBlock db);
      resolvePath db rootBlock p
  end.

(** An expression of the database that has the shape of a path. *)
Inductive represents (db : deDatabase) : deExpression → path → Prop :=
  | representsIdent expression r :
      expressions db !! expression = Some r →
      exprType r = DE_EXPR_IDENT →
      represents db expression (PathIdent (exprName r))
  | representsDot expression r subPathExpression s identExpression i p :
      expressions db !! expression = Some r →
      exprType r = DE_EXPR_DOT →
      exprFirstExpression r = Some subPathExpression →
      expressions db !! subPathExpression = Some s →
      exprNextExpression s = Some identExpression →
      expressions db !! identExpression = Some i →
      exprType i = DE_EXPR_IDENT →
      represents db subPathExpression p →
      represents db expression (PathDot p (exprName i))
  | representsAs expression r aliased p :
      expressions db !! expression = Some r →
      exprType r = DE_EXPR_AS →
      exprFirstExpression r = Some aliased →
      represents db aliased p →
      represents db expression (PathAs p).

(** A path expression as [deCreateIdentPathExpression] lays it out in the
    expression array: every node is allocated after its sub-expressions, and
    the prefix of a dotted pair after its trailing name. *)
Inductive laidOut (es : list deExpressionRec) : deExpression → path → Prop :=
  | laidOutIdent expression r :
      es !! expression = Some r →
      exprType r = DE_EXPR_IDENT →
      laidOut es expression (PathIdent (exprName r))
  | laidOutDot expression r subPathExpression s identExpression i p :
      es !! expression = Some r →
      exprType r = DE_EXPR_DOT →
      exprFirstExpression r = Some subPathExpression →
      subPathExpression < expression →
      es !! subPathExpression = Some s →
      exprNextExpression s = Some identExpression →
      identExpression < subPathExpression →
      es !! identExpression = Some i →
      exprType i = DE_EXPR_IDENT →
      laidOut es subPathExpression p →
      laidOut es expression (PathDot p (exprName i)).

(** The hypothesis of the round trip as the claim states it: the identifier
    is bound under its name in its scope, the outermost scope is the global
    root, and every other scope on the way is a function-body or class-body
    block whose owning identifier is found in the table of its owner. *)
Inductive ownersFindable (db : deDatabase) : deIdent → path → Prop :=
  | ownersFindableTop ident r rootBlock line :
      idents db !! ident = Some r →
      identBlock r = Some rootBlock →
      deRootGetBlock db = Some rootBlock →
      deBlockFindIdent db rootBlock (identSym r) = Ok (Some ident) →
      deIdentGetLine db ident = Ok line →
      deFindIdentOwningIdent db ident = Ok None →
      ownersFindable db ident (PathIdent (identSym r))
  | ownersFindableIn ident r block b line owningIdent p :
      idents db !! ident = Some r →
      identBlock r = Some block →
      blocks db !! block = Some b →
      blockType b = DE_BLOCK_FUNCTION ∨ blockType b = DE_BLOCK_CLASS →
      deBlockFindIdent db block (identSym r) = Ok (Some ident) →
      deIdentGetLine db ident = Ok line →
      deFindIdentOwningIdent db ident = Ok (Some owningIdent) →
      ownersFindable db owningIdent p →
      ownersFindable db ident (PathDot p (identSym r)).

(** An identifier with its fully-qualified path: as above, and moreover
    every scope on the way to the global root is the sub-block of the owning
    identifier found for it. *)
Inductive qualified (db : deDatabase) : deIdent → path → Prop :=
  | qualifiedTop ident r rootBlock line :
      idents db !! ident = Some r →
      identBlock r = Some rootBlock →
      deRootGetBlock db = Some rootBlock →
      deBlockFindIdent db rootBlock (identSym r) = Ok (Some ident) →
      deIdentGetLine db ident = Ok line →
      deFindIdentOwningIdent db ident = Ok None →
      qualified db ident (PathIdent (identSym r))
  | qualifiedIn ident r block line owningIdent p :
      idents db !! ident = Some r →
      identBlock r = Some block →
      deBlockFindIdent db block (identSym r) = Ok (Some ident) →
      deIdentGetLine db ident = Ok line →
      deFindIdentOwningIdent db ident = Ok (Some owningIdent) →
      deIdentGetSubBlock db owningIdent = Ok (Some block) →
      qualified db owningIdent p →
      qualified db ident (PathDot p (identSym r)).

(** An identifier that is in no scope: it has no block, and it is an entry
    of no table (in a database whose tables hold allocated identifiers). *)
Definition hiddenIdent (db : deDatabase) (ident : deIdent) : Prop :=
  tablesValid db
  ∧ (∃ r, idents db !! ident = Some r ∧ identBlock r = None)
  ∧ ∀ block b, blocks db !! block = Some b → ident ∉ blockIdents b.

(** The calls of ident.c that change the database. *)
Inductive identCall :=
  | CallIdentCreate (block : option deBlock) (type : deIdentType) (name : utSym) (line : deLine)
  | CallFunctionIdentCreate (block : option deBlock) (function : deFunction) (name : utSym)
  | CallCopyIdent (ident : deIdent) (destBlock : option deBlock)
  | CallRenameIdent (ident : deIdent) (newName : utSym)
  | CallCreateIdentPathExpression (fuel : nat) (ident : deIdent).

Definition runCall (call : identCall) (db : deDatabase) : outcome deDatabase :=
  match call with
  | CallIdentCreate block type name line =>
      '(_, db) ← deIdentCreate block type name line db; Ok db
  | CallFunctionIdentCreate block function name =>
      '(_, db) ← deFunctionIdentCreate block function name db; Ok db
  | CallCopyIdent ident destBlock =>
      '(_, db) ← deCopyIdent ident destBlock db; Ok db
  | CallRenameIdent ident newName => deRenameIdent ident newName db
  | CallCreateIdentPathExpression fuel ident =>
      '(_, db) ← deCreateIdentPathExpression fuel ident db; Ok db
  end.

Fixpoint runCalls (calls : list identCall) (db : deDatabase) : outcome deDatabase :=
  match calls with
  | [] => Ok db
  | call :: rest => db ← runCall call db; runCalls rest db
  end.

(** The name a path ends in: the one the identifier it resolves to carries. *)
Fixpoint lastName (p : path) : utSym :=
  match p with
  | PathIdent name => name
  | PathDot _ name => name
  | PathAs aliased => lastName aliased
  end.

(** The sample database with three malformed paths: an alias around the
    aliased path (expression 11), an expression of another kind (12), and a
    dotted pair whose trailing expression is not an identifier (14). *)
Definition malformedDb : deDatabase :=
  setExpressions sampleDb
    (expressions sampleDb ++ [
       mkExpression DE_EXPR_AS utSymNull (Some 14) (Some 6) None;
       mkExpression DE_EXPR_OTHER utSymNull (Some 14) None None;
       mkExpression DE_EXPR_IDENT symM (Some 14) None (Some 12);
       mkExpression DE_EXPR_DOT utSymNull (Some 14) (Some 13) None
     ]).

(** The record [deCopyIdent] gives the copy of an identifier: the type and
    the name of the identifier, the destination block, the function or the
    variable that goes with the type, and no identifier expression. *)
Definition copiedIdent (r : deIdentRec) (destBlock : option deBlock) : deIdentRec :=
  mkIdent (identType r) (identSym r) destBlock
    (match identType r with
     | DE_IDENT_FUNCTION => identFunction r
     | DE_IDENT_VARIABLE => None
     end)
    (match identType r with
     | DE_IDENT_FUNCTION => None
     | DE_IDENT_VARIABLE => identVariable r
     end)
    [].

(** Two databases in which the functions and the variables have the same
    declared facts: they differ at most by the identifiers registered on
    them. *)
Definition samePayloads (db db' : deDatabase) : Prop :=
  (∀ function,
     (λ f, (functionType f, functionSym f, functionLine f, functionSubBlock f))
       <$> functions db' !! function
     = (λ f, (functionType f, functionSym f, functionLine f, functionSubBlock f))
         <$> functions db !! function)
  ∧ (∀ variable,
       variableLine <$> variables db' !! variable
       = variableLine <$> variables db !! variable).

(** Every identifier that has a block belongs to exactly one scope: the
    tables hold allocated identifiers, no table holds an identifier twice,
    and an identifier is an entry of the table of a block exactly when that
    block is its block. *)
Definition scopesConsistent (db : deDatabase) : Prop :=
  tablesValid db
  ∧ (∀ block b, blocks db !! block = Some b → NoDup (blockIdents b))
  ∧ ∀ ident r block,
      idents db !! ident = Some r →
      (identBlock r = Some block
       ↔ ∃ b, blocks db !! block = Some b ∧ ident ∈ blockIdents b).

(** * Properties *)

(** ** Reasoning about outcomes *)

Lemma bind_Ok {A B} (m : outcome A) (f : A → outcome B) (b : B) :
  m ≫= f = Ok b ↔ ∃ a, m = Ok a ∧ f a = Ok b.
Proof.
  destruct m as [a| | |]; simpl; split.
  - intros H. by exists a.
  - by intros (a' & [= <-] & H).
  - done.
  - by intros (? & ? & ?).
  - done.
  - by intros (? & ? & ?).
  - done.
  - by intros (? & ? & ?).
Qed.

Lemma bind_Ok_l {A B} (a : A) (f : A → outcome B) : Ok a ≫= f = f a.
Proof. done. Qed.

Lemma deref_Ok {A} (store : list A) (handle : nat) (r : A) :
  deref store handle = Ok r ↔ store !! handle = Some r.
Proof. unfold deref. destruct (store !! handle); split; congruence. Qed.

Lemma deref_lookup {A} (store : list A) (handle : nat) (r : A) :
  store !! handle = Some r → deref store handle = Ok r.
Proof. apply deref_Ok. Qed.

Lemma nonNull_Ok {A} (handle : option A) (h : A) :
  nonNull handle = Ok h ↔ handle = Some h.
Proof. destruct handle; simpl; split; congruence. Qed.

Lemma utAssert_Ok (assertion : bool) (u : unit) :
  utAssert assertion = Ok u ↔ assertion = true.
Proof. destruct assertion, u; simpl; split; congruence. Qed.

(** Take apart a hypothesis saying that a sequence of calls returned. *)
Ltac inv_Ok :=
  repeat match goal with
    | H : _ ≫= _ = Ok _ |- _ => apply bind_Ok in H; destruct H as (? & ? & H)
    | H : deref _ _ = Ok _ |- _ => apply deref_Ok in H
    | H : nonNull _ = Ok _ |- _ => apply nonNull_Ok in H
    | H : utAssert _ = Ok _ |- _ => apply utAssert_Ok in H
    | H : Ok _ = Ok _ |- _ => injection H as H
    | H : mret _ = Ok _ |- _ => injection H as H
    end.

(** ** Tables of identifiers *)

Implicit Types (db : deDatabase) (ids : list deIdentRec) (table : list deIdent).
Implicit Types (name : utSym) (ident other : deIdent) (block : deBlock).

Lemma tableFind_Some ids name table ident :
  tableFind ids name table = Some ident ↔
  ∃ k, table !! k = Some ident ∧ identNamed ids name ident
       ∧ ∀ j other, table !! j = Some other → j < k → ¬ identNamed ids name other.
Proof.
  unfold tableFind. split.
  - destruct (list_find _ table) as [[k x]|] eqn:Hfind; [|done].
    intros [= <-]. apply list_find_Some in Hfind. by exists k.
  - intros (k & Hk & Hn & Hfirst).
    assert (list_find (identNamed ids name) table = Some (k, ident)) as ->; [|done].
    by apply list_find_Some.
Qed.

Lemma tableFind_None ids name table :
  tableFind ids name table = None ↔ Forall (λ ident, ¬ identNamed ids name ident) table.
Proof.
  rewrite <- (list_find_None (identNamed ids name)). apply fmap_None.
Qed.

Lemma tableFind_elem ids name table ident :
  tableFind ids name table = Some ident → ident ∈ table ∧ identNamed ids name ident.
Proof.
  intros (k & Hk & Hn & _)%tableFind_Some. split; [|done].
  apply list_elem_of_lookup. by exists k.
Qed.

Lemma tableFind_cons ids name ident table :
  tableFind ids name (ident :: table) =
  if decide (identNamed ids name ident) then Some ident else tableFind ids name table.
Proof.
  unfold tableFind. simpl. destruct (decide _); [done|].
  by destruct (list_find _ table) as [[k x]|].
Qed.

(** Find-by-name reads nothing of an identifier but its symbol. *)
Lemma tableFind_ext ids ids' name table :
  (∀ ident, ident ∈ table → identSym <$> ids' !! ident = identSym <$> ids !! ident) →
  tableFind ids' name table = tableFind ids name table.
Proof.
  intros Hsym. induction table as [|i t IH]; [done|].
  rewrite !tableFind_cons.
  rewrite (decide_ext (identNamed ids' name i) (identNamed ids name i)).
  - rewrite IH; [done|]. intros j Hj. apply Hsym. by apply list_elem_of_further.
  - unfold identNamed. by rewrite Hsym by apply list_elem_of_here.
Qed.

Lemma short_list_eq {A} (l : list A) (x y : A) :
  length l ≤ 1 → x ∈ l → y ∈ l → x = y.
Proof.
  destruct l as [|a [|b l]]; simpl; intros Hlen Hx Hy.
  - by apply not_elem_of_nil in Hx.
  - apply list_elem_of_singleton in Hx, Hy. congruence.
  - lia.
Qed.

Lemma filter_identNamed_ext ids ids' name table :
  (∀ ident, ident ∈ table → identSym <$> ids' !! ident = identSym <$> ids !! ident) →
  filter (identNamed ids' name) table = filter (identNamed ids name) table.
Proof.
  intros Hsym. induction table as [|i t IH]; [done|].
  rewrite !filter_cons.
  rewrite (decide_ext (identNamed ids' name i) (identNamed ids name i)).
  - rewrite IH; [done|]. intros j Hj. apply Hsym. by apply list_elem_of_further.
  - unfold identNamed. by rewrite Hsym by apply list_elem_of_here.
Qed.

Lemma filter_identNamed_nil ids name table :
  tableFind ids name table = None → filter (identNamed ids name) table = [].
Proof.
  intros Hnone%tableFind_None. induction Hnone as [|i t Hi _ IH]; [done|].
  by rewrite filter_cons_False.
Qed.

Lemma uniqueNames_ext ids ids' table :
  (∀ ident, ident ∈ table → identSym <$> ids' !! ident = identSym <$> ids !! ident) →
  uniqueNames ids table → uniqueNames ids' table.
Proof. intros Hsym Hu name. by rewrite (filter_identNamed_ext ids ids'). Qed.

Lemma tableFind_unique ids name table ident other :
  uniqueNames ids table → tableFind ids name table = Some ident →
  other ∈ table → identNamed ids name other → other = ident.
Proof.
  intros Hu [Hin Hn]%tableFind_elem Hother Hnamed.
  apply (short_list_eq (filter (identNamed ids name) table)); [apply Hu|..];
    by apply list_elem_of_filter.
Qed.

Lemma tableFind_remove ids name table ident :
  uniqueNames ids table → tableFind ids name table = Some ident →
  tableFind ids name (filter (λ j, j ≠ ident) table) = None.
Proof.
  intros Hu Hfind. apply tableFind_None, Forall_forall.
  intros other [Hne Hin]%list_elem_of_filter Hn.
  apply Hne. by eapply tableFind_unique.
Qed.

Lemma uniqueNames_remove ids table ident :
  uniqueNames ids table → uniqueNames ids (filter (λ j, j ≠ ident) table).
Proof.
  intros Hu name. rewrite list_filter_filter.
  rewrite <- (list_filter_filter_l (λ a, identNamed ids name a ∧ a ≠ ident)
                (identNamed ids name)).
  - etrans; [apply length_filter|apply Hu].
  - by intros x [? _].
Qed.

Lemma tableFind_append ids name table ident :
  tableFind ids name (table ++ [ident]) =
  match tableFind ids name table with
  | Some found => Some found
  | None => if decide (identNamed ids name ident) then Some ident else None
  end.
Proof.
  induction table as [|i t IH]; simpl.
  - rewrite tableFind_cons. by destruct (decide (identNamed ids name ident)).
  - rewrite !tableFind_cons. by destruct (decide (identNamed ids name i)).
Qed.

Lemma uniqueNames_append ids table ident :
  uniqueNames ids table →
  (∀ name, identNamed ids name ident → tableFind ids name table = None) →
  uniqueNames ids (table ++ [ident]).
Proof.
  intros Hu Hfresh name. rewrite filter_app, length_app, filter_cons, filter_nil.
  destruct (decide (identNamed ids name ident)) as [Hn|Hn]; simpl.
  - by rewrite (filter_identNamed_nil _ _ _ (Hfresh _ Hn)).
  - specialize (Hu name). lia.
Qed.

(** ** The scope container operations *)

Lemma deBlockFindIdent_Ok db block name found :
  deBlockFindIdent db block name = Ok found ↔
  ∃ b, blocks db !! block = Some b ∧ found = tableFind (idents db) name (blockIdents b).
Proof.
  unfold deBlockFindIdent. split.
  - intros H. inv_Ok. eauto.
  - intros (b & Hb & ->). by rewrite (deref_lookup _ _ _ Hb).
Qed.

Lemma deBlockFindIdent_lookup db block b name :
  blocks db !! block = Some b →
  deBlockFindIdent db block name = Ok (tableFind (idents db) name (blockIdents b)).
Proof. intros Hb. apply deBlockFindIdent_Ok. eauto. Qed.

(** An identifier found in a block is an allocated identifier of that name,
    and an entry of the table of the block. *)
Lemma deBlockFindIdent_found db block name ident :
  deBlockFindIdent db block name = Ok (Some ident) →
  ∃ b r, blocks db !! block = Some b ∧ ident ∈ blockIdents b
         ∧ idents db !! ident = Some r ∧ identSym r = name.
Proof.
  intros (b & Hb & Hfind)%deBlockFindIdent_Ok.
  symmetry in Hfind. apply tableFind_elem in Hfind as [Hin Hn].
  unfold identNamed in Hn. destruct (idents db !! ident) as [r|] eqn:Hr; [|done].
  injection Hn as Hn. by exists b, r.
Qed.

Section remove.
Context (db db' : deDatabase) (block : deBlock) (ident : deIdent).
Hypothesis Hremove : deBlockRemoveIdent db block ident = Ok db'.

Lemma remove_shape :
  ∃ b i, blocks db !! block = Some b ∧ idents db !! ident = Some i ∧
    db' = setIdents
            (setBlocks db
               (<[block := blockWithIdents b (filter (λ j, j ≠ ident) (blockIdents b))]>
                  (blocks db)))
            (<[ident := identWithBlock i None]> (idents db)).
Proof.
  unfold deBlockRemoveIdent in Hremove. inv_Ok. subst db'. eauto.
Qed.

Lemma remove_identSym other :
  identSym <$> idents db' !! other = identSym <$> idents db !! other.
Proof.
  destruct remove_shape as (b & i & Hb & Hi & ->). simpl.
  destruct (decide (other = ident)) as [->|Hne].
  - rewrite list_lookup_insert_eq by eauto using lookup_lt_Some. by rewrite Hi.
  - by rewrite list_lookup_insert_ne.
Qed.

Lemma remove_filepath other : deBlockGetFilepath db' other = deBlockGetFilepath db other.
Proof.
  destruct remove_shape as (b & i & Hb & Hi & ->). unfold deBlockGetFilepath, deref. simpl.
  destruct (decide (other = block)) as [->|Hne].
  - rewrite list_lookup_insert_eq by eauto using lookup_lt_Some. by rewrite Hb.
  - by rewrite list_lookup_insert_ne.
Qed.

Lemma remove_moduleBlock filepath :
  deFilepathGetModuleBlock db' filepath = deFilepathGetModuleBlock db filepath.
Proof. by destruct remove_shape as (b & i & Hb & Hi & ->). Qed.

Lemma remove_rootBlock : deRootGetBlock db' = deRootGetBlock db.
Proof. by destruct remove_shape as (b & i & Hb & Hi & ->). Qed.

Lemma remove_find_other other name :
  other ≠ block → deBlockFindIdent db' other name = deBlockFindIdent db other name.
Proof.
  intros Hne. destruct remove_shape as (b & i & Hb & Hi & Hdb').
  unfold deBlockFindIdent, deref.
  assert (blocks db' !! other = blocks db !! other) as ->.
  { subst db'. simpl. by rewrite list_lookup_insert_ne. }
  destruct (blocks db !! other) as [o|]; [simpl|done].
  f_equal. apply tableFind_ext. intros. apply remove_identSym.
Qed.

Lemma remove_find_same name :
  uniqueDb db → deBlockFindIdent db block name = Ok (Some ident) →
  deBlockFindIdent db' block name = Ok None.
Proof.
  intros Hu (b' & Hb' & Hfind)%deBlockFindIdent_Ok.
  destruct remove_shape as (b & i & Hb & Hi & Hdb').
  assert (b' = b) as -> by congruence.
  apply deBlockFindIdent_Ok.
  exists (blockWithIdents b (filter (λ j, j ≠ ident) (blockIdents b))). split.
  - subst db'. simpl. apply list_lookup_insert_eq. eauto using lookup_lt_Some.
  - simpl. rewrite (tableFind_ext (idents db)) by (intros; apply remove_identSym).
    symmetry. apply tableFind_remove; [by eapply Hu|done].
Qed.

Lemma remove_uniqueDb : uniqueDb db → uniqueDb db'.
Proof.
  intros Hu other o Ho. destruct remove_shape as (b & i & Hb & Hi & Hdb').
  apply (uniqueNames_ext (idents db)); [intros; apply remove_identSym|].
  subst db'. simpl in Ho.
  apply list_lookup_insert_Some in Ho as [(-> & <- & _)|[_ Ho]].
  - simpl. apply uniqueNames_remove. by eapply Hu.
  - by eapply Hu.
Qed.
End remove.

Example sample_resolve_local : deFindIdent sampleDb blockL symX = Ok (Some identLX).
Proof. reflexivity. Qed.

Example sample_resolve_module : deFindIdent sampleDb blockL symF = Ok (Some identF).
Proof. reflexivity. Qed.

Example sample_resolve_global : deFindIdent sampleDb blockL symPoint = Ok (Some identPoint).
Proof. reflexivity. Qed.

Example sample_resolve_path : findIdentFromPath 3 sampleDb blockG 6 = Ok (Some identLX).
Proof. reflexivity. Qed.

Example sample_build_path :
  deCreateIdentPathExpression 3 identLX sampleDb
    ≫= (λ r, deFindIdentFromPath 3 r.2 blockG r.1) = Ok (Some identLX).
Proof. reflexivity. Qed.

Example sample_build_path_class :
  deCreateIdentPathExpression 3 identShowCopy sampleDb
    ≫= (λ r, deFindIdentFromPath 3 r.2 blockG r.1) = Ok (Some identShow).
Proof. reflexivity. Qed.

Example sample_no_filepath : deFindIdent sampleDb blockClass symX = Ok None.
Proof. reflexivity. Qed.

(** ** Scope resolution: [deFindIdent] *)

(** C1, as the code has it: for a scope block with no associated filepath
    and a name that is not bound directly in that block, [deFindIdent]
    returns "not found" at once: the module step and the global step are
    both skipped, whatever the global root scope binds. *)
Theorem deFindIdent_no_filepath db scopeBlock name :
  deBlockGetFilepath db scopeBlock = Ok deFilepathNull →
  deBlockFindIdent db scopeBlock name = Ok deIdentNull →
  deFindIdent db scopeBlock name = Ok deIdentNull.
Proof.
  intros Hfile Hfind. unfold deFindIdent. rewrite Hfind. simpl. by rewrite Hfile.
Qed.

Lemma deFindIdent_no_filepath_witness :
  deBlockGetFilepath sampleDb blockClass = Ok deFilepathNull
  ∧ deBlockFindIdent sampleDb blockClass symX = Ok deIdentNull
  ∧ deBlockFindIdent sampleDb blockG symX = Ok (Some identGX)
  ∧ deFindIdent sampleDb blockClass symX = Ok deIdentNull.
Proof.
  split; [reflexivity|]. split; [reflexivity|]. split; [reflexivity|].
  apply deFindIdent_no_filepath; reflexivity.
Defined.

(** C1, as the claim states it, fails: the class block of the sample
    database has no filepath and does not bind [x], the root scope binds
    [x], and [deFindIdent] does not return the binding of the root. *)
Lemma deFindIdent_no_filepath_not_global :
  ¬ (∀ db scopeBlock name rootBlock,
       deBlockGetFilepath db scopeBlock = Ok deFilepathNull →
       deBlockFindIdent db scopeBlock name = Ok deIdentNull →
       deRootGetBlock db = Some rootBlock →
       deFindIdent db scopeBlock name = deBlockFindIdent db rootBlock name).
Proof.
  intros Hclaim.
  specialize (Hclaim sampleDb blockClass symX blockG eq_refl eq_refl eq_refl).
  discriminate Hclaim.
Qed.

Section fallback.
Context (db : deDatabase) (scopeBlock moduleBlock rootBlock : deBlock).
Context (filepath : deFilepath) (name : utSym).
Hypothesis Hfile : deBlockGetFilepath db scopeBlock = Ok (Some filepath).
Hypothesis Hmodule : deFilepathGetModuleBlock db filepath = Ok (Some moduleBlock).
Hypothesis Hroot : deRootGetBlock db = Some rootBlock.

Lemma deFindIdent_scope ident :
  deBlockFindIdent db scopeBlock name = Ok (Some ident) →
  deFindIdent db scopeBlock name = Ok (Some ident).
Proof. intros Hfind. unfold deFindIdent. by rewrite Hfind. Qed.

Lemma deFindIdent_module ident :
  deBlockFindIdent db scopeBlock name = Ok None →
  deBlockFindIdent db moduleBlock name = Ok (Some ident) →
  deFindIdent db scopeBlock name = Ok (Some ident).
Proof.
  intros Hscope Hfind. unfold deFindIdent.
  rewrite Hscope. simpl. rewrite Hfile. simpl. rewrite Hmodule. simpl.
  by rewrite Hfind.
Qed.

Lemma deFindIdent_root found :
  deBlockFindIdent db scopeBlock name = Ok None →
  deBlockFindIdent db moduleBlock name = Ok None →
  deBlockFindIdent db rootBlock name = Ok found →
  deFindIdent db scopeBlock name = Ok found.
Proof.
  intros Hscope Hmod Hfind. unfold deFindIdent.
  rewrite Hscope. simpl. rewrite Hfile. simpl. rewrite Hmodule. simpl.
  rewrite Hmod. simpl. rewrite Hroot. simpl. rewrite Hfind. simpl.
  by destruct found.
Qed.

Lemma deFindIdent_none :
  deFindIdent db scopeBlock name = Ok None →
  deBlockFindIdent db scopeBlock name = Ok None
  ∧ deBlockFindIdent db moduleBlock name = Ok None
  ∧ deBlockFindIdent db rootBlock name = Ok None.
Proof.
  unfold deFindIdent. intros H.
  apply bind_Ok in H as ([i|] & Hscope & H); [done|]. split; [done|].
  rewrite Hfile in H. simpl in H. rewrite Hmodule in H. simpl in H.
  apply bind_Ok in H as ([i|] & Hmod & H); [done|]. split; [done|].
  rewrite Hroot in H. simpl in H.
  apply bind_Ok in H as ([i|] & Hglobal & H); done.
Qed.
End fallback.

Lemma deBlockRemoveIdent_found db block name ident :
  deBlockFindIdent db block name = Ok (Some ident) →
  ∃ db', deBlockRemoveIdent db block ident = Ok db'.
Proof.
  intros (b & r & Hb & _ & Hr & _)%deBlockFindIdent_found.
  unfold deBlockRemoveIdent.
  rewrite (deref_lookup _ _ _ Hb). simpl. rewrite (deref_lookup _ _ _ Hr). simpl. eauto.
Qed.

(** C2: [deFindIdent] returns the identifier the scope block binds, when
    it binds one, without searching further; for a scope block with a
    filepath it searches then the module block of the filepath, then the
    global root block, returns the first identifier found, and returns "not
    found" only when all three lack the name.  With the name bound in the
    three scopes the local binding is returned, and removing the innermost
    binding each time gives the module binding, the global binding, and at
    last "not found". *)
Theorem deFindIdent_fallback_order db scopeBlock name :
  (∀ ident,
     deBlockFindIdent db scopeBlock name = Ok (Some ident) →
     deFindIdent db scopeBlock name = Ok (Some ident))
  ∧ ∀ filepath moduleBlock,
      deBlockGetFilepath db scopeBlock = Ok (Some filepath) →
      deFilepathGetModuleBlock db filepath = Ok (Some moduleBlock) →
      (∀ ident,
         deBlockFindIdent db scopeBlock name = Ok None →
         deBlockFindIdent db moduleBlock name = Ok (Some ident) →
         deFindIdent db scopeBlock name = Ok (Some ident))
      ∧ ∀ rootBlock,
          deRootGetBlock db = Some rootBlock →
          (∀ found,
             deBlockFindIdent db scopeBlock name = Ok None →
             deBlockFindIdent db moduleBlock name = Ok None →
             deBlockFindIdent db rootBlock name = Ok found →
             deFindIdent db scopeBlock name = Ok found)
          ∧ (deFindIdent db scopeBlock name = Ok None →
             deBlockFindIdent db scopeBlock name = Ok None
             ∧ deBlockFindIdent db moduleBlock name = Ok None
             ∧ deBlockFindIdent db rootBlock name = Ok None)
          ∧ (∀ localIdent moduleIdent globalIdent,
               uniqueDb db →
               scopeBlock ≠ moduleBlock → moduleBlock ≠ rootBlock →
               scopeBlock ≠ rootBlock →
               deBlockFindIdent db scopeBlock name = Ok (Some localIdent) →
               deBlockFindIdent db moduleBlock name = Ok (Some moduleIdent) →
               deBlockFindIdent db rootBlock name = Ok (Some globalIdent) →
               deFindIdent db scopeBlock name = Ok (Some localIdent)
               ∧ ∃ db1, deBlockRemoveIdent db scopeBlock localIdent = Ok db1
                 ∧ deFindIdent db1 scopeBlock name = Ok (Some moduleIdent)
                 ∧ ∃ db2, deBlockRemoveIdent db1 moduleBlock moduleIdent = Ok db2
                   ∧ deFindIdent db2 scopeBlock name = Ok (Some globalIdent)
                   ∧ ∃ db3, deBlockRemoveIdent db2 rootBlock globalIdent = Ok db3
                     ∧ deFindIdent db3 scopeBlock name = Ok None).
Proof.
  split; [eauto using deFindIdent_scope|].
  intros filepath moduleBlock Hfile Hmodule.
  split; [eauto using deFindIdent_module|].
  intros rootBlock Hroot.
  split; [eauto using deFindIdent_root|].
  split; [eauto using deFindIdent_none|].
  intros localIdent moduleIdent globalIdent Hu Hsm Hmr Hsr Hlocal Hmod Hglobal.
  split; [eauto using deFindIdent_scope|].
  destruct (deBlockRemoveIdent_found _ _ _ _ Hlocal) as [db1 Hdb1].
  exists db1. split; [done|].
  assert (deBlockFindIdent db1 scopeBlock name = Ok None) as Hlocal1
    by eauto using remove_find_same.
  assert (deBlockFindIdent db1 moduleBlock name = Ok (Some moduleIdent)) as Hmod1
    by (erewrite remove_find_other; eauto).
  assert (deBlockFindIdent db1 rootBlock name = Ok (Some globalIdent)) as Hglobal1
    by (erewrite remove_find_other; eauto).
  assert (deBlockGetFilepath db1 scopeBlock = Ok (Some filepath)) as Hfile1
    by (erewrite remove_filepath; eauto).
  assert (deFilepathGetModuleBlock db1 filepath = Ok (Some moduleBlock)) as Hmodule1
    by (erewrite remove_moduleBlock; eauto).
  assert (deRootGetBlock db1 = Some rootBlock) as Hroot1
    by (erewrite remove_rootBlock; eauto).
  assert (uniqueDb db1) as Hu1 by eauto using remove_uniqueDb.
  split; [eauto using deFindIdent_module|].
  destruct (deBlockRemoveIdent_found _ _ _ _ Hmod1) as [db2 Hdb2].
  exists db2. split; [done|].
  assert (deBlockFindIdent db2 scopeBlock name = Ok None) as Hlocal2
    by (erewrite remove_find_other; eauto).
  assert (deBlockFindIdent db2 moduleBlock name = Ok None) as Hmod2
    by eauto using remove_find_same.
  assert (deBlockFindIdent db2 rootBlock name = Ok (Some globalIdent)) as Hglobal2
    by (erewrite remove_find_other; eauto).
  assert (deBlockGetFilepath db2 scopeBlock = Ok (Some filepath)) as Hfile2
    by (erewrite remove_filepath; eauto).
  assert (deFilepathGetModuleBlock db2 filepath = Ok (Some moduleBlock)) as Hmodule2
    by (erewrite remove_moduleBlock; eauto).
  assert (deRootGetBlock db2 = Some rootBlock) as Hroot2
    by (erewrite remove_rootBlock; eauto).
  assert (uniqueDb db2) as Hu2 by eauto using remove_uniqueDb.
  split; [eauto using deFindIdent_root|].
  destruct (deBlockRemoveIdent_found _ _ _ _ Hglobal2) as [db3 Hdb3].
  exists db3. split; [done|].
  eapply deFindIdent_root.
  - erewrite remove_filepath; eauto.
  - erewrite remove_moduleBlock; eauto.
  - erewrite remove_rootBlock; eauto.
  - erewrite remove_find_other; eauto.
  - erewrite remove_find_other; eauto.
  - eauto using remove_find_same.
Qed.

Lemma uniqueNames_NoDup ids table :
  NoDup ((λ ident, identSym <$> ids !! ident) <$> table) → uniqueNames ids table.
Proof.
  intros Hnd name. induction table as [|i t IH]; [simpl; lia|].
  rewrite fmap_cons in Hnd. apply NoDup_cons in Hnd as [Hi Hnd].
  rewrite filter_cons. destruct (decide (identNamed ids name i)) as [Hn|Hn]; [|by apply IH].
  assert (filter (identNamed ids name) t = []) as ->; [|simpl; lia].
  apply filter_identNamed_nil, tableFind_None, Forall_forall. intros j Hj Hnj.
  apply Hi. apply list_elem_of_fmap. exists j. split; [|done].
  unfold identNamed in Hn, Hnj. congruence.
Qed.

Lemma uniqueDb_NoDup db :
  Forall (λ b, NoDup ((λ ident, identSym <$> idents db !! ident) <$> blockIdents b))
    (blocks db) →
  uniqueDb db.
Proof.
  intros Hall block b Hb. apply uniqueNames_NoDup.
  by apply (Forall_lookup_1 _ _ _ _ Hall Hb).
Qed.

Lemma sampleDb_unique : uniqueDb sampleDb.
Proof. apply uniqueDb_NoDup. refine (bool_decide_unpack _ _). by vm_compute. Qed.

Lemma deFindIdent_fallback_order_witness :
  deFindIdent sampleDb blockL symX = Ok (Some identLX)
  ∧ ∃ db1, deBlockRemoveIdent sampleDb blockL identLX = Ok db1
    ∧ deFindIdent db1 blockL symX = Ok (Some identMX)
    ∧ ∃ db2, deBlockRemoveIdent db1 blockM identMX = Ok db2
      ∧ deFindIdent db2 blockL symX = Ok (Some identGX)
      ∧ ∃ db3, deBlockRemoveIdent db2 blockG identGX = Ok db3
        ∧ deFindIdent db3 blockL symX = Ok None.
Proof.
  destruct (deFindIdent_fallback_order sampleDb blockL symX) as [_ Hfile].
  destruct (Hfile 1 blockM eq_refl eq_refl) as [_ Hroot].
  destruct (Hroot blockG eq_refl) as (_ & _ & Hscenario).
  apply Hscenario; [apply sampleDb_unique|discriminate..|reflexivity|reflexivity|reflexivity].
Defined.

(** ** Creation: [deIdentCreate] *)

(** The record of a freshly created identifier. *)
Lemma alloc_set_lookup ids (d r : deIdentRec) :
  <[length ids := r]> (ids ++ [d]) = ids ++ [r].
Proof.
  rewrite <- (Nat.add_0_r (length ids)). by rewrite insert_app_r.
Qed.

Lemma lookup_alloc {A} (l : list A) (x : A) : (l ++ [x]) !! length l = Some x.
Proof. by apply list_lookup_middle. Qed.

(** What [deIdentCreate] returns on a real scope that does not bind the
    name. *)
Lemma deIdentCreate_scope db block b type name line :
  blocks db !! block = Some b →
  tableFind (idents db) name (blockIdents b) = None →
  deIdentCreate (Some block) type name line db =
  Ok (length (idents db),
      setBlocks
        (setIdents db (idents db ++ [mkIdent type name (Some block) None None []]))
        (<[block := blockWithIdents b (blockIdents b ++ [length (idents db)])]> (blocks db))).
Proof.
  intros Hb Hfind. unfold deIdentCreate.
  rewrite (deBlockFindIdent_lookup _ _ _ _ Hb), Hfind. simpl.
  unfold deIdentSetType, deIdentSetSym, deBlockAppendIdent, deref. simpl.
  rewrite lookup_alloc. simpl. rewrite alloc_set_lookup, lookup_alloc. simpl.
  rewrite alloc_set_lookup, Hb. simpl. rewrite lookup_alloc. simpl.
  by rewrite alloc_set_lookup.
Qed.

(** What [deIdentCreate] returns with the no-scope sentinel. *)
Lemma deIdentCreate_operator db type name line :
  deIdentCreate deBlockNull type name line db =
  Ok (length (idents db),
      setIdents db (idents db ++ [mkIdent type name None None None []])).
Proof.
  unfold deIdentCreate, deBlockNull. simpl.
  unfold deIdentSetType, deIdentSetSym, deref. simpl.
  rewrite lookup_alloc. simpl. rewrite alloc_set_lookup, lookup_alloc. simpl.
  by rewrite alloc_set_lookup.
Qed.

Lemma deIdentCreate_duplicate db block type name line oldIdent :
  deBlockFindIdent db block name = Ok (Some oldIdent) →
  deIdentCreate (Some block) type name line db
  = Error line (duplicateIdentMessage name) db.
Proof. intros Hfind. unfold deIdentCreate. by rewrite Hfind. Qed.

Lemma deIdentCreate_scope_inv db db' block type name line ident :
  deIdentCreate (Some block) type name line db = Ok (ident, db') →
  ∃ b, blocks db !! block = Some b
       ∧ tableFind (idents db) name (blockIdents b) = None
       ∧ ident = length (idents db)
       ∧ db' = setBlocks
                 (setIdents db (idents db ++ [mkIdent type name (Some block) None None []]))
                 (<[block := blockWithIdents b (blockIdents b ++ [length (idents db)])]>
                    (blocks db)).
Proof.
  intros Hcreate.
  destruct (blocks db !! block) as [b|] eqn:Hb.
  - destruct (tableFind (idents db) name (blockIdents b)) as [old|] eqn:Hfind.
    + rewrite (deIdentCreate_duplicate db block type name line old) in Hcreate; [done|].
      by rewrite (deBlockFindIdent_lookup _ _ _ _ Hb), Hfind.
    + rewrite (deIdentCreate_scope _ _ _ _ _ _ Hb Hfind) in Hcreate.
      injection Hcreate as <- <-. by exists b.
  - unfold deIdentCreate, deBlockFindIdent, deref in Hcreate. by rewrite Hb in Hcreate.
Qed.

(** The names of the allocated identifiers stay as they are when a new
    record is put at the end of the array. *)
Lemma identSym_alloc ids (r : deIdentRec) ident :
  ident < length ids → identSym <$> (ids ++ [r]) !! ident = identSym <$> ids !! ident.
Proof. intros Hlt. by rewrite lookup_app_l. Qed.

Section create.
Context (db db' : deDatabase) (block : deBlock) (type : deIdentType).
Context (name : utSym) (line : deLine) (ident : deIdent).
Hypothesis Hcreate : deIdentCreate (Some block) type name line db = Ok (ident, db').

Lemma create_tablesValid : tablesValid db → tablesValid db'.
Proof.
  intros Hv other o j Ho Hj.
  destruct (deIdentCreate_scope_inv _ _ _ _ _ _ _ Hcreate) as (b & Hb & Hfind & -> & ->).
  simpl in *. rewrite length_app. simpl.
  apply list_lookup_insert_Some in Ho as [(-> & <- & _)|[_ Ho]].
  - simpl in Hj. apply elem_of_app in Hj as [Hj|Hj%list_elem_of_singleton].
    + specialize (Hv _ _ _ Hb Hj). lia.
    + lia.
  - specialize (Hv _ _ _ Ho Hj). lia.
Qed.

Lemma create_uniqueDb : tablesValid db → uniqueDb db → uniqueDb db'.
Proof.
  intros Hv Hu other o Ho.
  destruct (deIdentCreate_scope_inv _ _ _ _ _ _ _ Hcreate) as (b & Hb & Hfind & -> & ->).
  simpl in *.
  apply list_lookup_insert_Some in Ho as [(-> & <- & _)|[_ Ho]].
  - simpl. apply uniqueNames_append.
    + apply (uniqueNames_ext (idents db)); [|by eapply Hu].
      intros j Hj. apply identSym_alloc. apply (Hv _ _ _ Hb Hj).
    + intros name' Hn. unfold identNamed in Hn. rewrite lookup_alloc in Hn.
      injection Hn as <-.
      rewrite (tableFind_ext (idents db)); [done|].
      intros j Hj. apply identSym_alloc. apply (Hv _ _ _ Hb Hj).
  - apply (uniqueNames_ext (idents db)); [|by eapply Hu].
    intros j Hj. apply identSym_alloc. apply (Hv _ _ _ Ho Hj).
Qed.

(** The name is bound in the scope once the identifier is created. *)
Lemma create_bound : ∃ found, deBlockFindIdent db' block name = Ok (Some found).
Proof.
  destruct (deIdentCreate_scope_inv _ _ _ _ _ _ _ Hcreate) as (b & Hb & Hfind & -> & ->).
  unfold deBlockFindIdent, deref. simpl.
  rewrite list_lookup_insert_eq by eauto using lookup_lt_Some. simpl.
  rewrite tableFind_append.
  destruct (tableFind (_ ++ _) name (blockIdents b)) as [found|]; [eauto|].
  rewrite decide_True; [eauto|]. unfold identNamed. by rewrite lookup_alloc.
Qed.
End create.

Lemma create_operator_tablesValid db type name :
  tablesValid db →
  tablesValid (setIdents db (idents db ++ [mkIdent type name None None None []])).
Proof.
  intros Hv block b j Hb Hj. simpl in *. rewrite length_app. simpl.
  specialize (Hv _ _ _ Hb Hj). lia.
Qed.

Lemma create_operator_uniqueDb db type name :
  tablesValid db → uniqueDb db →
  uniqueDb (setIdents db (idents db ++ [mkIdent type name None None None []])).
Proof.
  intros Hv Hu block b Hb. simpl in *.
  apply (uniqueNames_ext (idents db)); [|by eapply Hu].
  intros j Hj. apply identSym_alloc. apply (Hv _ _ _ Hb Hj).
Qed.

(** Uniqueness of names is an invariant of creation. *)
Lemma deIdentCreateAll_invariant calls db db' :
  tablesValid db → uniqueDb db → deIdentCreateAll calls db = Ok db' →
  tablesValid db' ∧ uniqueDb db'.
Proof.
  revert db. induction calls as [|[[block|] type name line] rest IH];
    intros db Hv Hu Hrun; simpl in Hrun.
  - by injection Hrun as <-.
  - apply bind_Ok in Hrun as ([ident db1] & Hcreate & Hrun).
    apply (IH db1); [..|done].
    + by eapply create_tablesValid.
    + by eapply create_uniqueDb.
  - rewrite deIdentCreate_operator in Hrun. simpl in Hrun.
    apply (IH _ (create_operator_tablesValid _ type name Hv)
                (create_operator_uniqueDb _ type name Hv Hu) Hrun).
Qed.

Lemma emptyTables_invariant db :
  (∀ block b, blocks db !! block = Some b → blockIdents b = []) →
  tablesValid db ∧ uniqueDb db.
Proof.
  intros Hempty. split.
  - intros block b j Hb Hj. rewrite (Hempty _ _ Hb) in Hj. by apply not_elem_of_nil in Hj.
  - intros block b Hb name. rewrite (Hempty _ _ Hb). simpl. lia.
Qed.

(** C3: on a real scope, if the table of the scope binds the name already,
    [deIdentCreate] fails with the reported duplicate-identifier error: the
    message spells the conflicting name out, the location is the line of the
    new declaration, and the database when the error is reported is the one
    the call was given, so that no identifier has been allocated and none
    inserted into a table.  Otherwise it allocates a new identifier with the
    given type and name, appends it to the table of the scope and returns
    it, after which a second creation of the name in that scope fails in the
    same way.  So after any sequence of successful creations at most one
    identifier of a given name exists directly in any scope. *)
Theorem deIdentCreate_unique db block type name line :
  (∀ oldIdent,
     deBlockFindIdent db block name = Ok (Some oldIdent) →
     deIdentCreate (Some block) type name line db
     = Error line
         ("Tried to create an identifier '" ++ utSymGetName name
            ++ "' that already exists on the block")
         db)
  ∧ (∀ b,
       blocks db !! block = Some b →
       deBlockFindIdent db block name = Ok None →
       ∃ ident db',
         deIdentCreate (Some block) type name line db = Ok (ident, db')
         ∧ idents db !! ident = None
         ∧ idents db' !! ident = Some (mkIdent type name (Some block) None None [])
         ∧ blocks db' !! block = Some (blockWithIdents b (blockIdents b ++ [ident]))
         ∧ ∀ type' line',
             deIdentCreate (Some block) type' name line' db'
             = Error line'
                 ("Tried to create an identifier '" ++ utSymGetName name
                    ++ "' that already exists on the block")
                 db')
  ∧ (∀ calls db',
       tablesValid db → uniqueDb db →
       deIdentCreateAll calls db = Ok db' → uniqueDb db')
  ∧ (∀ calls db',
       (∀ block b, blocks db !! block = Some b → blockIdents b = []) →
       deIdentCreateAll calls db = Ok db' → uniqueDb db').
Proof.
  split; [intros oldIdent Hfound; by rewrite (deIdentCreate_duplicate _ _ _ _ _ _ Hfound)|].
  split.
  - intros b Hb Hnone.
    rewrite (deBlockFindIdent_lookup _ _ _ _ Hb) in Hnone. injection Hnone as Hnone.
    pose proof (deIdentCreate_scope db block b type name line Hb Hnone) as Hcreate.
    eexists _, _. split; [exact Hcreate|].
    split; [by apply lookup_ge_None_2|].
    split; [simpl; apply lookup_alloc|].
    split; [simpl; apply list_lookup_insert_eq; eauto using lookup_lt_Some|].
    intros type' line'. destruct (create_bound _ _ _ _ _ _ _ Hcreate) as [found Hfound].
    by rewrite (deIdentCreate_duplicate _ _ _ _ _ _ Hfound).
  - split.
    + intros calls db' Hv Hu Hrun. by eapply deIdentCreateAll_invariant.
    + intros calls db' Hempty Hrun.
      destruct (emptyTables_invariant _ Hempty) as [Hv Hu].
      by eapply deIdentCreateAll_invariant.
Qed.

Lemma deIdentCreate_unique_witness :
  deBlockFindIdent emptyTablesDb blockG symX = Ok None
  ∧ (∃ ident db',
       deIdentCreate (Some blockG) DE_IDENT_VARIABLE symX (Some 3) emptyTablesDb
       = Ok (ident, db')
       ∧ deIdentCreate (Some blockG) DE_IDENT_FUNCTION symX (Some 4) db'
         = Error (Some 4) "Tried to create an identifier 'x' that already exists on the block"
             db')
  ∧ deIdentCreate (Some blockM) DE_IDENT_VARIABLE symF (Some 9) sampleDb
    = Error (Some 9) "Tried to create an identifier 'f' that already exists on the block"
        sampleDb
  ∧ (∀ db',
       deIdentCreateAll
         [mkCreateCall (Some blockG) DE_IDENT_VARIABLE symX (Some 3);
          mkCreateCall None DE_IDENT_FUNCTION symX (Some 4);
          mkCreateCall (Some blockM) DE_IDENT_VARIABLE symX (Some 5);
          mkCreateCall (Some blockG) DE_IDENT_VARIABLE symY (Some 6)] emptyTablesDb
       = Ok db' → uniqueDb db').
Proof.
  split; [reflexivity|].
  destruct (deIdentCreate_unique emptyTablesDb blockG DE_IDENT_VARIABLE symX (Some 3))
    as (_ & Hnew & _ & Hall).
  split; [|split].
  - destruct (Hnew _ eq_refl eq_refl) as (ident & db' & Hcreate & _ & _ & _ & Hdup).
    exists ident, db'. split; [exact Hcreate|apply Hdup].
  - destruct (deIdentCreate_unique sampleDb blockM DE_IDENT_VARIABLE symF (Some 9))
      as (Hduplicate & _).
    apply (Hduplicate identF). reflexivity.
  - intros db'. apply Hall.
    intros [|[|[|[|[|[|block]]]]]] b [= <-]; reflexivity.
Defined.

(** ** Renaming: [deRenameIdent] *)

(** The loop over the identifier expressions changes nothing but the
    expression array. *)
Lemma renameIdentExpression_Ok newName db db' expression :
  renameIdentExpression newName db expression = Ok db' ↔
  ∃ r, expressions db !! expression = Some r ∧ exprType r = DE_EXPR_IDENT
       ∧ db' = setExpressions db
                 (<[expression := exprWithName r newName]> (expressions db)).
Proof.
  unfold renameIdentExpression, deExpressionGetType, deExpressionSetName. split.
  - intros H. inv_Ok. subst. apply bool_decide_eq_true in H1.
    match goal with H1 : expressions db !! _ = Some ?a, H2 : expressions db !! _ = Some ?b |- _ =>
      assert (a = b) as -> by congruence end.
    eauto.
  - intros (r & Hr & Htype & ->). rewrite (deref_lookup _ _ _ Hr). simpl.
    by rewrite Htype.
Qed.

Lemma deForeachIdentExpression_Ok newName expressionList db db' :
  deForeachIdentExpression (renameIdentExpression newName) expressionList db = Ok db' →
  (∃ es, db' = setExpressions db es)
  ∧ (∀ expression,
       expressions db' !! expression
       = renamedIn newName expressionList (expressions db) expression)
  ∧ Forall (λ e, exprType <$> expressions db !! e = Some DE_EXPR_IDENT) expressionList.
Proof.
  revert db. induction expressionList as [|e rest IH]; intros db Hloop; simpl in Hloop.
  - injection Hloop as <-. split; [by exists (expressions db); destruct db|]. split; [|done].
    intros expression. unfold renamedIn. rewrite decide_False; [done|]. apply not_elem_of_nil.
  - apply bind_Ok in Hloop as (db1 & Hbody & Hloop).
    apply renameIdentExpression_Ok in Hbody as (r & Hr & Htype & ->).
    apply IH in Hloop as ([es ->] & Hes & Hall). simpl in *.
    split; [by exists es|]. split.
    + intros expression. rewrite Hes. unfold renamedIn.
      destruct (decide (expression = e)) as [->|Hne].
      * rewrite (decide_True (P := e ∈ e :: rest)) by apply list_elem_of_here.
        rewrite list_lookup_insert_eq by eauto using lookup_lt_Some. rewrite Hr.
        by destruct (decide (e ∈ rest)).
      * rewrite list_lookup_insert_ne by done.
        destruct (decide (expression ∈ rest)) as [Hin|Hnin].
        -- by rewrite decide_True by (by apply list_elem_of_further).
        -- rewrite decide_False; [done|]. by intros [?|?]%elem_of_cons.
    + constructor; [by rewrite Hr, <- Htype|].
      eapply Forall_impl; [exact Hall|]. intros x Hx. simpl in Hx.
      destruct (decide (x = e)) as [->|Hne].
      * by rewrite Hr, <- Htype.
      * by rewrite list_lookup_insert_ne in Hx.
Qed.

Lemma deForeachIdentExpression_total newName expressionList db :
  Forall (λ e, exprType <$> expressions db !! e = Some DE_EXPR_IDENT) expressionList →
  ∃ db', deForeachIdentExpression (renameIdentExpression newName) expressionList db = Ok db'.
Proof.
  revert db. induction expressionList as [|e rest IH]; intros db Hall; simpl; [eauto|].
  apply Forall_cons in Hall as [He Hall].
  destruct (expressions db !! e) as [r|] eqn:Hr; [|done]. injection He as He.
  assert (renameIdentExpression newName db e
          = Ok (setExpressions db (<[e := exprWithName r newName]> (expressions db)))) as ->.
  { apply renameIdentExpression_Ok. eauto. }
  simpl. apply IH. simpl.
  eapply Forall_impl; [exact Hall|]. intros x Hx. simpl in Hx.
  destruct (decide (x = e)) as [->|Hne].
  - rewrite list_lookup_insert_eq by eauto using lookup_lt_Some. simpl. by rewrite He.
  - by rewrite list_lookup_insert_ne.
Qed.

Lemma deRenameIdent_unfold db ident newName r scopeBlock b :
  idents db !! ident = Some r → identBlock r = Some scopeBlock →
  blocks db !! scopeBlock = Some b →
  deRenameIdent ident newName db
  = deForeachIdentExpression (renameIdentExpression newName) (identExpressions r)
      (renamedDb db ident newName r scopeBlock b).
Proof.
  intros Hr Hblock Hb.
  assert (ident < length (idents db)) as Hlt by eauto using lookup_lt_Some.
  assert (scopeBlock < length (blocks db)) as Hblt by eauto using lookup_lt_Some.
  unfold deRenameIdent, deIdentGetBlock.
  rewrite (deref_lookup _ _ _ Hr). simpl. rewrite Hblock. simpl.
  unfold deBlockRemoveIdent.
  rewrite (deref_lookup _ _ _ Hb). simpl. rewrite (deref_lookup _ _ _ Hr). simpl.
  unfold deIdentSetSym, deref. simpl.
  rewrite list_lookup_insert_eq by done. simpl.
  unfold deBlockAppendIdent, deref. simpl.
  rewrite !list_lookup_insert_eq by (rewrite ?length_insert; done). simpl.
  unfold deIdentGetExpressions, deref. simpl.
  rewrite list_lookup_insert_eq by (rewrite ?length_insert; done). simpl.
  rewrite !list_insert_insert_eq. unfold renamedDb.
  do 3 f_equal. destruct r; simpl in *. by subst.
Qed.

Lemma deRenameIdent_inv db db' ident newName :
  deRenameIdent ident newName db = Ok db' →
  ∃ r scopeBlock b,
    idents db !! ident = Some r ∧ identBlock r = Some scopeBlock
    ∧ blocks db !! scopeBlock = Some b.
Proof.
  unfold deRenameIdent, deIdentGetBlock, deBlockRemoveIdent. intros H. inv_Ok. subst.
  eauto 10.
Qed.

Lemma tableFind_filter_None ids name table (P : deIdent → Prop) `{!∀ x, Decision (P x)} :
  tableFind ids name table = None → tableFind ids name (filter P table) = None.
Proof.
  rewrite !tableFind_None, !Forall_forall. intros Hnone j [_ Hj]%list_elem_of_filter.
  by apply Hnone.
Qed.

Lemma tableFind_member ids name table ident :
  uniqueNames ids table → ident ∈ table → identNamed ids name ident →
  tableFind ids name table = Some ident.
Proof.
  intros Hu Hin Hn.
  destruct (tableFind ids name table) as [found|] eqn:Hfind.
  - f_equal. symmetry. by eapply tableFind_unique.
  - apply tableFind_None in Hfind. rewrite Forall_forall in Hfind. by destruct (Hfind _ Hin).
Qed.

Section rename.
Context (db db' : deDatabase) (ident : deIdent) (newName : utSym).
Context (r : deIdentRec) (scopeBlock : deBlock) (b : deBlockRec).
Hypothesis Hr : idents db !! ident = Some r.
Hypothesis Hblock : identBlock r = Some scopeBlock.
Hypothesis Hb : blocks db !! scopeBlock = Some b.
Hypothesis Hrename : deRenameIdent ident newName db = Ok db'.

Lemma rename_shape :
  (∃ es, db' = setExpressions (renamedDb db ident newName r scopeBlock b) es)
  ∧ (∀ expression,
       expressions db' !! expression
       = renamedIn newName (identExpressions r) (expressions db) expression)
  ∧ Forall (λ e, exprType <$> expressions db !! e = Some DE_EXPR_IDENT)
      (identExpressions r).
Proof.
  rewrite (deRenameIdent_unfold _ _ _ _ _ _ Hr Hblock Hb) in Hrename.
  by apply deForeachIdentExpression_Ok in Hrename.
Qed.

Lemma rename_idents : idents db' = <[ident := identWithSym r newName]> (idents db).
Proof. by destruct rename_shape as ([es ->] & _). Qed.

Lemma rename_blocks :
  blocks db'
  = <[scopeBlock := blockWithIdents b (filter (λ j, j ≠ ident) (blockIdents b) ++ [ident])]>
      (blocks db).
Proof. by destruct rename_shape as ([es ->] & _). Qed.

Lemma rename_identSym_other other :
  other ≠ ident → identSym <$> idents db' !! other = identSym <$> idents db !! other.
Proof. intros Hne. by rewrite rename_idents, list_lookup_insert_ne. Qed.

Lemma rename_identNamed name : identNamed (idents db') name ident ↔ name = newName.
Proof.
  unfold identNamed. rewrite rename_idents.
  rewrite list_lookup_insert_eq by eauto using lookup_lt_Some. simpl.
  split; congruence.
Qed.

Lemma rename_tableFind name :
  tableFind (idents db') name (filter (λ j, j ≠ ident) (blockIdents b))
  = tableFind (idents db) name (filter (λ j, j ≠ ident) (blockIdents b)).
Proof.
  apply tableFind_ext. intros j [Hne _]%list_elem_of_filter.
  by apply rename_identSym_other.
Qed.

Lemma rename_find name :
  deBlockFindIdent db' scopeBlock name
  = Ok match tableFind (idents db) name (filter (λ j, j ≠ ident) (blockIdents b)) with
       | Some found => Some found
       | None => if decide (name = newName) then Some ident else None
       end.
Proof.
  unfold deBlockFindIdent, deref. rewrite rename_blocks.
  rewrite list_lookup_insert_eq by eauto using lookup_lt_Some. simpl.
  rewrite tableFind_append, rename_tableFind.
  destruct (tableFind _ _ _); [done|].
  by rewrite (decide_ext _ _ _ _ (rename_identNamed name)).
Qed.
End rename.



(** C10: [deRenameIdent] returns as soon as the identifier has a block and
    its back-references are identifier expressions, and it changes only the
    name of the identifier and the name fields of the expressions in the
    back-reference set of the identifier.  The type of the identifier, its
    function and variable links, its back-reference set and its block are
    unchanged; no other identifier is modified; the tables of the other
    blocks are unchanged, and in the table of the block of the identifier the
    entries of the other identifiers are the same, in the same order (the
    identifier itself is re-inserted at the end); functions, variables,
    classes, filepaths and the root are unchanged, and so is every expression
    outside the back-reference set. *)
Theorem deRenameIdent_frame db ident newName :
  (∀ r scopeBlock b,
     idents db !! ident = Some r → identBlock r = Some scopeBlock →
     blocks db !! scopeBlock = Some b →
     Forall (λ e, exprType <$> expressions db !! e = Some DE_EXPR_IDENT) (identExpressions r) →
     ∃ db', deRenameIdent ident newName db = Ok db')
  ∧ ∀ db',
      deRenameIdent ident newName db = Ok db' →
      ∃ r r' scopeBlock b b',
        idents db !! ident = Some r ∧ idents db' !! ident = Some r'
        ∧ identSym r' = newName
        ∧ identType r' = identType r
        ∧ identFunction r' = identFunction r
        ∧ identVariable r' = identVariable r
        ∧ identExpressions r' = identExpressions r
        ∧ identBlock r = Some scopeBlock ∧ identBlock r' = Some scopeBlock
        ∧ (∀ other, other ≠ ident → idents db' !! other = idents db !! other)
        ∧ blocks db !! scopeBlock = Some b ∧ blocks db' !! scopeBlock = Some b'
        ∧ blockWithIdents b' (blockIdents b) = b
        ∧ blockIdents b' = filter (λ j, j ≠ ident) (blockIdents b) ++ [ident]
        ∧ filter (λ j, j ≠ ident) (blockIdents b') = filter (λ j, j ≠ ident) (blockIdents b)
        ∧ (∀ other, other ≠ scopeBlock → blocks db' !! other = blocks db !! other)
        ∧ functions db' = functions db ∧ variables db' = variables db
        ∧ classes db' = classes db ∧ tclasses db' = tclasses db
        ∧ filepaths db' = filepaths db ∧ rootBlock db' = rootBlock db
        ∧ (∀ e, e ∉ identExpressions r → expressions db' !! e = expressions db !! e)
        ∧ (∀ e, e ∈ identExpressions r →
             expressions db' !! e = (λ x, exprWithName x newName) <$> expressions db !! e).
Proof.
  split.
  - intros r scopeBlock b Hr Hblock Hb Hall.
    rewrite (deRenameIdent_unfold _ _ _ _ _ _ Hr Hblock Hb).
    by apply deForeachIdentExpression_total.
  - intros db' Hrename.
    destruct (deRenameIdent_inv _ _ _ _ Hrename) as (r & scopeBlock & b & Hr & Hblock & Hb).
    destruct (rename_shape _ _ _ _ _ _ _ Hr Hblock Hb Hrename) as ([es Hdb'] & Hes & Hall).
    pose proof (rename_idents _ _ _ _ _ _ _ Hr Hblock Hb Hrename) as Hids.
    pose proof (rename_blocks _ _ _ _ _ _ _ Hr Hblock Hb Hrename) as Hbs.
    exists r, (identWithSym r newName), scopeBlock, b,
      (blockWithIdents b (filter (λ j, j ≠ ident) (blockIdents b) ++ [ident])).
    split; [done|].
    split; [rewrite Hids; apply list_lookup_insert_eq; eauto using lookup_lt_Some|].
    do 7 (split; [done|]).
    split; [intros other Hne; rewrite Hids; by apply list_lookup_insert_ne|].
    split; [done|].
    split; [rewrite Hbs; apply list_lookup_insert_eq; eauto using lookup_lt_Some|].
    split; [by destruct b|]. split; [done|].
    split.
    { simpl. rewrite filter_app, list_filter_filter_l by done.
      rewrite filter_cons_False by (intros Hne; by apply Hne). apply app_nil_r. }
    split; [intros other Hne; rewrite Hbs; by apply list_lookup_insert_ne|].
    subst db'. do 6 (split; [done|]). split.
    + intros e He. rewrite Hes. unfold renamedIn. by rewrite decide_False.
    + intros e He. rewrite Hes. unfold renamedIn. by rewrite decide_True.
Qed.

Lemma deRenameIdent_frame_witness :
  ∃ db', deRenameIdent identLX symY sampleDb = Ok db'
    ∧ idents db' !! identLX
      = Some (mkIdent DE_IDENT_VARIABLE symY (Some blockL) None (Some 2) [0; 4])
    ∧ (∀ other, other ≠ identLX → idents db' !! other = idents sampleDb !! other)
    ∧ (∀ other, other ≠ blockL → blocks db' !! other = blocks sampleDb !! other)
    ∧ functions db' = functions sampleDb ∧ variables db' = variables sampleDb.
Proof.
  destruct (deRenameIdent_frame sampleDb identLX symY) as [Htotal Hframe].
  destruct (Htotal _ blockL _ eq_refl eq_refl eq_refl) as [db' Hrename].
  { repeat constructor. }
  exists db'. split; [done|].
  destruct (Hframe db' Hrename)
    as (r & r' & scopeBlock & b & b' & Hr & Hr' & Hsym & Htype & Hfun & Hvar & Hexprs
        & Hblock & Hblock' & Hothers & Hb & Hb' & _ & _ & _ & Hblocks & Hfuns & Hvars & _).
  injection Hr as <-. injection Hblock as <-.
  split; [|done].
  rewrite Hr'. destruct r'; simpl in *. by subst.
Defined.

(** ** Copying: [deCopyIdent] *)

Section copy.
Context (db : deDatabase) (ident : deIdent) (destBlock : deBlock).
Context (r : deIdentRec) (d : deBlockRec).
Hypothesis Hr : idents db !! ident = Some r.
Hypothesis Hd : blocks db !! destBlock = Some d.
Hypothesis Hfresh : tableFind (idents db) (identSym r) (blockIdents d) = None.

Lemma deCopyIdent_function function f :
  identType r = DE_IDENT_FUNCTION → identFunction r = Some function →
  functions db !! function = Some f →
  deCopyIdent ident (Some destBlock) db
  = Ok (length (idents db),
        setFunctions
          (setBlocks
             (setIdents db
                (idents db ++ [mkIdent DE_IDENT_FUNCTION (identSym r) (Some destBlock)
                                 (Some function) None []]))
             (<[destBlock := blockWithIdents d (blockIdents d ++ [length (idents db)])]>
                (blocks db)))
          (<[function := functionWithIdents f (functionIdents f ++ [length (idents db)])]>
             (functions db))).
Proof.
  intros Htype Hfun Hf. unfold deCopyIdent, deIdentGetType, deIdentGetSym.
  rewrite (deref_lookup _ _ _ Hr). simpl.
  rewrite (deIdentCreate_scope _ _ _ _ _ _ Hd Hfresh). simpl. rewrite Htype.
  unfold deIdentGetFunction, deref. simpl.
  rewrite (lookup_app_l_Some _ _ _ _ Hr). simpl. rewrite Hfun. simpl.
  unfold deFunctionAppendIdent, deref. simpl. rewrite Hf. simpl.
  rewrite lookup_alloc. simpl. by rewrite alloc_set_lookup.
Qed.

Lemma deCopyIdent_variable variable v :
  identType r = DE_IDENT_VARIABLE → identVariable r = Some variable →
  variables db !! variable = Some v →
  deCopyIdent ident (Some destBlock) db
  = Ok (length (idents db),
        setVariables
          (setBlocks
             (setIdents db
                (idents db ++ [mkIdent DE_IDENT_VARIABLE (identSym r) (Some destBlock)
                                 None (Some variable) []]))
             (<[destBlock := blockWithIdents d (blockIdents d ++ [length (idents db)])]>
                (blocks db)))
          (<[variable := mkVariable (variableLine v) (variableIdents v ++ [length (idents db)])]>
             (variables db))).
Proof.
  intros Htype Hvar Hv. unfold deCopyIdent, deIdentGetType, deIdentGetSym.
  rewrite (deref_lookup _ _ _ Hr). simpl.
  rewrite (deIdentCreate_scope _ _ _ _ _ _ Hd Hfresh). simpl. rewrite Htype.
  unfold deIdentGetVariable, deref. simpl.
  rewrite (lookup_app_l_Some _ _ _ _ Hr). simpl. rewrite Hvar. simpl.
  unfold deVariableAppendIdent, deref. simpl. rewrite Hv. simpl.
  rewrite lookup_alloc. simpl. by rewrite alloc_set_lookup.
Qed.

(** The new entry is the one found under the name in the destination. *)
Lemma copy_tableFind (x : deIdentRec) :
  identSym x = identSym r →
  tableFind (idents db ++ [x]) (identSym r) (blockIdents d ++ [length (idents db)])
  = Some (length (idents db)).
Proof.
  intros Hsym. rewrite tableFind_append.
  destruct (tableFind (idents db ++ [x]) (identSym r) (blockIdents d)) as [j|] eqn:Hj.
  - apply tableFind_elem in Hj as [Hin Hn]. f_equal.
    destruct (decide (j < length (idents db))) as [Hlt|Hge].
    + unfold identNamed in Hn. rewrite lookup_app_l in Hn by done.
      apply tableFind_None in Hfresh. rewrite Forall_forall in Hfresh.
      by destruct (Hfresh _ Hin).
    + unfold identNamed in Hn.
      destruct ((idents db ++ [x]) !! j) eqn:Hlook; [|done].
      apply lookup_lt_Some in Hlook. rewrite length_app in Hlook. simpl in Hlook.
      lia.
  - rewrite decide_True; [done|]. unfold identNamed.
    by rewrite lookup_alloc, <- Hsym.
Qed.
End copy.

(** What is common to the two cases of [deCopyIdent]. *)
Lemma deCopyIdent_shape db ident destBlock r d p registered :
  idents db !! ident = Some r →
  blocks db !! destBlock = Some d →
  tableFind (idents db) (identSym r) (blockIdents d) = None →
  identPayload r = Some p → payloadIdents db p = Some registered →
  ∃ db' r',
    deCopyIdent ident (Some destBlock) db = Ok (length (idents db), db')
    ∧ idents db' = idents db ++ [r']
    ∧ identType r' = identType r ∧ identSym r' = identSym r
    ∧ identBlock r' = Some destBlock ∧ identPayload r' = Some p
    ∧ blocks db'
      = <[destBlock := blockWithIdents d (blockIdents d ++ [length (idents db)])]> (blocks db)
    ∧ payloadIdents db' p = Some (registered ++ [length (idents db)])
    ∧ expressions db' = expressions db.
Proof.
  intros Hr Hd Hfresh Hp Hreg. unfold identPayload in Hp.
  destruct (identType r) eqn:Htype.
  - destruct (identFunction r) as [function|] eqn:Hfun; [|done]. injection Hp as <-.
    simpl in Hreg. destruct (functions db !! function) as [f|] eqn:Hf; [|done].
    injection Hreg as <-.
    eexists _, _. split; [by apply deCopyIdent_function|]. simpl.
    split; [done|]. do 5 (split; [done|]). split; [|done].
    by rewrite list_lookup_insert_eq by eauto using lookup_lt_Some.
  - destruct (identVariable r) as [variable|] eqn:Hvar; [|done]. injection Hp as <-.
    simpl in Hreg. destruct (variables db !! variable) as [v|] eqn:Hv; [|done].
    injection Hreg as <-.
    eexists _, _. split; [by apply deCopyIdent_variable|]. simpl.
    split; [done|]. do 5 (split; [done|]). split; [|done].
    by rewrite list_lookup_insert_eq by eauto using lookup_lt_Some.
Qed.

(** C7: for an identifier with an allocated payload and a destination scope
    that does not bind its name, [deCopyIdent] returns a new identifier,
    distinct from the given one, with the same type and the same name, which
    is in the table of the destination scope and has the same function or
    variable payload, on which it is registered as one more identifier, for
    a variable as for a function.  The given identifier is as before, and
    renaming it afterwards leaves the copy with its name. *)
Theorem deCopyIdent_independent db ident destBlock r d p registered :
  idents db !! ident = Some r →
  blocks db !! destBlock = Some d →
  deBlockFindIdent db destBlock (identSym r) = Ok None →
  identPayload r = Some p →
  payloadIdents db p = Some registered →
  ∃ newIdent db' r',
    deCopyIdent ident (Some destBlock) db = Ok (newIdent, db')
    ∧ newIdent ≠ ident ∧ idents db !! newIdent = None
    ∧ idents db' !! newIdent = Some r'
    ∧ identType r' = identType r ∧ identSym r' = identSym r
    ∧ identBlock r' = Some destBlock
    ∧ blocks db' !! destBlock = Some (blockWithIdents d (blockIdents d ++ [newIdent]))
    ∧ deBlockFindIdent db' destBlock (identSym r) = Ok (Some newIdent)
    ∧ idents db' !! ident = Some r
    ∧ identPayload r' = Some p
    ∧ payloadIdents db' p = Some (registered ++ [newIdent])
    ∧ (∀ newName scopeBlock b,
         identBlock r = Some scopeBlock → blocks db !! scopeBlock = Some b →
         Forall (λ e, exprType <$> expressions db !! e = Some DE_EXPR_IDENT)
           (identExpressions r) →
         ∃ db'', deRenameIdent ident newName db' = Ok db'')
    ∧ (∀ newName db'',
         deRenameIdent ident newName db' = Ok db'' →
         identSym <$> idents db'' !! ident = Some newName
         ∧ idents db'' !! newIdent = Some r').
Proof.
  intros Hr Hd Hfresh Hp Hreg.
  rewrite (deBlockFindIdent_lookup _ _ _ _ Hd) in Hfresh. injection Hfresh as Hfresh.
  destruct (deCopyIdent_shape _ _ _ _ _ _ _ Hr Hd Hfresh Hp Hreg)
    as (db' & r' & Hcopy & Hids & Htype & Hsym & Hblock & Hp' & Hbs & Hreg' & Hes).
  assert (ident < length (idents db)) as Hlt by eauto using lookup_lt_Some.
  assert (idents db' !! ident = Some r) as Hr' by (rewrite Hids; by apply lookup_app_l_Some).
  assert (idents db' !! length (idents db) = Some r') as Hnew
    by (rewrite Hids; apply lookup_alloc).
  exists (length (idents db)), db', r'.
  split; [done|]. split; [lia|]. split; [by apply lookup_ge_None_2|].
  do 4 (split; [done|]).
  split; [rewrite Hbs; apply list_lookup_insert_eq; eauto using lookup_lt_Some|].
  split.
  { unfold deBlockFindIdent, deref. rewrite Hbs, Hids.
    rewrite list_lookup_insert_eq by eauto using lookup_lt_Some. simpl.
    by rewrite copy_tableFind. }
  do 3 (split; [done|]). split.
  - intros newName scopeBlock b Hscope Hb Hall.
    assert (∃ b', blocks db' !! scopeBlock = Some b') as [b' Hb'].
    { apply lookup_lt_is_Some. rewrite Hbs, length_insert. eauto using lookup_lt_Some. }
    rewrite (deRenameIdent_unfold _ _ _ _ _ _ Hr' Hscope Hb').
    apply deForeachIdentExpression_total. simpl. by rewrite Hes.
  - intros newName db'' Hrename.
    destruct (deRenameIdent_inv _ _ _ _ Hrename) as (r1 & scopeBlock & b & Hr1 & Hscope & Hb).
    rewrite (rename_idents _ _ _ _ _ _ _ Hr1 Hscope Hb Hrename). split.
    + by rewrite list_lookup_insert_eq by eauto using lookup_lt_Some.
    + rewrite list_lookup_insert_ne by lia. done.
Qed.

Lemma deCopyIdent_independent_witness :
  ∃ newIdent db' r' db'',
    deCopyIdent identLX (Some blockClass) sampleDb = Ok (newIdent, db')
    ∧ newIdent ≠ identLX
    ∧ idents db' !! newIdent = Some r'
    ∧ identType r' = DE_IDENT_VARIABLE ∧ identSym r' = symX
    ∧ identPayload r' = Some (VariablePayload 2)
    ∧ payloadIdents db' (VariablePayload 2) = Some [identLX; newIdent]
    ∧ deBlockFindIdent db' blockClass symX = Ok (Some newIdent)
    ∧ deRenameIdent identLX symY db' = Ok db''
    ∧ identSym <$> idents db'' !! identLX = Some symY
    ∧ identSym <$> idents db'' !! newIdent = Some symX.
Proof.
  destruct (deCopyIdent_independent sampleDb identLX blockClass _ _ (VariablePayload 2) [identLX]
              eq_refl eq_refl eq_refl eq_refl eq_refl)
    as (newIdent & db' & r' & Hcopy & Hne & _ & Hnew & Htype & Hsym & _ & _ & Hfind & _
        & Hp & Hreg & Htotal & Hafter).
  destruct (Htotal symY blockL _ eq_refl eq_refl) as [db'' Hrename].
  { repeat constructor. }
  destruct (Hafter _ _ Hrename) as [Hrenamed Hkept].
  exists newIdent, db', r', db''.
  do 8 (split; [done|]). split; [done|]. split; [done|].
  rewrite Hkept. simpl. by rewrite Hsym.
Defined.

(** ** Path resolution: [findIdentFromPath] and [deFindIdentFromPath] *)

Lemma depth_pos p : 1 ≤ depth p.
Proof. induction p; simpl; lia. Qed.

(** An alias around an expression that is not itself an alias resolves as
    the expression does. *)
Lemma findIdentFromPath_alias fuel db scopeBlock expression r aliased a :
  expressions db !! expression = Some r → exprType r = DE_EXPR_AS →
  exprFirstExpression r = Some aliased →
  expressions db !! aliased = Some a → exprType a ≠ DE_EXPR_AS →
  findIdentFromPath fuel db scopeBlock expression
  = findIdentFromPath fuel db scopeBlock aliased.
Proof.
  intros Hr Htype Hfirst Ha Hnot. destruct fuel as [|fuel]; [done|]. simpl.
  unfold deExpressionGetType, deExpressionGetFirstExpression.
  rewrite (deref_lookup _ _ _ Hr), (deref_lookup _ _ _ Ha). simpl.
  rewrite Htype, Hfirst. simpl. rewrite (deref_lookup _ _ _ Ha). simpl.
  rewrite (decide_False (P := exprType a = DE_EXPR_AS)) by done. simpl.
  by rewrite (deref_lookup _ _ _ Ha).
Qed.

(** [findIdentFromPath] does what the specification says of path
    resolution, on every expression that has the shape of a path. *)
Lemma findIdentFromPath_resolvePath db scopeBlock expression p :
  represents db expression p →
  ∀ fuel, depth p ≤ fuel →
    findIdentFromPath fuel db scopeBlock expression = resolvePath db scopeBlock p.
Proof.
  induction 1 as [e r Hr Htype
                 |e r sub s identExpr i p Hr Htype Hfirst Hs Hnext Hi Hitype Hsub IH
                 |e r aliased p Hr Htype Hfirst Haliased IH];
    intros fuel Hfuel.
  - destruct fuel as [|fuel]; [simpl in Hfuel; lia|]. simpl.
    unfold deExpressionGetType, deExpressionGetName.
    rewrite (deref_lookup _ _ _ Hr). simpl. rewrite Htype. simpl.
    rewrite (deref_lookup _ _ _ Hr). simpl. by rewrite Htype.
  - destruct fuel as [|fuel]; [simpl in Hfuel; lia|]. simpl in Hfuel. simpl.
    unfold deExpressionGetType, deExpressionGetName, deExpressionGetFirstExpression,
      deExpressionGetNextExpression.
    rewrite (deref_lookup _ _ _ Hr). simpl. rewrite Htype. simpl.
    rewrite (deref_lookup _ _ _ Hr). simpl. rewrite Htype, Hfirst. simpl.
    rewrite (deref_lookup _ _ _ Hs). simpl. rewrite Hnext. simpl.
    rewrite (deref_lookup _ _ _ Hi). simpl. rewrite Hitype. simpl.
    rewrite IH by lia.
    destruct (resolvePath db scopeBlock p) as [[ident|]| | |]; try done.
  - inversion Haliased as [a ra Hra Hatype
                          |a ra sub s identExpr i q Hra Hatype
                          |a ra inner q Hra Hatype Hafirst]; subst.
    + rewrite (findIdentFromPath_alias _ _ _ _ _ _ _ Hr Htype Hfirst Hra)
        by (rewrite Hatype; discriminate).
      by rewrite IH.
    + rewrite (findIdentFromPath_alias _ _ _ _ _ _ _ Hr Htype Hfirst Hra)
        by (rewrite Hatype; discriminate).
      by rewrite IH.
    + pose proof (depth_pos q). simpl in Hfuel.
      destruct fuel as [|fuel]; [lia|]. simpl.
      unfold deExpressionGetType, deExpressionGetFirstExpression.
      rewrite (deref_lookup _ _ _ Hr). simpl. rewrite Htype, Hfirst. simpl.
      rewrite (deref_lookup _ _ _ Hra). simpl. by rewrite Hatype.
Qed.

Lemma resolvePath_dot db scopeBlock subPath name :
  resolvePath db scopeBlock (PathDot subPath name)
  = ident ← resolvePath db scopeBlock subPath;
    match ident with
    | None => Ok None
    | Some ident =>
        subBlock ← deIdentGetSubBlock db ident;
        match subBlock with
        | None => Ok None
        | Some subBlock => deBlockFindIdent db subBlock name
        end
    end.
Proof. done. Qed.

(** C4: on every expression that has the shape of a path,
    [findIdentFromPath] unwraps one alias level; a bare name is a plain
    lookup in the given scope block, with no module or global fallback; a
    dotted pair resolves its sub-path in the scope block, fails if that
    fails, fails if the resolved identifier has no sub-block (a variable
    identifier never has one), and otherwise looks the trailing name up in
    that sub-block only. *)
Theorem findIdentFromPath_dotted db scopeBlock expression p fuel :
  represents db expression p →
  depth p ≤ fuel →
  findIdentFromPath fuel db scopeBlock expression = resolvePath db scopeBlock p
  ∧ (∀ name,
       p = PathIdent name ∨ p = PathAs (PathIdent name) →
       findIdentFromPath fuel db scopeBlock expression
       = deBlockFindIdent db scopeBlock name)
  ∧ (∀ subPath name,
       p = PathDot subPath name ∨ p = PathAs (PathDot subPath name) →
       (resolvePath db scopeBlock subPath = Ok None →
        findIdentFromPath fuel db scopeBlock expression = Ok None)
       ∧ (∀ ident,
            resolvePath db scopeBlock subPath = Ok (Some ident) →
            deIdentGetSubBlock db ident = Ok None →
            findIdentFromPath fuel db scopeBlock expression = Ok None)
       ∧ (∀ ident r,
            resolvePath db scopeBlock subPath = Ok (Some ident) →
            idents db !! ident = Some r → identType r = DE_IDENT_VARIABLE →
            deIdentGetSubBlock db ident = Ok None
            ∧ findIdentFromPath fuel db scopeBlock expression = Ok None)
       ∧ (∀ ident subBlock,
            resolvePath db scopeBlock subPath = Ok (Some ident) →
            deIdentGetSubBlock db ident = Ok (Some subBlock) →
            findIdentFromPath fuel db scopeBlock expression
            = deBlockFindIdent db subBlock name)).
Proof.
  intros Hrep Hfuel.
  rewrite (findIdentFromPath_resolvePath _ _ _ _ Hrep _ Hfuel).
  split; [done|]. split.
  - by intros name [-> | ->].
  - intros subPath name Hp.
    assert (resolvePath db scopeBlock p
            = resolvePath db scopeBlock (PathDot subPath name)) as ->
      by (by destruct Hp as [-> | ->]).
    rewrite resolvePath_dot. split; [by intros ->|]. split.
    { intros ident -> Hnone. by rewrite bind_Ok_l, Hnone. }
    split.
    + intros ident r -> Hr Htype.
      assert (deIdentGetSubBlock db ident = Ok None) as Hnone.
      { unfold deIdentGetSubBlock, deIdentGetType. rewrite (deref_lookup _ _ _ Hr). simpl.
        by rewrite Htype. }
      split; [done|]. by rewrite bind_Ok_l, Hnone.
    + intros ident subBlock -> Hsub. by rewrite bind_Ok_l, Hsub.
Qed.

Lemma represents_ident db expression r name :
  expressions db !! expression = Some r → exprType r = DE_EXPR_IDENT →
  exprName r = name → represents db expression (PathIdent name).
Proof. intros Hr Htype <-. by constructor. Qed.

Lemma represents_dot db expression r subPathExpression s identExpression i p name :
  expressions db !! expression = Some r → exprType r = DE_EXPR_DOT →
  exprFirstExpression r = Some subPathExpression →
  expressions db !! subPathExpression = Some s →
  exprNextExpression s = Some identExpression →
  expressions db !! identExpression = Some i → exprType i = DE_EXPR_IDENT →
  exprName i = name → represents db subPathExpression p →
  represents db expression (PathDot p name).
Proof. intros Hr Htype Hfirst Hs Hnext Hi Hitype <- Hsub. by econstructor. Qed.

Lemma sample_represents_aliased :
  represents sampleDb 6 (PathAs (PathDot (PathDot (PathIdent symM) symF) symX)).
Proof.
  eapply representsAs; [reflexivity..|].
  eapply (represents_dot sampleDb 5 _ 3 _ 4); [reflexivity..|].
  eapply (represents_dot sampleDb 3 _ 1 _ 2); [reflexivity..|].
  by eapply (represents_ident sampleDb 1).
Qed.

Lemma sample_represents_variable :
  represents sampleDb 10 (PathDot (PathIdent symX) symY).
Proof.
  eapply (represents_dot sampleDb 10 _ 8 _ 9); [reflexivity..|].
  by eapply (represents_ident sampleDb 8).
Qed.

Lemma findIdentFromPath_dotted_witness :
  findIdentFromPath 3 sampleDb blockG 6 = deBlockFindIdent sampleDb blockL symX
  ∧ findIdentFromPath 2 sampleDb blockG 10 = Ok None.
Proof.
  split.
  - destruct (findIdentFromPath_dotted sampleDb blockG 6 _ 3 sample_represents_aliased)
      as (_ & _ & Hdot); [simpl; lia|].
    destruct (Hdot _ _ (or_intror eq_refl)) as (_ & _ & _ & Hsub).
    by apply (Hsub identF).
  - destruct (findIdentFromPath_dotted sampleDb blockG 10 _ 2 sample_represents_variable)
      as (_ & _ & Hdot); [simpl; lia|].
    destruct (Hdot _ _ (or_introl eq_refl)) as (_ & _ & Hvar & _).
    by apply (Hvar identGX _ eq_refl eq_refl).
Defined.

(** A database with other filepath records resolves paths the same way:
    path resolution never reads the filepath, hence never the module, of a
    scope. *)
Lemma findIdentFromPath_setFilepaths fuel db fs scopeBlock expression :
  findIdentFromPath fuel (setFilepaths db fs) scopeBlock expression
  = findIdentFromPath fuel db scopeBlock expression.
Proof.
  revert expression. induction fuel as [|fuel IH]; intros expression; [done|].
  simpl. unfold deExpressionGetType, deExpressionGetFirstExpression,
    deExpressionGetNextExpression, deExpressionGetName. simpl.
  destruct (deref (expressions db) expression) as [r| | |]; try done. simpl.
  destruct (decide (exprType r = DE_EXPR_AS)); simpl.
  - destruct (nonNull (exprFirstExpression r)) as [inner| | |]; try done. simpl.
    destruct (deref (expressions db) inner) as [r'| | |]; try done. simpl.
    destruct (decide (exprType r' = DE_EXPR_IDENT)); [done|].
    destruct (utAssert _); try done. simpl.
    destruct (nonNull (exprFirstExpression r')) as [sub| | |]; try done. simpl.
    destruct (deref (expressions db) sub) as [s| | |]; try done. simpl.
    destruct (nonNull (exprNextExpression s)) as [i| | |]; try done. simpl.
    destruct (deref (expressions db) i) as [ir| | |]; try done. simpl.
    destruct (utAssert _); try done. simpl. by rewrite IH.
  - destruct (deref (expressions db) expression) as [r'| | |]; try done. simpl.
    destruct (decide (exprType r' = DE_EXPR_IDENT)); [done|].
    destruct (utAssert _); try done. simpl.
    destruct (nonNull (exprFirstExpression r')) as [sub| | |]; try done. simpl.
    destruct (deref (expressions db) sub) as [s| | |]; try done. simpl.
    destruct (nonNull (exprNextExpression s)) as [i| | |]; try done. simpl.
    destruct (deref (expressions db) i) as [ir| | |]; try done. simpl.
    destruct (utAssert _); try done. simpl. by rewrite IH.
Qed.

(** C5: [deFindIdentFromPath] returns what plain path resolution finds in
    the given scope block, if it finds an identifier, and otherwise what
    plain path resolution finds with the global root scope in place of the
    scope block.  The module of the scope is never consulted: the result is
    the same whatever the filepath records are.  In particular a bare name
    that the root scope does not bind is not found from the root scope, even
    when a module binds it. *)
Theorem deFindIdentFromPath_global_fallback db scopeBlock expression fuel :
  (∀ ident,
     findIdentFromPath fuel db scopeBlock expression = Ok (Some ident) →
     deFindIdentFromPath fuel db scopeBlock expression = Ok (Some ident))
  ∧ (∀ rootBlock,
       deRootGetBlock db = Some rootBlock →
       findIdentFromPath fuel db scopeBlock expression = Ok None →
       deFindIdentFromPath fuel db scopeBlock expression
       = findIdentFromPath fuel db rootBlock expression)
  ∧ (∀ p,
       represents db expression p → depth p ≤ fuel →
       deFindIdentFromPath fuel db scopeBlock expression
       = resolvePathWithFallback db scopeBlock p)
  ∧ (∀ fs,
       deFindIdentFromPath fuel (setFilepaths db fs) scopeBlock expression
       = deFindIdentFromPath fuel db scopeBlock expression)
  ∧ (∀ name,
       represents db expression (PathIdent name) → 1 ≤ fuel →
       deRootGetBlock db = Some scopeBlock →
       deBlockFindIdent db scopeBlock name = Ok None →
       deFindIdentFromPath fuel db scopeBlock expression = Ok None).
Proof.
  split; [|split; [|split; [|split]]].
  - intros ident Hfound. unfold deFindIdentFromPath. by rewrite Hfound.
  - intros rootBlock Hroot Hnone. unfold deFindIdentFromPath.
    rewrite Hnone. simpl. by rewrite Hroot.
  - intros p Hrep Hfuel. unfold deFindIdentFromPath, resolvePathWithFallback.
    rewrite (findIdentFromPath_resolvePath _ _ _ _ Hrep _ Hfuel).
    destruct (resolvePath db scopeBlock p) as [[ident|]| | |]; try done. simpl.
    destruct (nonNull (deRootGetBlock db)) as [rootBlock| | |]; try done. simpl.
    by rewrite (findIdentFromPath_resolvePath _ _ _ _ Hrep _ Hfuel).
  - intros fs. unfold deFindIdentFromPath. rewrite findIdentFromPath_setFilepaths.
    destruct (findIdentFromPath fuel db scopeBlock expression) as [[ident|]| | |];
      try done. unfold deRootGetBlock. simpl.
    destruct (nonNull (rootBlock db)) as [root| | |]; try done. simpl.
    by rewrite findIdentFromPath_setFilepaths.
  - intros name Hrep Hfuel Hroot Hnone. unfold deFindIdentFromPath.
    rewrite (findIdentFromPath_resolvePath _ _ _ _ Hrep _ Hfuel). simpl.
    rewrite Hnone. simpl. rewrite Hroot. simpl.
    by rewrite (findIdentFromPath_resolvePath _ _ _ _ Hrep _ Hfuel).
Qed.

Lemma deFindIdentFromPath_global_fallback_witness :
  deFindIdent sampleDb blockL symF = Ok (Some identF)
  ∧ deFindIdentFromPath 1 sampleDb blockL 7 = findIdentFromPath 1 sampleDb blockG 7
  ∧ deFindIdentFromPath 1 sampleDb blockG 7 = Ok None
  ∧ deFindIdentFromPath 3 sampleDb blockL 6 = Ok (Some identLX).
Proof.
  split; [reflexivity|]. split; [|split].
  - destruct (deFindIdentFromPath_global_fallback sampleDb blockL 7 1)
      as (_ & Hfallback & _).
    by apply Hfallback.
  - destruct (deFindIdentFromPath_global_fallback sampleDb blockG 7 1)
      as (_ & _ & _ & _ & Hbare).
    apply (Hbare symF); [by eapply (represents_ident sampleDb 7)|lia|reflexivity..].
  - destruct (deFindIdentFromPath_global_fallback sampleDb blockL 6 3)
      as (_ & Hfallback & _).
    by rewrite (Hfallback blockG).
Defined.

(** ** The owning path: [deCreateIdentPathExpression] *)

Lemma setExpressions_id db : setExpressions db (expressions db) = db.
Proof. by destruct db. Qed.

(** Nothing that [deCreateIdentPathExpression] reads of the database, apart
    from what it builds, depends on the expression array. *)
Lemma deIdentGetLine_setExpressions db es ident :
  deIdentGetLine (setExpressions db es) ident = deIdentGetLine db ident.
Proof. done. Qed.

Lemma deFindIdentOwningIdent_setExpressions db es ident :
  deFindIdentOwningIdent (setExpressions db es) ident = deFindIdentOwningIdent db ident.
Proof. done. Qed.

Lemma resolvePath_setExpressions db es scopeBlock p :
  resolvePath (setExpressions db es) scopeBlock p = resolvePath db scopeBlock p.
Proof.
  induction p as [name|subPath IH name|aliased IH]; [done| |].
  - by rewrite !resolvePath_dot, IH.
  - destruct aliased as [name|subPath name|inner]; [done| |done].
    change (resolvePath (setExpressions db es) scopeBlock (PathDot subPath name)
            = resolvePath db scopeBlock (PathDot subPath name)).
    apply IH.
Qed.

Lemma laidOut_represents db expression p :
  laidOut (expressions db) expression p → represents db expression p.
Proof. induction 1; by econstructor. Qed.

(** A laid-out path expression is still one after the array has grown, and
    after the link of its root to the next expression is changed. *)
Lemma laidOut_agree es es' expression p :
  laidOut es expression p →
  (∀ k, k < expression → es' !! k = es !! k) →
  (∃ r r', es !! expression = Some r ∧ es' !! expression = Some r'
           ∧ exprType r' = exprType r ∧ exprName r' = exprName r
           ∧ exprFirstExpression r' = exprFirstExpression r) →
  laidOut es' expression p.
Proof.
  intros Hlaid. revert es'.
  induction Hlaid as [e r Hr Htype
                     |e r sub s identExpr i p Hr Htype Hfirst Hsub Hs Hnext Hident Hi Hitype
                        Hlaid IH];
    intros es' Hbelow (r0 & r' & Hr0 & Hr' & Htype' & Hname' & Hfirst').
  - assert (r0 = r) as -> by congruence. rewrite <- Hname'.
    constructor; [done|congruence].
  - assert (r0 = r) as -> by congruence.
    eapply (laidOutDot es' e r' sub s identExpr i); try done; try congruence.
    + by rewrite Hbelow.
    + rewrite Hbelow; [done|lia].
    + apply IH.
      * intros k Hk. apply Hbelow. lia.
      * exists s, s. by rewrite Hbelow.
Qed.

Lemma qualified_resolve db ident p rootBlock :
  qualified db ident p → deRootGetBlock db = Some rootBlock →
  resolvePath db rootBlock p = Ok (Some ident).
Proof.
  intros Hq Hroot.
  induction Hq as [ident r root line Hr Hblock Hroot' Hfind Hline Howner
                  |ident r block line owner p Hr Hblock Hfind Hline Howner Hsub Hq IH].
  - simpl. congruence.
  - rewrite resolvePath_dot, IH, bind_Ok_l, Hsub. by rewrite bind_Ok_l.
Qed.

Lemma qualified_root db ident p :
  qualified db ident p → ∃ rootBlock, deRootGetBlock db = Some rootBlock.
Proof. induction 1; eauto. Qed.

(** [deCreateIdentPathExpression] on a qualified identifier returns, lays
    the path of the identifier out in new records of the expression array,
    and leaves the records that were there as they are. *)
Lemma deCreateIdentPathExpression_laidOut db ident p :
  qualified db ident p →
  ∀ es fuel, depth p ≤ fuel →
    ∃ expression es',
      deCreateIdentPathExpression fuel ident (setExpressions db es)
      = Ok (expression, setExpressions db es')
      ∧ length es ≤ expression ∧ expression < length es'
      ∧ (∀ k, k < length es → es' !! k = es !! k)
      ∧ laidOut es' expression p.
Proof.
  induction 1 as [ident r root line Hr Hblock Hroot Hfind Hline Howner
                 |ident r block line owner p Hr Hblock Hfind Hline Howner Hsub Hq IH];
    intros es fuel Hfuel; (destruct fuel as [|fuel]; [simpl in Hfuel; lia|]).
  - simpl. rewrite deIdentGetLine_setExpressions, Hline, bind_Ok_l.
    unfold deIdentGetSym. simpl. rewrite (deref_lookup _ _ _ Hr). simpl.
    rewrite !deFindIdentOwningIdent_setExpressions, Howner. simpl.
    exists (length es), (es ++ [mkExpression DE_EXPR_IDENT (identSym r) line None None]).
    split; [done|]. split; [done|]. split; [rewrite length_app; simpl; lia|].
    split; [intros k Hk; by rewrite lookup_app_l|].
    by eapply (laidOutIdent _ _ (mkExpression DE_EXPR_IDENT (identSym r) line None None));
      [apply lookup_alloc|].
  - simpl in Hfuel. simpl. rewrite deIdentGetLine_setExpressions, Hline, bind_Ok_l.
    unfold deIdentGetSym. simpl. rewrite (deref_lookup _ _ _ Hr). simpl.
    rewrite !deFindIdentOwningIdent_setExpressions, Howner. simpl.
    set (identNode := mkExpression DE_EXPR_IDENT (identSym r) line None None).
    destruct (IH (es ++ [identNode]) fuel)
      as (prefixExpr & es2 & HprefixExpr & Hge & Hlt & Hkeep & Hlaid);
      [lia|].
    rewrite length_app in Hge. simpl in Hge.
    change (setExpressions (setExpressions db es) (es ++ [identNode]))
      with (setExpressions db (es ++ [identNode])).
    rewrite HprefixExpr. simpl.
    destruct (lookup_lt_is_Some_2 es2 prefixExpr Hlt) as [s Hs].
    assert (es2 !! length es = Some identNode) as Hnode.
    { rewrite Hkeep by (rewrite length_app; simpl; lia). apply lookup_alloc. }
    unfold deBinaryExpressionCreate, deref. simpl. rewrite Hs. simpl. rewrite Hnode. simpl.
    set (dotNode := mkExpression DE_EXPR_DOT utSymNull line (Some prefixExpr) None).
    exists (length es2), (<[prefixExpr := exprWithNext s (Some (length es))]> es2 ++ [dotNode]).
    split; [done|]. split; [lia|].
    split; [rewrite length_app, length_insert; simpl; lia|]. split.
    + intros k Hk. rewrite lookup_app_l by (rewrite length_insert; lia).
      rewrite list_lookup_insert_ne by lia.
      rewrite Hkeep by (rewrite length_app; simpl; lia). by apply lookup_app_l.
    + eapply (laidOutDot _ (length es2) dotNode prefixExpr (exprWithNext s (Some (length es)))
                (length es) identNode); try done.
      * rewrite <- (length_insert es2 prefixExpr (exprWithNext s (Some (length es)))).
        apply lookup_alloc.
      * rewrite lookup_app_l by (rewrite length_insert; lia).
        by apply list_lookup_insert_eq.
      * lia.
      * rewrite lookup_app_l by (rewrite length_insert; lia).
        by rewrite list_lookup_insert_ne by lia.
      * apply (laidOut_agree es2); [done| |].
        -- intros k Hk. rewrite lookup_app_l by (rewrite length_insert; lia).
           by rewrite list_lookup_insert_ne by lia.
        -- exists s, (exprWithNext s (Some (length es))). split; [done|]. split; [|done].
           rewrite lookup_app_l by (rewrite length_insert; lia).
           by apply list_lookup_insert_eq.
Qed.

(** C8, as the code has it: for an identifier with its fully-qualified path
    (it is bound under its name in its scope, its outermost scope is the
    global root, and every scope on the way is the sub-block of the owning
    identifier found for it), [deCreateIdentPathExpression] returns an
    expression with the shape of that path, changing nothing of the database
    but the expression array, and [deFindIdentFromPath] from the global root
    resolves that expression to the same identifier. *)
Theorem deCreateIdentPathExpression_roundtrip db ident p fuel :
  qualified db ident p →
  depth p ≤ fuel →
  ∃ expression db' rootBlock,
    deCreateIdentPathExpression fuel ident db = Ok (expression, db')
    ∧ db' = setExpressions db (expressions db')
    ∧ represents db' expression p
    ∧ deRootGetBlock db' = Some rootBlock
    ∧ deFindIdentFromPath fuel db' rootBlock expression = Ok (Some ident).
Proof.
  intros Hq Hfuel.
  destruct (qualified_root _ _ _ Hq) as [rootBlock Hroot].
  destruct (deCreateIdentPathExpression_laidOut _ _ _ Hq (expressions db) fuel Hfuel)
    as (expression & es' & Hcreate & _ & _ & _ & Hlaid).
  rewrite setExpressions_id in Hcreate.
  exists expression, (setExpressions db es'), rootBlock.
  split; [done|]. split; [done|].
  assert (represents (setExpressions db es') expression p) as Hrep
    by (by apply laidOut_represents).
  split; [done|]. split; [done|].
  unfold deFindIdentFromPath.
  rewrite (findIdentFromPath_resolvePath _ _ _ _ Hrep _ Hfuel).
  by rewrite resolvePath_setExpressions, (qualified_resolve _ _ _ _ Hq Hroot).
Qed.

Lemma qualified_top db ident r rootBlock line name :
  idents db !! ident = Some r → identBlock r = Some rootBlock →
  deRootGetBlock db = Some rootBlock →
  deBlockFindIdent db rootBlock (identSym r) = Ok (Some ident) →
  deIdentGetLine db ident = Ok line →
  deFindIdentOwningIdent db ident = Ok None →
  identSym r = name → qualified db ident (PathIdent name).
Proof. intros Hr Hblock Hroot Hfind Hline Howner <-. by econstructor. Qed.

Lemma qualified_in db ident r block line owningIdent p name :
  idents db !! ident = Some r → identBlock r = Some block →
  deBlockFindIdent db block (identSym r) = Ok (Some ident) →
  deIdentGetLine db ident = Ok line →
  deFindIdentOwningIdent db ident = Ok (Some owningIdent) →
  deIdentGetSubBlock db owningIdent = Ok (Some block) →
  identSym r = name → qualified db owningIdent p →
  qualified db ident (PathDot p name).
Proof. intros Hr Hblock Hfind Hline Howner Hsub <- Hq. by econstructor. Qed.

Lemma sample_qualified :
  qualified sampleDb identLX (PathDot (PathDot (PathIdent symM) symF) symX).
Proof.
  eapply (qualified_in sampleDb identLX _ blockL _ identF); [reflexivity..|].
  eapply (qualified_in sampleDb identF _ blockM _ identM); [reflexivity..|].
  eapply (qualified_top sampleDb identM _ blockG); reflexivity.
Qed.

Lemma deCreateIdentPathExpression_roundtrip_witness :
  ∃ expression db',
    deCreateIdentPathExpression 3 identLX sampleDb = Ok (expression, db')
    ∧ represents db' expression (PathDot (PathDot (PathIdent symM) symF) symX)
    ∧ deFindIdentFromPath 3 db' blockG expression = Ok (Some identLX).
Proof.
  destruct (deCreateIdentPathExpression_roundtrip sampleDb identLX _ 3 sample_qualified)
    as (expression & db' & rootBlock & Hcreate & Hdb' & Hrep & Hroot & Hfind);
    [simpl; lia|].
  exists expression, db'. split; [done|]. split; [done|].
  rewrite Hdb' in Hroot. injection Hroot as <-. done.
Defined.

Lemma ownersFindable_in db ident r block b line owningIdent p name :
  idents db !! ident = Some r → identBlock r = Some block →
  blocks db !! block = Some b →
  blockType b = DE_BLOCK_FUNCTION ∨ blockType b = DE_BLOCK_CLASS →
  deBlockFindIdent db block (identSym r) = Ok (Some ident) →
  deIdentGetLine db ident = Ok line →
  deFindIdentOwningIdent db ident = Ok (Some owningIdent) →
  identSym r = name → ownersFindable db owningIdent p →
  ownersFindable db ident (PathDot p name).
Proof. intros Hr Hblock Hb Htype Hfind Hline Howner <- Hq. by econstructor. Qed.

Lemma ownersFindable_top db ident r rootBlock line name :
  idents db !! ident = Some r → identBlock r = Some rootBlock →
  deRootGetBlock db = Some rootBlock →
  deBlockFindIdent db rootBlock (identSym r) = Ok (Some ident) →
  deIdentGetLine db ident = Ok line →
  deFindIdentOwningIdent db ident = Ok None →
  identSym r = name → ownersFindable db ident (PathIdent name).
Proof. intros Hr Hblock Hroot Hfind Hline Howner <-. by econstructor. Qed.

(** The identifiers with a fully-qualified path are among those the claim
    speaks of. *)
Lemma qualified_ownersFindable db ident p :
  qualified db ident p → ownersFindable db ident p.
Proof.
  induction 1 as [ident r root line Hr Hblock Hroot Hfind Hline Howner
                 |ident r block line owner p Hr Hblock Hfind Hline Howner Hsub Hq IH].
  - by econstructor.
  - pose proof Howner as Htype. unfold deFindIdentOwningIdent, deIdentGetBlock in Htype.
    rewrite (deref_lookup _ _ _ Hr) in Htype. simpl in Htype.
    rewrite Hblock in Htype. simpl in Htype.
    unfold deBlockGetOwningBlock, deBlockGetType, deref in Htype.
    destruct (blocks db !! block) as [b|] eqn:Hb; [|done]. simpl in Htype.
    destruct (blockOwningBlock b) as [owningBlock|]; [|done].
    eapply (ownersFindableIn db ident r block b); try done.
    destruct (blockType b); [by left|done|by right].
Qed.

Lemma sample_ownersFindable :
  ownersFindable sampleDb identShowCopy (PathDot (PathIdent symPoint) symShow).
Proof.
  eapply (ownersFindable_in sampleDb identShowCopy _ blockClass _ _ identPoint);
    [reflexivity|reflexivity|reflexivity|by right
    |reflexivity|reflexivity|reflexivity|reflexivity|].
  eapply (ownersFindable_top sampleDb identPoint _ blockG); reflexivity.
Qed.

(** C8, as the claim states it, fails: the copy of [show] in the class block
    of the sample database has enclosing scopes whose owning identifiers are
    all found, its path is [Point.show], and that path resolves from the
    global root to the [show] of the template, in the sub-block of the
    constructor function, not to the copy. *)
Lemma roundtrip_class_block :
  ¬ (∀ db ident p fuel expression db' rootBlock,
       ownersFindable db ident p →
       depth p ≤ fuel →
       deRootGetBlock db = Some rootBlock →
       deCreateIdentPathExpression fuel ident db = Ok (expression, db') →
       deFindIdentFromPath fuel db' rootBlock expression = Ok (Some ident)).
Proof.
  intros Hclaim.
  assert (2 ≤ 3) as Hfuel by lia.
  pose proof (Hclaim sampleDb identShowCopy _ 3 _ _ blockG sample_ownersFindable
                Hfuel eq_refl eq_refl) as Hfound.
  vm_compute in Hfound. discriminate Hfound.
Qed.

(** ** Identifiers in no scope *)

(** Whatever an unqualified or qualified lookup returns is an entry of a
    table. *)
Lemma deFindIdent_found db scopeBlock name ident :
  deFindIdent db scopeBlock name = Ok (Some ident) →
  ∃ block, deBlockFindIdent db block name = Ok (Some ident).
Proof.
  unfold deFindIdent. intros H.
  apply bind_Ok in H as ([found|] & Hscope & H); [injection H as ->; eauto|].
  apply bind_Ok in H as ([filepath|] & Hfile & H); [|done].
  apply bind_Ok in H as (moduleBlock & Hmodule & H).
  apply bind_Ok in H as ([found|] & Hmod & H); [injection H as ->; eauto|].
  apply bind_Ok in H as (rootBlock & Hroot & H).
  apply bind_Ok in H as ([found|] & Hglobal & H); [injection H as ->; eauto|done].
Qed.

Lemma findIdentFromPath_found fuel db scopeBlock expression ident :
  findIdentFromPath fuel db scopeBlock expression = Ok (Some ident) →
  ∃ block name, deBlockFindIdent db block name = Ok (Some ident).
Proof.
  destruct fuel as [|fuel]; [done|]. simpl. intros H.
  apply bind_Ok in H as (type & _ & H).
  apply bind_Ok in H as (pathExpression & _ & H).
  apply bind_Ok in H as (type' & _ & H).
  destruct (decide (type' = DE_EXPR_IDENT)).
  - apply bind_Ok in H as (name & _ & H). eauto.
  - apply bind_Ok in H as (_ & _ & H).
    apply bind_Ok in H as (subPathExpression & _ & H).
    apply bind_Ok in H as (identExpression & _ & H).
    apply bind_Ok in H as (identType & _ & H).
    apply bind_Ok in H as (_ & _ & H).
    apply bind_Ok in H as ([found|] & _ & H); [|done].
    apply bind_Ok in H as ([subBlock|] & _ & H); [|done].
    apply bind_Ok in H as (name & _ & H). eauto.
Qed.

Lemma deFindIdentFromPath_found fuel db scopeBlock expression ident :
  deFindIdentFromPath fuel db scopeBlock expression = Ok (Some ident) →
  ∃ block name, deBlockFindIdent db block name = Ok (Some ident).
Proof.
  unfold deFindIdentFromPath. intros H.
  apply bind_Ok in H as ([found|] & Hscope & H).
  - injection H as ->. by eapply findIdentFromPath_found.
  - apply bind_Ok in H as (rootBlock & _ & H). by eapply findIdentFromPath_found.
Qed.

Lemma hiddenIdent_not_found db ident block name :
  hiddenIdent db ident → deBlockFindIdent db block name ≠ Ok (Some ident).
Proof.
  intros (_ & _ & Hout) (b & r & Hb & Hin & _)%deBlockFindIdent_found.
  by apply (Hout _ _ Hb).
Qed.

Lemma hiddenIdent_create db db' (scope : option deBlock) type name line newIdent ident :
  hiddenIdent db ident →
  deIdentCreate scope type name line db = Ok (newIdent, db') →
  hiddenIdent db' ident ∧ newIdent ≠ ident.
Proof.
  intros (Hv & (r & Hr & Hblock) & Hout) Hcreate.
  assert (ident < length (idents db)) as Hlt by eauto using lookup_lt_Some.
  destruct scope as [block|].
  - pose proof (create_tablesValid _ _ _ _ _ _ _ Hcreate Hv) as Hv'.
    destruct (deIdentCreate_scope_inv _ _ _ _ _ _ _ Hcreate) as (b & Hb & Hfind & -> & ->).
    split; [|lia]. split; [done|]. split.
    + exists r. simpl. split; [by apply lookup_app_l_Some|done].
    + intros other o Ho. simpl in Ho.
      apply list_lookup_insert_Some in Ho as [(-> & <- & _)|[_ Ho]]; [|by eapply Hout].
      simpl. intros [Hin|Hin%list_elem_of_singleton]%elem_of_app; [|lia].
      by apply (Hout _ _ Hb).
  - rewrite deIdentCreate_operator in Hcreate. injection Hcreate as <- <-.
    split; [|lia]. split; [by apply create_operator_tablesValid|]. split.
    + exists r. simpl. split; [by apply lookup_app_l_Some|done].
    + intros other o Ho. by eapply Hout.
Qed.

Lemma hiddenIdent_functionAppend db db' function newIdent ident :
  hiddenIdent db ident → newIdent ≠ ident →
  deFunctionAppendIdent db function newIdent = Ok db' →
  hiddenIdent db' ident.
Proof.
  intros (Hv & (r & Hr & Hblock) & Hout) Hne Happend.
  unfold deFunctionAppendIdent in Happend. inv_Ok. subst db'.
  split; [|split].
  - intros block b j Hb Hj. simpl in *. rewrite length_insert. by eapply Hv.
  - exists r. simpl. by rewrite list_lookup_insert_ne.
  - intros block b Hb. by eapply Hout.
Qed.

Lemma hiddenIdent_variableAppend db db' variable newIdent ident :
  hiddenIdent db ident → newIdent ≠ ident →
  deVariableAppendIdent db variable newIdent = Ok db' →
  hiddenIdent db' ident.
Proof.
  intros (Hv & (r & Hr & Hblock) & Hout) Hne Happend.
  unfold deVariableAppendIdent in Happend. inv_Ok. subst db'.
  split; [|split].
  - intros block b j Hb Hj. simpl in *. rewrite length_insert. by eapply Hv.
  - exists r. simpl. by rewrite list_lookup_insert_ne.
  - intros block b Hb. by eapply Hout.
Qed.

Lemma hiddenIdent_rename db db' renamed newName ident :
  hiddenIdent db ident →
  deRenameIdent renamed newName db = Ok db' →
  hiddenIdent db' ident.
Proof.
  intros (Hv & (r & Hr & Hblock) & Hout) Hrename.
  destruct (deRenameIdent_inv _ _ _ _ Hrename) as (r1 & scopeBlock & b & Hr1 & Hscope & Hb).
  assert (renamed ≠ ident) as Hne by (intros ->; congruence).
  pose proof (rename_idents _ _ _ _ _ _ _ Hr1 Hscope Hb Hrename) as Hids.
  pose proof (rename_blocks _ _ _ _ _ _ _ Hr1 Hscope Hb Hrename) as Hbs.
  split; [|split].
  - intros block o j Ho Hj. rewrite Hids, length_insert. rewrite Hbs in Ho.
    apply list_lookup_insert_Some in Ho as [(-> & <- & _)|[_ Ho]]; [|by eapply Hv].
    simpl in Hj. apply elem_of_app in Hj as [[_ Hj]%list_elem_of_filter|Hj%list_elem_of_singleton].
    + by eapply Hv.
    + subst j. eauto using lookup_lt_Some.
  - exists r. rewrite Hids. by rewrite list_lookup_insert_ne.
  - intros block o Ho. rewrite Hbs in Ho.
    apply list_lookup_insert_Some in Ho as [(-> & <- & _)|[_ Ho]]; [|by eapply Hout].
    simpl. intros [[_ Hin]%list_elem_of_filter|Hin%list_elem_of_singleton]%elem_of_app.
    + by apply (Hout _ _ Hb).
    + by apply Hne.
Qed.

(** [deCreateIdentPathExpression] changes nothing but the expression array. *)
Lemma deCreateIdentPathExpression_frame fuel ident db db' expression :
  deCreateIdentPathExpression fuel ident db = Ok (expression, db') →
  db' = setExpressions db (expressions db').
Proof.
  revert ident db db' expression.
  induction fuel as [|fuel IH]; intros ident db db' expression Hcreate; [done|].
  simpl in Hcreate.
  apply bind_Ok in Hcreate as (line & _ & Hcreate).
  apply bind_Ok in Hcreate as (sym & _ & Hcreate).
  apply bind_Ok in Hcreate as ([owner|] & _ & Hcreate).
  - apply bind_Ok in Hcreate as ([prefixExpr db1] & Hrec & Hcreate).
    apply IH in Hrec. unfold deBinaryExpressionCreate in Hcreate. inv_Ok.
    subst db'. rewrite Hrec. done.
  - injection Hcreate as <- <-. done.
Qed.

Lemma hiddenIdent_setExpressions db es ident :
  hiddenIdent db ident → hiddenIdent (setExpressions db es) ident.
Proof. done. Qed.

Lemma hiddenIdent_runCall call db db' ident :
  hiddenIdent db ident → runCall call db = Ok db' → hiddenIdent db' ident.
Proof.
  intros Hhidden Hrun.
  destruct call as [scope type name line|scope function name|copied destBlock
                   |renamed newName|fuel pathIdent]; simpl in Hrun.
  - apply bind_Ok in Hrun as ([newIdent db1] & Hcreate & [= <-]).
    by destruct (hiddenIdent_create _ _ _ _ _ _ _ _ Hhidden Hcreate).
  - apply bind_Ok in Hrun as ([newIdent db1] & Hcreate & [= <-]).
    unfold deFunctionIdentCreate in Hcreate.
    apply bind_Ok in Hcreate as (line & _ & Hcreate).
    apply bind_Ok in Hcreate as ([newIdent' db2] & Hcreate & Happend).
    apply bind_Ok in Happend as (db3 & Happend & [= <- <-]).
    destruct (hiddenIdent_create _ _ _ _ _ _ _ _ Hhidden Hcreate) as [Hhidden2 Hne].
    by eapply hiddenIdent_functionAppend.
  - apply bind_Ok in Hrun as ([newIdent db1] & Hcopy & [= <-]).
    unfold deCopyIdent in Hcopy.
    apply bind_Ok in Hcopy as (type & _ & Hcopy).
    apply bind_Ok in Hcopy as (sym & _ & Hcopy).
    apply bind_Ok in Hcopy as ([newIdent' db2] & Hcreate & Happend).
    apply bind_Ok in Happend as (db3 & Happend & [= <- <-]).
    destruct (hiddenIdent_create _ _ _ _ _ _ _ _ Hhidden Hcreate) as [Hhidden2 Hne].
    destruct type.
    + apply bind_Ok in Happend as (function & _ & Happend).
      by eapply hiddenIdent_functionAppend.
    + apply bind_Ok in Happend as (variable & _ & Happend).
      by eapply hiddenIdent_variableAppend.
  - by eapply hiddenIdent_rename.
  - apply bind_Ok in Hrun as ([expression db1] & Hcreate & [= <-]).
    rewrite (deCreateIdentPathExpression_frame _ _ _ _ _ Hcreate).
    by apply hiddenIdent_setExpressions.
Qed.

Lemma hiddenIdent_runCalls calls db db' ident :
  hiddenIdent db ident → runCalls calls db = Ok db' → hiddenIdent db' ident.
Proof.
  revert db. induction calls as [|call rest IH]; intros db Hhidden Hrun; simpl in Hrun.
  - by injection Hrun as <-.
  - apply bind_Ok in Hrun as (db1 & Hcall & Hrun).
    eapply IH; [|done]. by eapply hiddenIdent_runCall.
Qed.

Lemma tablesValid_Forall db :
  Forall (λ b, Forall (λ ident, ident < length (idents db)) (blockIdents b)) (blocks db) →
  tablesValid db.
Proof.
  intros Hall block b ident Hb Hin.
  pose proof (Forall_lookup_1 _ _ _ _ Hall Hb) as Htable. simpl in Htable.
  rewrite Forall_forall in Htable. by apply Htable.
Qed.

Lemma sampleDb_tablesValid : tablesValid sampleDb.
Proof. apply tablesValid_Forall. refine (bool_decide_unpack _ _). by vm_compute. Qed.

(** C9: with the no-scope sentinel [deIdentCreate] returns a new identifier
    whatever the tables bind (there is no duplicate-name check), and leaves
    every table as it is.  The identifier is an entry of no table, and stays
    so through every later call of ident.c, so that neither [deFindIdent] nor
    path resolution returns it, from any scope, for any name or path. *)
Theorem deIdentCreate_operator_hidden db type name line :
  ∃ ident db',
    deIdentCreate deBlockNull type name line db = Ok (ident, db')
    ∧ idents db !! ident = None
    ∧ idents db' !! ident = Some (mkIdent type name None None None [])
    ∧ blocks db' = blocks db
    ∧ (tablesValid db →
       ∀ calls db'',
         runCalls calls db' = Ok db'' →
         (∀ block b, blocks db'' !! block = Some b → ident ∉ blockIdents b)
         ∧ (∀ scopeBlock lookedUp,
              deBlockFindIdent db'' scopeBlock lookedUp ≠ Ok (Some ident)
              ∧ deFindIdent db'' scopeBlock lookedUp ≠ Ok (Some ident))
         ∧ (∀ fuel scopeBlock expression,
              findIdentFromPath fuel db'' scopeBlock expression ≠ Ok (Some ident)
              ∧ deFindIdentFromPath fuel db'' scopeBlock expression ≠ Ok (Some ident))).
Proof.
  eexists _, _. split; [apply deIdentCreate_operator|].
  split; [by apply lookup_ge_None_2|]. split; [apply lookup_alloc|]. split; [done|].
  intros Hv calls db'' Hrun.
  assert (hiddenIdent
            (setIdents db (idents db ++ [mkIdent type name None None None []]))
            (length (idents db))) as Hhidden.
  { split; [by apply create_operator_tablesValid|]. split.
    - eexists. split; [apply lookup_alloc|done].
    - intros block b Hb Hin. simpl in Hb. specialize (Hv _ _ _ Hb Hin). lia. }
  pose proof (hiddenIdent_runCalls _ _ _ _ Hhidden Hrun) as Hhidden''.
  split; [apply Hhidden''|]. split.
  - intros scopeBlock lookedUp. split.
    + by apply hiddenIdent_not_found.
    + intros [block Hfound]%deFindIdent_found.
      by apply (hiddenIdent_not_found _ _ block lookedUp Hhidden'').
  - intros fuel scopeBlock expression. split.
    + intros (block & lookedUp & Hfound)%findIdentFromPath_found.
      by apply (hiddenIdent_not_found _ _ block lookedUp Hhidden'').
    + intros (block & lookedUp & Hfound)%deFindIdentFromPath_found.
      by apply (hiddenIdent_not_found _ _ block lookedUp Hhidden'').
Qed.

Lemma deIdentCreate_operator_hidden_witness :
  ∃ ident db' db'',
    deIdentCreate deBlockNull DE_IDENT_FUNCTION symX (Some 20) sampleDb = Ok (ident, db')
    ∧ runCalls [CallRenameIdent identLX symY; CallCopyIdent identGX (Some blockL);
                CallIdentCreate (Some blockClass) DE_IDENT_VARIABLE symX None] db'
      = Ok db''
    ∧ deFindIdent db' blockL symX = Ok (Some identLX)
    ∧ deFindIdent db'' blockL symX ≠ Ok (Some ident)
    ∧ deFindIdentFromPath 3 db'' blockG 6 ≠ Ok (Some ident).
Proof.
  destruct (deIdentCreate_operator_hidden sampleDb DE_IDENT_FUNCTION symX (Some 20))
    as (ident & db' & Hcreate & _ & _ & _ & Hhidden).
  pose proof Hcreate as Hshape.
  rewrite deIdentCreate_operator in Hshape. injection Hshape as <- <-.
  destruct (runCalls [CallRenameIdent identLX symY; CallCopyIdent identGX (Some blockL);
                      CallIdentCreate (Some blockClass) DE_IDENT_VARIABLE symX None]
              (setIdents sampleDb
                 (idents sampleDb ++ [mkIdent DE_IDENT_FUNCTION symX None None None []])))
    as [db''| | |] eqn:Hrun; [|vm_compute in Hrun; discriminate Hrun..].
  eexists _, _, db''. split; [exact Hcreate|].
  split; [exact Hrun|]. split; [reflexivity|].
  destruct (Hhidden sampleDb_tablesValid _ _ Hrun) as (_ & Hfind & Hpath).
  split; [apply Hfind|apply Hpath].
Defined.

(** * Further properties of ident.c *)

(** ** What the lookups return *)

(** X1: an identifier returned by [deFindIdent] is an allocated identifier
    that carries the name looked up, and it is an entry of the table of the
    scope block, or, for a scope block with a filepath, of the module block
    of the filepath or of the root block. *)
Theorem deFindIdent_sound db scopeBlock name ident :
  deFindIdent db scopeBlock name = Ok (Some ident) →
  (∃ r, idents db !! ident = Some r ∧ identSym r = name)
  ∧ ∃ block b,
      blocks db !! block = Some b ∧ ident ∈ blockIdents b
      ∧ (block = scopeBlock
         ∨ ∃ filepath,
             deBlockGetFilepath db scopeBlock = Ok (Some filepath)
             ∧ (deFilepathGetModuleBlock db filepath = Ok (Some block)
                ∨ deRootGetBlock db = Some block)).
Proof.
  unfold deFindIdent. intros H.
  apply bind_Ok in H as ([found|] & Hscope & H).
  { injection H as ->.
    destruct (deBlockFindIdent_found _ _ _ _ Hscope) as (b & r & Hb & Hin & Hr & Hsym).
    split; [eauto|]. exists scopeBlock, b. eauto. }
  apply bind_Ok in H as ([filepath|] & Hfile & H); [|done].
  apply bind_Ok in H as (moduleBlock & Hmodule & H).
  apply bind_Ok in Hmodule as (m & Hmodule & Hnonnull). apply nonNull_Ok in Hnonnull as ->.
  apply bind_Ok in H as ([found|] & Hmod & H).
  { injection H as ->.
    destruct (deBlockFindIdent_found _ _ _ _ Hmod) as (b & r & Hb & Hin & Hr & Hsym).
    split; [eauto|]. exists moduleBlock, b. eauto 10. }
  apply bind_Ok in H as (rootBlock & Hroot & H). apply nonNull_Ok in Hroot.
  apply bind_Ok in H as ([found|] & Hglobal & H); [|done].
  injection H as ->.
  destruct (deBlockFindIdent_found _ _ _ _ Hglobal) as (b & r & Hb & Hin & Hr & Hsym).
  split; [eauto|]. exists rootBlock, b. eauto 10.
Qed.

Lemma deFindIdent_sound_witness :
  deFindIdent sampleDb blockL symF = Ok (Some identF)
  ∧ (∃ r, idents sampleDb !! identF = Some r ∧ identSym r = symF)
  ∧ ∃ block b,
      blocks sampleDb !! block = Some b ∧ identF ∈ blockIdents b
      ∧ (block = blockL
         ∨ ∃ filepath,
             deBlockGetFilepath sampleDb blockL = Ok (Some filepath)
             ∧ (deFilepathGetModuleBlock sampleDb filepath = Ok (Some block)
                ∨ deRootGetBlock sampleDb = Some block)).
Proof.
  split; [reflexivity|]. apply (deFindIdent_sound sampleDb blockL symF identF). reflexivity.
Defined.

Lemma resolvePath_named db scopeBlock p ident :
  resolvePath db scopeBlock p = Ok (Some ident) →
  ∃ block b r,
    blocks db !! block = Some b ∧ ident ∈ blockIdents b
    ∧ idents db !! ident = Some r ∧ identSym r = lastName p.
Proof.
  assert (∀ subPath name,
            resolvePath db scopeBlock (PathDot subPath name) = Ok (Some ident) →
            ∃ block b r,
              blocks db !! block = Some b ∧ ident ∈ blockIdents b
              ∧ idents db !! ident = Some r ∧ identSym r = name) as Hdot.
  { intros subPath name. rewrite resolvePath_dot. intros H.
    apply bind_Ok in H as ([owner|] & _ & H); [|done].
    apply bind_Ok in H as ([subBlock|] & _ & H); [|done].
    destruct (deBlockFindIdent_found _ _ _ _ H) as (b & r & Hb & Hin & Hr & Hsym).
    by exists subBlock, b, r. }
  assert (∀ name,
            deBlockFindIdent db scopeBlock name = Ok (Some ident) →
            ∃ block b r,
              blocks db !! block = Some b ∧ ident ∈ blockIdents b
              ∧ idents db !! ident = Some r ∧ identSym r = name) as Hident.
  { intros name H.
    destruct (deBlockFindIdent_found _ _ _ _ H) as (b & r & Hb & Hin & Hr & Hsym).
    by exists scopeBlock, b, r. }
  destruct p as [name|subPath name|[name|subPath name|inner]]; simpl lastName.
  - apply Hident.
  - apply Hdot.
  - apply Hident.
  - apply Hdot.
  - done.
Qed.

(** X2: an identifier that path resolution returns, with or without the
    global fallback, on an expression with the shape of a path is an
    allocated identifier that carries the last name of the path, and it is an
    entry of a table. *)
Theorem deFindIdentFromPath_sound db scopeBlock expression p fuel ident :
  represents db expression p →
  depth p ≤ fuel →
  findIdentFromPath fuel db scopeBlock expression = Ok (Some ident)
  ∨ deFindIdentFromPath fuel db scopeBlock expression = Ok (Some ident) →
  ∃ block b r,
    blocks db !! block = Some b ∧ ident ∈ blockIdents b
    ∧ idents db !! ident = Some r ∧ identSym r = lastName p.
Proof.
  intros Hrep Hfuel [Hfound|Hfound].
  - rewrite (findIdentFromPath_resolvePath _ _ _ _ Hrep _ Hfuel) in Hfound.
    by eapply resolvePath_named.
  - unfold deFindIdentFromPath in Hfound.
    apply bind_Ok in Hfound as ([found|] & Hscope & Hfound).
    + injection Hfound as ->.
      rewrite (findIdentFromPath_resolvePath _ _ _ _ Hrep _ Hfuel) in Hscope.
      by eapply resolvePath_named.
    + apply bind_Ok in Hfound as (rootBlock & _ & Hfound).
      rewrite (findIdentFromPath_resolvePath _ _ _ _ Hrep _ Hfuel) in Hfound.
      by eapply resolvePath_named.
Qed.

Lemma deFindIdentFromPath_sound_witness :
  deFindIdentFromPath 3 sampleDb blockClass 6 = Ok (Some identLX)
  ∧ ∃ block b r,
      blocks sampleDb !! block = Some b ∧ identLX ∈ blockIdents b
      ∧ idents sampleDb !! identLX = Some r ∧ identSym r = symX.
Proof.
  split; [reflexivity|].
  apply (deFindIdentFromPath_sound sampleDb blockClass 6 _ 3 identLX
           sample_represents_aliased); [simpl; lia|by right].
Defined.

(** ** Aliases and malformed paths *)

(** X3: an "as" alias around an expression that is not itself an alias
    resolves exactly as the expression does, with and without the global
    fallback, whatever the expression is. *)
Theorem findIdentFromPath_alias_transparent db scopeBlock expression r aliased a fuel :
  expressions db !! expression = Some r →
  exprType r = DE_EXPR_AS →
  exprFirstExpression r = Some aliased →
  expressions db !! aliased = Some a →
  exprType a ≠ DE_EXPR_AS →
  findIdentFromPath fuel db scopeBlock expression
  = findIdentFromPath fuel db scopeBlock aliased
  ∧ deFindIdentFromPath fuel db scopeBlock expression
    = deFindIdentFromPath fuel db scopeBlock aliased.
Proof.
  intros Hr Htype Hfirst Ha Hnot.
  pose proof (λ block, findIdentFromPath_alias fuel db block _ _ _ _ Hr Htype Hfirst Ha Hnot)
    as Halias.
  split; [apply Halias|]. unfold deFindIdentFromPath. rewrite Halias.
  destruct (findIdentFromPath fuel db scopeBlock aliased) as [[found|]| | |]; try done.
  simpl. destruct (nonNull (deRootGetBlock db)) as [rootBlock| | |]; try done.
  simpl. apply Halias.
Qed.

Lemma findIdentFromPath_alias_transparent_witness :
  findIdentFromPath 3 sampleDb blockL 6 = findIdentFromPath 3 sampleDb blockL 5
  ∧ deFindIdentFromPath 3 sampleDb blockL 6 = deFindIdentFromPath 3 sampleDb blockL 5.
Proof.
  apply (findIdentFromPath_alias_transparent sampleDb _ 6 _ 5 _ 3
           eq_refl eq_refl eq_refl eq_refl).
  discriminate.
Defined.

(** What a failed assertion leaves of the outer entry point. *)
Lemma deFindIdentFromPath_Abort fuel db scopeBlock expression message :
  findIdentFromPath fuel db scopeBlock expression = Abort message →
  deFindIdentFromPath fuel db scopeBlock expression = Abort message.
Proof. intros Habort. unfold deFindIdentFromPath. by rewrite Habort. Qed.

(** X4: path resolution aborts on a malformed path instead of returning "not
    found": on an alias around an alias, on an expression that, after one
    alias is unwrapped, is neither an identifier nor a dotted pair, and on a
    dotted pair whose trailing expression is not an identifier, which is
    checked before the sub-path is resolved.  The outer entry point aborts
    with it: an abort is not retried from the global root. *)
Theorem findIdentFromPath_malformed db scopeBlock expression r fuel :
  expressions db !! expression = Some r →
  1 ≤ fuel →
  (∀ aliased a,
     exprType r = DE_EXPR_AS → exprFirstExpression r = Some aliased →
     expressions db !! aliased = Some a →
     exprType a = DE_EXPR_AS ∨ exprType a = DE_EXPR_OTHER →
     findIdentFromPath fuel db scopeBlock expression = Abort "Assertion failed"
     ∧ deFindIdentFromPath fuel db scopeBlock expression = Abort "Assertion failed")
  ∧ (exprType r = DE_EXPR_OTHER →
     findIdentFromPath fuel db scopeBlock expression = Abort "Assertion failed"
     ∧ deFindIdentFromPath fuel db scopeBlock expression = Abort "Assertion failed")
  ∧ (∀ subPathExpression s trailing t,
       exprType r = DE_EXPR_DOT → exprFirstExpression r = Some subPathExpression →
       expressions db !! subPathExpression = Some s →
       exprNextExpression s = Some trailing →
       expressions db !! trailing = Some t →
       exprType t ≠ DE_EXPR_IDENT →
       findIdentFromPath fuel db scopeBlock expression = Abort "Assertion failed"
       ∧ deFindIdentFromPath fuel db scopeBlock expression = Abort "Assertion failed").
Proof.
  intros Hr Hfuel. destruct fuel as [|fuel]; [lia|].
  assert (∀ message,
            findIdentFromPath (S fuel) db scopeBlock expression = Abort message →
            findIdentFromPath (S fuel) db scopeBlock expression = Abort message
            ∧ deFindIdentFromPath (S fuel) db scopeBlock expression = Abort message) as Hboth
    by eauto using deFindIdentFromPath_Abort.
  split; [|split].
  - intros aliased a Htype Hfirst Ha Hatype. apply Hboth. simpl.
    unfold deExpressionGetType, deExpressionGetFirstExpression.
    rewrite (deref_lookup _ _ _ Hr). simpl. rewrite Htype, Hfirst. simpl.
    rewrite (deref_lookup _ _ _ Ha). simpl.
    by destruct Hatype as [-> | ->].
  - intros Htype. apply Hboth. simpl. unfold deExpressionGetType.
    rewrite (deref_lookup _ _ _ Hr). simpl. rewrite Htype. simpl.
    rewrite (deref_lookup _ _ _ Hr). simpl. by rewrite Htype.
  - intros sub s trailing t Htype Hfirst Hs Hnext Ht Httype. apply Hboth. simpl.
    unfold deExpressionGetType, deExpressionGetFirstExpression,
      deExpressionGetNextExpression.
    rewrite (deref_lookup _ _ _ Hr). simpl. rewrite Htype. simpl.
    rewrite (deref_lookup _ _ _ Hr). simpl. rewrite Htype, Hfirst. simpl.
    rewrite (deref_lookup _ _ _ Hs). simpl. rewrite Hnext. simpl.
    rewrite (deref_lookup _ _ _ Ht). simpl.
    by rewrite (bool_decide_eq_false_2 _ Httype).
Qed.

Lemma findIdentFromPath_malformed_witness :
  findIdentFromPath 1 malformedDb blockG 11 = Abort "Assertion failed"
  ∧ deFindIdentFromPath 1 malformedDb blockL 12 = Abort "Assertion failed"
  ∧ deFindIdentFromPath 1 malformedDb blockL 14 = Abort "Assertion failed".
Proof.
  assert (1 ≤ 1) as Hfuel by lia.
  split; [|split].
  - destruct (findIdentFromPath_malformed malformedDb blockG 11 _ 1 eq_refl Hfuel)
      as (Halias & _ & _).
    by destruct (Halias 6 _ eq_refl eq_refl eq_refl (or_introl eq_refl)).
  - destruct (findIdentFromPath_malformed malformedDb blockL 12 _ 1 eq_refl Hfuel)
      as (_ & Hother & _).
    by destruct (Hother eq_refl).
  - destruct (findIdentFromPath_malformed malformedDb blockL 14 _ 1 eq_refl Hfuel)
      as (_ & _ & Hdot).
    by destruct (Hdot 13 _ 12 _ eq_refl eq_refl eq_refl eq_refl eq_refl).
Defined.

(** ** The two resolvers on a bare name *)

(** X5: on a bare name the two resolvers agree when the scope block binds
    the name, and differ otherwise exactly by the module step and by the
    filepath guard: when the scope block does not bind the name,
    [deFindIdentFromPath] returns what the root block binds, whereas
    [deFindIdent] returns "not found" for a scope block with no filepath,
    even for a name the root binds, and returns the binding of the module
    block, when there is one, before the root is looked at. *)
Theorem resolvers_on_bare_name db scopeBlock expression name fuel rootBlock :
  represents db expression (PathIdent name) →
  1 ≤ fuel →
  deRootGetBlock db = Some rootBlock →
  (∀ ident,
     deBlockFindIdent db scopeBlock name = Ok (Some ident) →
     deFindIdent db scopeBlock name = Ok (Some ident)
     ∧ deFindIdentFromPath fuel db scopeBlock expression = Ok (Some ident))
  ∧ (deBlockFindIdent db scopeBlock name = Ok None →
     deFindIdentFromPath fuel db scopeBlock expression
     = deBlockFindIdent db rootBlock name
     ∧ (deBlockGetFilepath db scopeBlock = Ok None →
        deFindIdent db scopeBlock name = Ok None)
     ∧ ∀ filepath moduleBlock,
         deBlockGetFilepath db scopeBlock = Ok (Some filepath) →
         deFilepathGetModuleBlock db filepath = Ok (Some moduleBlock) →
         (∀ ident,
            deBlockFindIdent db moduleBlock name = Ok (Some ident) →
            deFindIdent db scopeBlock name = Ok (Some ident))
         ∧ (∀ found,
              deBlockFindIdent db moduleBlock name = Ok None →
              deBlockFindIdent db rootBlock name = Ok found →
              deFindIdent db scopeBlock name = Ok found
              ∧ deFindIdentFromPath fuel db scopeBlock expression = Ok found)).
Proof.
  intros Hrep Hfuel Hroot.
  assert (∀ block, findIdentFromPath fuel db block expression
                   = deBlockFindIdent db block name) as Hplain.
  { intros block. by rewrite (findIdentFromPath_resolvePath _ _ _ _ Hrep _ Hfuel). }
  assert (deBlockFindIdent db scopeBlock name = Ok None →
          deFindIdentFromPath fuel db scopeBlock expression
          = deBlockFindIdent db rootBlock name) as Hfallback.
  { intros Hnone. unfold deFindIdentFromPath. rewrite Hplain, Hnone. simpl.
    rewrite Hroot. simpl. apply Hplain. }
  split.
  - intros ident Hfound. split; [by apply deFindIdent_scope|].
    unfold deFindIdentFromPath. by rewrite Hplain, Hfound.
  - intros Hnone. split; [by apply Hfallback|]. split.
    + intros Hfile. unfold deFindIdent. rewrite Hnone. simpl. by rewrite Hfile.
    + intros filepath moduleBlock Hfile Hmodule. split.
      * intros ident Hmod. by eapply deFindIdent_module.
      * intros found Hmod Hglobal. split; [by eapply deFindIdent_root|].
        by rewrite Hfallback.
Qed.

Lemma resolvers_on_bare_name_witness :
  (deFindIdent sampleDb blockClass symX = Ok None
   ∧ deFindIdentFromPath 1 sampleDb blockClass 0 = Ok (Some identGX))
  ∧ (deFindIdent sampleDb blockL symF = Ok (Some identF)
     ∧ deFindIdentFromPath 1 sampleDb blockL 7 = Ok None).
Proof.
  assert (1 ≤ 1) as Hfuel by lia.
  split.
  - destruct (resolvers_on_bare_name sampleDb blockClass 0 symX 1 blockG) as [_ Hnone];
      [by eapply (represents_ident sampleDb 0)|done|reflexivity|].
    destruct (Hnone eq_refl) as (Hpath & Hguard & _). split; [by apply Hguard|].
    by rewrite Hpath.
  - destruct (resolvers_on_bare_name sampleDb blockL 7 symF 1 blockG) as [_ Hnone];
      [by eapply (represents_ident sampleDb 7)|done|reflexivity|].
    destruct (Hnone eq_refl) as (Hpath & _ & Hmodule).
    destruct (Hmodule 1 blockM eq_refl eq_refl) as [Hmod _].
    split; [by apply Hmod|]. by rewrite Hpath.
Defined.

(** ** Creation and lookup *)

Section created.
Context (db db' : deDatabase) (block : deBlock) (type : deIdentType).
Context (name : utSym) (line : deLine) (ident : deIdent).
Hypothesis Hcreate : deIdentCreate (Some block) type name line db = Ok (ident, db').
Hypothesis Hvalid : tablesValid db.

Lemma created_identSym other :
  other < length (idents db) →
  identSym <$> idents db' !! other = identSym <$> idents db !! other.
Proof.
  intros Hlt.
  destruct (deIdentCreate_scope_inv _ _ _ _ _ _ _ Hcreate) as (b & Hb & Hfind & -> & ->).
  simpl. by apply identSym_alloc.
Qed.

Lemma created_tableFind lookedUp other o :
  blocks db !! other = Some o →
  tableFind (idents db') lookedUp (blockIdents o)
  = tableFind (idents db) lookedUp (blockIdents o).
Proof.
  intros Ho. apply tableFind_ext. intros j Hj. apply created_identSym.
  by eapply Hvalid.
Qed.

Lemma created_find_same : deBlockFindIdent db' block name = Ok (Some ident).
Proof.
  destruct (deIdentCreate_scope_inv _ _ _ _ _ _ _ Hcreate) as (b & Hb & Hfind & Hident & Hdb').
  unfold deBlockFindIdent, deref.
  assert (blocks db' !! block
          = Some (blockWithIdents b (blockIdents b ++ [ident]))) as ->.
  { subst. simpl. apply list_lookup_insert_eq. eauto using lookup_lt_Some. }
  simpl. rewrite tableFind_append, (created_tableFind _ _ _ Hb), Hfind.
  rewrite decide_True; [done|]. subst. unfold identNamed. simpl. by rewrite lookup_alloc.
Qed.

Lemma created_find_other other lookedUp :
  other ≠ block ∨ lookedUp ≠ name →
  deBlockFindIdent db' other lookedUp = deBlockFindIdent db other lookedUp.
Proof.
  intros Hother.
  destruct (deIdentCreate_scope_inv _ _ _ _ _ _ _ Hcreate) as (b & Hb & Hfind & Hident & Hdb').
  unfold deBlockFindIdent, deref.
  destruct (decide (other = block)) as [->|Hne].
  - destruct Hother as [?|Hname]; [done|].
    assert (blocks db' !! block
            = Some (blockWithIdents b (blockIdents b ++ [ident]))) as ->.
    { subst. simpl. apply list_lookup_insert_eq. eauto using lookup_lt_Some. }
    rewrite Hb. simpl. rewrite tableFind_append, (created_tableFind _ _ _ Hb).
    destruct (tableFind (idents db) lookedUp (blockIdents b)); [done|].
    rewrite decide_False; [done|]. subst. unfold identNamed. simpl.
    rewrite lookup_alloc. simpl. congruence.
  - assert (blocks db' !! other = blocks db !! other) as ->.
    { subst. simpl. by apply list_lookup_insert_ne. }
    destruct (blocks db !! other) as [o|] eqn:Ho; [|done]. simpl.
    by rewrite (created_tableFind _ _ _ Ho).
Qed.

Lemma created_filepath other : deBlockGetFilepath db' other = deBlockGetFilepath db other.
Proof.
  destruct (deIdentCreate_scope_inv _ _ _ _ _ _ _ Hcreate) as (b & Hb & Hfind & Hident & ->).
  unfold deBlockGetFilepath, deref. simpl.
  destruct (decide (other = block)) as [->|Hne].
  - rewrite list_lookup_insert_eq by eauto using lookup_lt_Some. by rewrite Hb.
  - by rewrite list_lookup_insert_ne.
Qed.

Lemma created_moduleBlock filepath :
  deFilepathGetModuleBlock db' filepath = deFilepathGetModuleBlock db filepath.
Proof.
  by destruct (deIdentCreate_scope_inv _ _ _ _ _ _ _ Hcreate) as (b & Hb & Hfind & Hident & ->).
Qed.

Lemma created_rootBlock : deRootGetBlock db' = deRootGetBlock db.
Proof.
  by destruct (deIdentCreate_scope_inv _ _ _ _ _ _ _ Hcreate) as (b & Hb & Hfind & Hident & ->).
Qed.
End created.

(** X6: in a database whose tables hold allocated identifiers, after a
    successful [deIdentCreate] on a scope the scope binds the name to the
    new identifier, and every other lookup, of another name or in another
    block, returns what it returned before. *)
Theorem deIdentCreate_lookup db db' block type name line ident :
  tablesValid db →
  deIdentCreate (Some block) type name line db = Ok (ident, db') →
  deBlockFindIdent db' block name = Ok (Some ident)
  ∧ ∀ other lookedUp,
      other ≠ block ∨ lookedUp ≠ name →
      deBlockFindIdent db' other lookedUp = deBlockFindIdent db other lookedUp.
Proof.
  intros Hvalid Hcreate. split.
  - by eapply created_find_same.
  - intros other lookedUp Hother. by eapply created_find_other.
Qed.

Lemma deIdentCreate_lookup_witness :
  ∃ ident db',
    deIdentCreate (Some blockM) DE_IDENT_VARIABLE symY (Some 30) sampleDb = Ok (ident, db')
    ∧ deBlockFindIdent db' blockM symY = Ok (Some ident)
    ∧ deBlockFindIdent db' blockM symX = Ok (Some identMX)
    ∧ deBlockFindIdent db' blockG symY = Ok None.
Proof.
  destruct (deIdentCreate (Some blockM) DE_IDENT_VARIABLE symY (Some 30) sampleDb)
    as [[ident db']| | |] eqn:Hcreate; [|vm_compute in Hcreate; discriminate Hcreate..].
  exists ident, db'. split; [done|].
  destruct (deIdentCreate_lookup _ _ _ _ _ _ _ sampleDb_tablesValid Hcreate)
    as [Hnew Hother].
  split; [done|]. split.
  - rewrite Hother; [reflexivity|by right].
  - rewrite Hother; [reflexivity|by left].
Defined.

(** [deFindIdent] reads nothing of the database but the lookups in the
    tables, the filepaths of the blocks, the module blocks of the filepaths
    and the root. *)
Lemma deFindIdent_ext db db' scopeBlock name :
  (∀ block, deBlockFindIdent db' block name = deBlockFindIdent db block name) →
  deBlockGetFilepath db' scopeBlock = deBlockGetFilepath db scopeBlock →
  (∀ filepath,
     deFilepathGetModuleBlock db' filepath = deFilepathGetModuleBlock db filepath) →
  deRootGetBlock db' = deRootGetBlock db →
  deFindIdent db' scopeBlock name = deFindIdent db scopeBlock name.
Proof.
  intros Hfind Hfile Hmodule Hroot. unfold deFindIdent. rewrite Hfind, Hfile.
  destruct (deBlockFindIdent db scopeBlock name) as [[found|]| | |]; try done. simpl.
  destruct (deBlockGetFilepath db scopeBlock) as [[filepath|]| | |]; try done. simpl.
  rewrite Hmodule.
  destruct (deFilepathGetModuleBlock db filepath ≫= nonNull) as [moduleBlock| | |];
    try done. simpl.
  rewrite Hfind, Hroot.
  destruct (deBlockFindIdent db moduleBlock name) as [[found|]| | |]; try done. simpl.
  destruct (nonNull (deRootGetBlock db)) as [rootBlock| | |]; try done. simpl.
  by rewrite Hfind.
Qed.

(** X7: in a database whose tables hold allocated identifiers, an identifier
    created in a scope is what [deFindIdent] returns for its name from that
    scope, whatever the module and the root bind; created in a module block,
    it is returned from every scope of a file of that module that does not
    bind the name; created in the root block, from every scope with a
    filepath where neither the scope nor the module binds the name.  A scope
    with no filepath sees only its own table, and for every other name
    [deFindIdent] returns from every scope what it returned before. *)
Theorem deIdentCreate_visible db db' block type name line ident :
  tablesValid db →
  deIdentCreate (Some block) type name line db = Ok (ident, db') →
  deFindIdent db' block name = Ok (Some ident)
  ∧ (∀ scopeBlock filepath,
       deBlockGetFilepath db scopeBlock = Ok (Some filepath) →
       deFilepathGetModuleBlock db filepath = Ok (Some block) →
       deBlockFindIdent db scopeBlock name = Ok None →
       deFindIdent db' scopeBlock name = Ok (Some ident))
  ∧ (∀ scopeBlock filepath moduleBlock,
       deBlockGetFilepath db scopeBlock = Ok (Some filepath) →
       deFilepathGetModuleBlock db filepath = Ok (Some moduleBlock) →
       deRootGetBlock db = Some block →
       deBlockFindIdent db scopeBlock name = Ok None →
       deBlockFindIdent db moduleBlock name = Ok None →
       deFindIdent db' scopeBlock name = Ok (Some ident))
  ∧ (∀ scopeBlock,
       scopeBlock ≠ block →
       deBlockGetFilepath db scopeBlock = Ok None →
       deFindIdent db' scopeBlock name = deBlockFindIdent db scopeBlock name)
  ∧ (∀ scopeBlock lookedUp,
       lookedUp ≠ name →
       deFindIdent db' scopeBlock lookedUp = deFindIdent db scopeBlock lookedUp).
Proof.
  intros Hvalid Hcreate.
  pose proof (created_find_same _ _ _ _ _ _ _ Hcreate Hvalid) as Hnew.
  pose proof (created_find_other _ _ _ _ _ _ _ Hcreate Hvalid) as Hother.
  pose proof (created_filepath _ _ _ _ _ _ _ Hcreate) as Hfile.
  pose proof (created_moduleBlock _ _ _ _ _ _ _ Hcreate) as Hmodule.
  pose proof (created_rootBlock _ _ _ _ _ _ _ Hcreate) as Hroot.
  split; [by apply deFindIdent_scope|]. split; [|split; [|split]].
  - intros scopeBlock filepath Hf Hm Hnone.
    destruct (decide (scopeBlock = block)) as [->|Hne]; [by apply deFindIdent_scope|].
    eapply deFindIdent_module.
    + by rewrite Hfile.
    + by rewrite Hmodule.
    + rewrite Hother; [done|by left].
    + done.
  - intros scopeBlock filepath moduleBlock Hf Hm Hr Hnone Hmnone.
    destruct (decide (scopeBlock = block)) as [->|Hne]; [by apply deFindIdent_scope|].
    destruct (decide (moduleBlock = block)) as [->|Hmne].
    + eapply deFindIdent_module.
      * by rewrite Hfile.
      * by rewrite Hmodule.
      * rewrite Hother; [done|by left].
      * done.
    + eapply deFindIdent_root.
      * by rewrite Hfile.
      * by rewrite Hmodule.
      * by rewrite Hroot.
      * rewrite Hother; [done|by left].
      * rewrite Hother; [done|by left].
      * done.
  - intros scopeBlock Hne Hf. unfold deFindIdent.
    rewrite Hother by (by left). rewrite Hfile, Hf.
    by destruct (deBlockFindIdent db scopeBlock name) as [[found|]| | |].
  - intros scopeBlock lookedUp Hne. apply deFindIdent_ext; try done.
    intros other. apply Hother. by right.
Qed.

Lemma deIdentCreate_visible_witness :
  ∃ ident db',
    deIdentCreate (Some blockM) DE_IDENT_VARIABLE symY (Some 30) sampleDb = Ok (ident, db')
    ∧ deFindIdent db' blockM symY = Ok (Some ident)
    ∧ deFindIdent db' blockL symY = Ok (Some ident)
    ∧ deFindIdent db' blockClass symY = Ok None
    ∧ deFindIdent db' blockL symX = Ok (Some identLX).
Proof.
  destruct (deIdentCreate (Some blockM) DE_IDENT_VARIABLE symY (Some 30) sampleDb)
    as [[ident db']| | |] eqn:Hcreate; [|vm_compute in Hcreate; discriminate Hcreate..].
  exists ident, db'. split; [done|].
  destruct (deIdentCreate_visible _ _ _ _ _ _ _ sampleDb_tablesValid Hcreate)
    as (Hscope & Hmodule & _ & Hnofile & Hframe).
  split; [done|]. split; [by apply (Hmodule blockL 1)|]. split.
  - rewrite Hnofile; [reflexivity|discriminate|reflexivity].
  - rewrite Hframe; [reflexivity|discriminate].
Defined.

(** ** Identifiers of functions: [deFunctionIdentCreate] *)

Lemma tableFind_alloc ids name table (x : deIdentRec) :
  tableFind ids name table = None → identSym x = name →
  tableFind (ids ++ [x]) name (table ++ [length ids]) = Some (length ids).
Proof.
  intros Hfresh Hsym. rewrite tableFind_append.
  destruct (tableFind (ids ++ [x]) name table) as [j|] eqn:Hj.
  - apply tableFind_elem in Hj as [Hin Hn]. f_equal.
    destruct (decide (j < length ids)) as [Hlt|Hge].
    + unfold identNamed in Hn. rewrite lookup_app_l in Hn by done.
      apply tableFind_None in Hfresh. rewrite Forall_forall in Hfresh.
      by destruct (Hfresh _ Hin).
    + unfold identNamed in Hn.
      destruct ((ids ++ [x]) !! j) eqn:Hlook; [|done].
      apply lookup_lt_Some in Hlook. rewrite length_app in Hlook. simpl in Hlook. lia.
  - rewrite decide_True; [done|]. unfold identNamed. rewrite lookup_alloc. simpl.
    by rewrite Hsym.
Qed.

Lemma deFunctionIdentCreate_scope db block b function f name :
  blocks db !! block = Some b →
  functions db !! function = Some f →
  tableFind (idents db) name (blockIdents b) = None →
  deFunctionIdentCreate (Some block) function name db
  = Ok (length (idents db),
        setFunctions
          (setBlocks
             (setIdents db
                (idents db ++ [mkIdent DE_IDENT_FUNCTION name (Some block)
                                 (Some function) None []]))
             (<[block := blockWithIdents b (blockIdents b ++ [length (idents db)])]>
                (blocks db)))
          (<[function := functionWithIdents f (functionIdents f ++ [length (idents db)])]>
             (functions db))).
Proof.
  intros Hb Hf Hfresh. unfold deFunctionIdentCreate, deFunctionGetLine.
  rewrite (deref_lookup _ _ _ Hf). simpl.
  rewrite (deIdentCreate_scope _ _ _ _ _ _ Hb Hfresh). simpl.
  unfold deFunctionAppendIdent, deref. simpl. rewrite Hf. simpl.
  rewrite lookup_alloc. simpl. by rewrite alloc_set_lookup.
Qed.

Lemma deFunctionIdentCreate_operator db function f name :
  functions db !! function = Some f →
  deFunctionIdentCreate deBlockNull function name db
  = Ok (length (idents db),
        setFunctions
          (setIdents db
             (idents db ++ [mkIdent DE_IDENT_FUNCTION name None (Some function) None []]))
          (<[function := functionWithIdents f (functionIdents f ++ [length (idents db)])]>
             (functions db))).
Proof.
  intros Hf. unfold deFunctionIdentCreate, deFunctionGetLine.
  rewrite (deref_lookup _ _ _ Hf). simpl.
  rewrite deIdentCreate_operator. simpl.
  unfold deFunctionAppendIdent, deref. simpl. rewrite Hf. simpl.
  rewrite lookup_alloc. simpl. by rewrite alloc_set_lookup.
Qed.

(** X8: [deFunctionIdentCreate] on a scope that does not bind the name
    returns a new function identifier that the scope binds under the name
    and that is registered on the function as its last identifier.  The
    identifier answers for the function: its line is the line of the
    function, its sub-block the sub-block of the function, and it is a
    module or package exactly when the function is one. *)
Theorem deFunctionIdentCreate_registered db block b function f name :
  blocks db !! block = Some b →
  functions db !! function = Some f →
  deBlockFindIdent db block name = Ok None →
  ∃ ident db',
    deFunctionIdentCreate (Some block) function name db = Ok (ident, db')
    ∧ idents db !! ident = None
    ∧ idents db' !! ident
      = Some (mkIdent DE_IDENT_FUNCTION name (Some block) (Some function) None [])
    ∧ deBlockFindIdent db' block name = Ok (Some ident)
    ∧ deFindIdent db' block name = Ok (Some ident)
    ∧ functions db' !! function
      = Some (functionWithIdents f (functionIdents f ++ [ident]))
    ∧ deIdentGetLine db' ident = Ok (functionLine f)
    ∧ deIdentGetSubBlock db' ident = Ok (functionSubBlock f)
    ∧ deIdentIsModuleOrPackage db' ident
      = Ok (bool_decide (functionType f = DE_FUNC_PACKAGE ∨ functionType f = DE_FUNC_MODULE)).
Proof.
  intros Hb Hf Hfresh.
  rewrite (deBlockFindIdent_lookup _ _ _ _ Hb) in Hfresh. injection Hfresh as Hfresh.
  eexists _, _. split; [by apply deFunctionIdentCreate_scope|].
  assert (function < length (functions db)) as Hlt by eauto using lookup_lt_Some.
  split; [by apply lookup_ge_None_2|]. split; [simpl; apply lookup_alloc|].
  assert (deBlockFindIdent
            (setFunctions
               (setBlocks
                  (setIdents db
                     (idents db ++ [mkIdent DE_IDENT_FUNCTION name (Some block)
                                      (Some function) None []]))
                  (<[block := blockWithIdents b (blockIdents b ++ [length (idents db)])]>
                     (blocks db)))
               (<[function := functionWithIdents f (functionIdents f ++ [length (idents db)])]>
                  (functions db))) block name = Ok (Some (length (idents db)))) as Hnew.
  { unfold deBlockFindIdent, deref. simpl.
    rewrite list_lookup_insert_eq by eauto using lookup_lt_Some. simpl.
    by rewrite tableFind_alloc. }
  split; [done|]. split; [by apply deFindIdent_scope|].
  split; [simpl; by apply list_lookup_insert_eq|].
  split; [|split].
  - unfold deIdentGetLine, deIdentGetType, deIdentGetFunction, deFunctionGetLine, deref.
    simpl. repeat (rewrite lookup_alloc; simpl).
    by rewrite list_lookup_insert_eq.
  - unfold deIdentGetSubBlock, deIdentGetType, deIdentGetFunction, deFunctionGetSubBlock,
      deref.
    simpl. repeat (rewrite lookup_alloc; simpl).
    by rewrite list_lookup_insert_eq.
  - unfold deIdentIsModuleOrPackage, deIdentGetType, deIdentGetFunction, deFunctionGetType,
      deref.
    simpl. repeat (rewrite lookup_alloc; simpl).
    rewrite list_lookup_insert_eq by done. simpl. f_equal.
    destruct (functionType f); reflexivity.
Qed.

Lemma deFunctionIdentCreate_registered_witness :
  ∃ ident db',
    deFunctionIdentCreate (Some blockL) 1 symM sampleDb = Ok (ident, db')
    ∧ deFindIdent db' blockL symM = Ok (Some ident)
    ∧ functionIdents <$> functions db' !! 1 = Some [identM; ident]
    ∧ deIdentGetLine db' ident = Ok (Some 1)
    ∧ deIdentGetSubBlock db' ident = Ok (Some blockM)
    ∧ deIdentIsModuleOrPackage db' ident = Ok true.
Proof.
  destruct (deFunctionIdentCreate_registered sampleDb blockL _ 1 _ symM
              eq_refl eq_refl eq_refl)
    as (ident & db' & Hcreate & _ & _ & _ & Hfind & Hfunction & Hline & Hsub & Hmodule).
  exists ident, db'. split; [done|]. split; [done|].
  split; [by rewrite Hfunction|]. done.
Defined.

(** X9: when the scope binds the name already, [deFunctionIdentCreate]
    fails with the duplicate-identifier error, which spells the name out and
    is reported at the line of the function; the database when the error is
    reported is the one the call was given, so the function gains no
    identifier.  With the no-scope sentinel it makes no check and always
    returns: the table of every block is as before, and the new identifier,
    which has no block, is registered on the function all the same. *)
Theorem deFunctionIdentCreate_edges db function f name :
  functions db !! function = Some f →
  (∀ block oldIdent,
     deBlockFindIdent db block name = Ok (Some oldIdent) →
     deFunctionIdentCreate (Some block) function name db
     = Error (functionLine f)
         ("Tried to create an identifier '" ++ utSymGetName name
            ++ "' that already exists on the block")
         db)
  ∧ ∃ ident db',
      deFunctionIdentCreate deBlockNull function name db = Ok (ident, db')
      ∧ blocks db' = blocks db
      ∧ idents db' !! ident
        = Some (mkIdent DE_IDENT_FUNCTION name None (Some function) None [])
      ∧ functions db' !! function
        = Some (functionWithIdents f (functionIdents f ++ [ident])).
Proof.
  intros Hf. split.
  - intros block oldIdent Hfound. unfold deFunctionIdentCreate, deFunctionGetLine.
    rewrite (deref_lookup _ _ _ Hf). simpl.
    by rewrite (deIdentCreate_duplicate _ _ _ _ _ _ Hfound).
  - eexists _, _. split; [by apply deFunctionIdentCreate_operator|].
    split; [done|]. split; [simpl; apply lookup_alloc|].
    simpl. apply list_lookup_insert_eq. eauto using lookup_lt_Some.
Qed.

Lemma deFunctionIdentCreate_edges_witness :
  deFunctionIdentCreate (Some blockG) 2 symM sampleDb
  = Error (Some 2) "Tried to create an identifier 'm' that already exists on the block"
      sampleDb
  ∧ deFunctionIdentCreate (Some blockM) 1 symX sampleDb
    = Error (Some 1) "Tried to create an identifier 'x' that already exists on the block"
        sampleDb
  ∧ ∃ ident db',
      deFunctionIdentCreate deBlockNull 2 symM sampleDb = Ok (ident, db')
      ∧ blocks db' = blocks sampleDb
      ∧ functionIdents <$> functions db' !! 2 = Some [identF; ident].
Proof.
  destruct (deFunctionIdentCreate_edges sampleDb 2 _ symM eq_refl)
    as [Hduplicate (ident & db' & Hcreate & Hblocks & _ & Hfunction)].
  split; [by apply (Hduplicate blockG identM)|].
  split.
  { destruct (deFunctionIdentCreate_edges sampleDb 1 _ symX eq_refl) as [Hother _].
    by apply (Hother blockM identMX). }
  exists ident, db'. split; [done|]. split; [done|]. by rewrite Hfunction.
Defined.

(** ** What a copy is: [deCopyIdent] *)

Lemma samePayloads_refl db : samePayloads db db.
Proof. by split. Qed.

Lemma list_lookup_insert_fmap {A B} (g : A → B) (l : list A) (i j : nat) (x y : A) :
  l !! i = Some y → g x = g y → g <$> <[i := x]> l !! j = g <$> l !! j.
Proof.
  intros Hy Hg. destruct (decide (i = j)) as [->|Hne].
  - rewrite list_lookup_insert_eq by eauto using lookup_lt_Some. rewrite Hy. simpl.
    by rewrite Hg.
  - by rewrite list_lookup_insert_ne.
Qed.

Lemma functionAppend_samePayloads db db' function ident :
  deFunctionAppendIdent db function ident = Ok db' → samePayloads db db'.
Proof.
  unfold deFunctionAppendIdent. intros H. inv_Ok. subst db'. split; [|done].
  intros g. simpl. by eapply list_lookup_insert_fmap.
Qed.

Lemma variableAppend_samePayloads db db' variable ident :
  deVariableAppendIdent db variable ident = Ok db' → samePayloads db db'.
Proof.
  unfold deVariableAppendIdent. intros H. inv_Ok. subst db'. split; [done|].
  intros g. simpl. by eapply list_lookup_insert_fmap.
Qed.

(** Everything a successful [deCopyIdent] does, for a destination scope and
    for the no-scope sentinel alike. *)
Lemma deCopyIdent_inv db db' ident (dest : option deBlock) newIdent :
  deCopyIdent ident dest db = Ok (newIdent, db') →
  ∃ r p registered,
    idents db !! ident = Some r
    ∧ identPayload r = Some p
    ∧ payloadIdents db p = Some registered
    ∧ newIdent = length (idents db)
    ∧ idents db' = idents db ++ [copiedIdent r dest]
    ∧ match dest with
      | Some destBlock =>
          ∃ d, blocks db !! destBlock = Some d
               ∧ tableFind (idents db) (identSym r) (blockIdents d) = None
               ∧ blocks db'
                 = <[destBlock := blockWithIdents d (blockIdents d ++ [newIdent])]>
                     (blocks db)
      | None => blocks db' = blocks db
      end
    ∧ payloadIdents db' p = Some (registered ++ [newIdent])
    ∧ samePayloads db db'
    ∧ classes db' = classes db ∧ tclasses db' = tclasses db
    ∧ filepaths db' = filepaths db ∧ expressions db' = expressions db
    ∧ rootBlock db' = rootBlock db.
Proof.
  unfold deCopyIdent, deIdentGetType, deIdentGetSym. intros H.
  apply bind_Ok in H as (type & Htype & H).
  apply bind_Ok in Htype as (r & Hr%deref_Ok & [= <-]).
  apply bind_Ok in H as (sym & Hsym & H).
  apply bind_Ok in Hsym as (r0 & Hr0%deref_Ok & [= <-]).
  assert (r0 = r) as -> by congruence.
  apply bind_Ok in H as ([created db1] & Hcreate & H).
  apply bind_Ok in H as (db2 & Happend & [= <- <-]).
  assert (created = length (idents db)
          ∧ idents db1 = idents db ++ [mkIdent (identType r) (identSym r) dest None None []]
          ∧ functions db1 = functions db ∧ variables db1 = variables db
          ∧ classes db1 = classes db ∧ tclasses db1 = tclasses db
          ∧ filepaths db1 = filepaths db ∧ expressions db1 = expressions db
          ∧ rootBlock db1 = rootBlock db
          ∧ match dest with
            | Some destBlock =>
                ∃ d, blocks db !! destBlock = Some d
                     ∧ tableFind (idents db) (identSym r) (blockIdents d) = None
                     ∧ blocks db1
                       = <[destBlock := blockWithIdents d (blockIdents d ++ [created])]>
                           (blocks db)
            | None => blocks db1 = blocks db
            end)
    as (-> & Hids & Hfs & Hvs & Hcs & Hts & Hfps & Hes & Hroot & Hblocks).
  { destruct dest as [destBlock|].
    - destruct (deIdentCreate_scope_inv _ _ _ _ _ _ _ Hcreate)
        as (d & Hd & Hfresh & -> & ->).
      do 9 (split; [done|]). by exists d.
    - rewrite deIdentCreate_operator in Hcreate. by injection Hcreate as <- <-. }
  assert (idents db1 !! ident = Some r) as Hr1
    by (rewrite Hids; by apply lookup_app_l_Some).
  destruct (identType r) eqn:Htype.
  - apply bind_Ok in Happend as (function & Hfunction & Happend).
    apply bind_Ok in Hfunction as (o & Ho & Hnonnull%nonNull_Ok).
    unfold deIdentGetFunction in Ho. rewrite (deref_lookup _ _ _ Hr1) in Ho.
    injection Ho as <-.
    pose proof (functionAppend_samePayloads _ _ _ _ Happend) as [Hsamef Hsamev].
    unfold deFunctionAppendIdent in Happend.
    apply bind_Ok in Happend as (f & Hf%deref_Ok & Happend).
    apply bind_Ok in Happend as (i & Hi%deref_Ok & [= <-]).
    rewrite Hids, lookup_alloc in Hi. injection Hi as <-.
    exists r, (FunctionPayload function), (functionIdents f).
    split; [done|]. split; [unfold identPayload; by rewrite Htype, Hnonnull|].
    split; [simpl; by rewrite <- Hfs, Hf|]. split; [done|].
    split.
    { simpl. rewrite Hids, alloc_set_lookup. unfold copiedIdent. by rewrite Htype, Hnonnull. }
    split; [by destruct dest|]. split.
    { simpl. by rewrite list_lookup_insert_eq by eauto using lookup_lt_Some. }
    split; [|done].
    split; [intros g; rewrite Hsamef; by rewrite Hfs|intros v; rewrite Hsamev; by rewrite Hvs].
  - apply bind_Ok in Happend as (variable & Hvariable & Happend).
    apply bind_Ok in Hvariable as (o & Ho & Hnonnull%nonNull_Ok).
    unfold deIdentGetVariable in Ho. rewrite (deref_lookup _ _ _ Hr1) in Ho.
    injection Ho as <-.
    pose proof (variableAppend_samePayloads _ _ _ _ Happend) as [Hsamef Hsamev].
    unfold deVariableAppendIdent in Happend.
    apply bind_Ok in Happend as (v & Hv%deref_Ok & Happend).
    apply bind_Ok in Happend as (i & Hi%deref_Ok & [= <-]).
    rewrite Hids, lookup_alloc in Hi. injection Hi as <-.
    exists r, (VariablePayload variable), (variableIdents v).
    split; [done|]. split; [unfold identPayload; by rewrite Htype, Hnonnull|].
    split; [simpl; by rewrite <- Hvs, Hv|]. split; [done|].
    split.
    { simpl. rewrite Hids, alloc_set_lookup. unfold copiedIdent. by rewrite Htype, Hnonnull. }
    split; [by destruct dest|]. split.
    { simpl. by rewrite list_lookup_insert_eq by eauto using lookup_lt_Some. }
    split; [|done].
    split; [intros g; rewrite Hsamef; by rewrite Hfs|intros w; rewrite Hsamev; by rewrite Hvs].
Qed.

Lemma deCopyIdent_operator db ident r p registered :
  idents db !! ident = Some r →
  identPayload r = Some p →
  payloadIdents db p = Some registered →
  ∃ db', deCopyIdent ident deBlockNull db = Ok (length (idents db), db').
Proof.
  intros Hr Hp Hreg. unfold deCopyIdent, deIdentGetType, deIdentGetSym.
  rewrite (deref_lookup _ _ _ Hr). simpl. rewrite deIdentCreate_operator. simpl.
  unfold identPayload in Hp. destruct (identType r).
  - destruct (identFunction r) as [function|] eqn:Hfunction; [|done]. injection Hp as <-.
    simpl in Hreg. destruct (functions db !! function) as [f|] eqn:Hf; [|done].
    unfold deIdentGetFunction, deref. simpl.
    rewrite (lookup_app_l_Some _ _ _ _ Hr). simpl. rewrite Hfunction. simpl.
    unfold deFunctionAppendIdent, deref. simpl. rewrite Hf. simpl.
    rewrite lookup_alloc. simpl. eauto.
  - destruct (identVariable r) as [variable|] eqn:Hvariable; [|done]. injection Hp as <-.
    simpl in Hreg. destruct (variables db !! variable) as [v|] eqn:Hv; [|done].
    unfold deIdentGetVariable, deref. simpl.
    rewrite (lookup_app_l_Some _ _ _ _ Hr). simpl. rewrite Hvariable. simpl.
    unfold deVariableAppendIdent, deref. simpl. rewrite Hv. simpl.
    rewrite lookup_alloc. simpl. eauto.
Qed.

(** X10: onto a scope that binds the name of the identifier already,
    [deCopyIdent] fails with the duplicate-identifier error, reported at the
    null line.  With the no-scope sentinel as destination it makes no check
    and returns for every identifier with an allocated payload: the table of
    every block is as before, and the copy, which has no block, is
    registered on the payload all the same. *)
Theorem deCopyIdent_edges db ident r p registered :
  idents db !! ident = Some r →
  identPayload r = Some p →
  payloadIdents db p = Some registered →
  (∀ destBlock oldIdent,
     deBlockFindIdent db destBlock (identSym r) = Ok (Some oldIdent) →
     deCopyIdent ident (Some destBlock) db
     = Error deLineNull (duplicateIdentMessage (identSym r)) db)
  ∧ ∃ newIdent db',
      deCopyIdent ident deBlockNull db = Ok (newIdent, db')
      ∧ idents db !! newIdent = None
      ∧ idents db' !! newIdent = Some (copiedIdent r None)
      ∧ blocks db' = blocks db
      ∧ payloadIdents db' p = Some (registered ++ [newIdent]).
Proof.
  intros Hr Hp Hreg. split.
  - intros destBlock oldIdent Hfound. unfold deCopyIdent, deIdentGetType, deIdentGetSym.
    rewrite (deref_lookup _ _ _ Hr). simpl.
    by rewrite (deIdentCreate_duplicate _ _ _ _ _ _ Hfound).
  - destruct (deCopyIdent_operator _ _ _ _ _ Hr Hp Hreg) as [db' Hcopy].
    exists (length (idents db)), db'. split; [done|].
    destruct (deCopyIdent_inv _ _ _ _ _ Hcopy)
      as (r0 & p0 & registered0 & Hr0 & Hp0 & Hreg0 & _ & Hids & Hblocks & Hreg' & _).
    assert (r0 = r) as -> by congruence.
    assert (p0 = p) as -> by congruence.
    assert (registered0 = registered) as -> by congruence.
    split; [by apply lookup_ge_None_2|]. split; [rewrite Hids; apply lookup_alloc|].
    done.
Qed.

Lemma deCopyIdent_edges_witness :
  deCopyIdent identGX (Some blockL) sampleDb
  = Error None "Tried to create an identifier 'x' that already exists on the block"
      sampleDb
  ∧ ∃ newIdent db',
      deCopyIdent identGX deBlockNull sampleDb = Ok (newIdent, db')
      ∧ blocks db' = blocks sampleDb
      ∧ payloadIdents db' (VariablePayload 0) = Some [identGX; newIdent].
Proof.
  destruct (deCopyIdent_edges sampleDb identGX _ (VariablePayload 0) [identGX]
              eq_refl eq_refl eq_refl)
    as [Hduplicate (newIdent & db' & Hcopy & _ & _ & Hblocks & Hregistered)].
  split; [by apply (Hduplicate blockL identLX)|].
  by exists newIdent, db'.
Defined.

(** The line, the sub-block and the module-or-package answer of an
    identifier depend only on its type, on the link that goes with the type,
    and on the declared facts of the function or variable. *)
Lemma accessors_ext db db' ident ident' r r' :
  idents db !! ident = Some r →
  idents db' !! ident' = Some r' →
  identType r' = identType r →
  (identType r = DE_IDENT_FUNCTION → identFunction r' = identFunction r) →
  (identType r = DE_IDENT_VARIABLE → identVariable r' = identVariable r) →
  samePayloads db db' →
  deIdentGetLine db' ident' = deIdentGetLine db ident
  ∧ deIdentGetSubBlock db' ident' = deIdentGetSubBlock db ident
  ∧ deIdentIsModuleOrPackage db' ident' = deIdentIsModuleOrPackage db ident.
Proof.
  intros Hr Hr' Htype Hfunction Hvariable [Hsamef Hsamev].
  unfold deIdentGetLine, deIdentGetSubBlock, deIdentIsModuleOrPackage, deIdentGetType,
    deIdentGetFunction, deIdentGetVariable.
  rewrite (deref_lookup _ _ _ Hr), (deref_lookup _ _ _ Hr'). simpl. rewrite Htype.
  destruct (identType r).
  - rewrite Hfunction by done. simpl.
    destruct (identFunction r) as [function|]; [simpl|done].
    unfold deFunctionGetLine, deFunctionGetSubBlock, deFunctionGetType, deref.
    specialize (Hsamef function).
    destruct (functions db' !! function) as [f'|], (functions db !! function) as [f|];
      try done.
    simpl in *. by injection Hsamef as -> _ -> ->.
  - rewrite Hvariable by done. simpl. split; [|done].
    destruct (identVariable r) as [variable|]; [simpl|done].
    unfold deVariableGetLine, deref. specialize (Hsamev variable).
    destruct (variables db' !! variable) as [v'|], (variables db !! variable) as [v|];
      try done.
    simpl in *. by injection Hsamev as ->.
Qed.

(** X11: the copy answers as the identifier it was copied from: after
    [deCopyIdent], to a scope or to the no-scope sentinel, the line of the
    copy (the line of the shared payload, not the null line its creation was
    given), its sub-block and its module-or-package answer are those of the
    original before the copy, and every identifier that was allocated before
    answers as before. *)
Theorem deCopyIdent_same_answers db db' ident (dest : option deBlock) newIdent :
  deCopyIdent ident dest db = Ok (newIdent, db') →
  (deIdentGetLine db' newIdent = deIdentGetLine db ident
   ∧ deIdentGetSubBlock db' newIdent = deIdentGetSubBlock db ident
   ∧ deIdentIsModuleOrPackage db' newIdent = deIdentIsModuleOrPackage db ident)
  ∧ ∀ other,
      other < length (idents db) →
      deIdentGetLine db' other = deIdentGetLine db other
      ∧ deIdentGetSubBlock db' other = deIdentGetSubBlock db other
      ∧ deIdentIsModuleOrPackage db' other = deIdentIsModuleOrPackage db other.
Proof.
  intros Hcopy.
  destruct (deCopyIdent_inv _ _ _ _ _ Hcopy)
    as (r & p & registered & Hr & Hp & Hreg & -> & Hids & _ & _ & Hsame & _).
  split.
  - apply (accessors_ext db db' ident (length (idents db)) r (copiedIdent r dest));
      try done.
    + rewrite Hids. apply lookup_alloc.
    + intros Htype. unfold copiedIdent. simpl. by rewrite Htype.
    + intros Htype. unfold copiedIdent. simpl. by rewrite Htype.
  - intros other Hlt. destruct (lookup_lt_is_Some_2 _ _ Hlt) as [o Ho].
    apply (accessors_ext db db' other other o o); try done.
    rewrite Hids. by apply lookup_app_l_Some.
Qed.

Lemma deCopyIdent_same_answers_witness :
  ∃ newIdent db',
    deCopyIdent identM (Some blockL) sampleDb = Ok (newIdent, db')
    ∧ deIdentGetLine db' newIdent = Ok (Some 1)
    ∧ deIdentGetSubBlock db' newIdent = Ok (Some blockM)
    ∧ deIdentIsModuleOrPackage db' newIdent = Ok true
    ∧ deIdentGetSubBlock db' identF = Ok (Some blockL).
Proof.
  destruct (deCopyIdent identM (Some blockL) sampleDb)
    as [[newIdent db']| | |] eqn:Hcopy; [|vm_compute in Hcopy; discriminate Hcopy..].
  exists newIdent, db'. split; [done|].
  destruct (deCopyIdent_same_answers _ _ _ _ _ Hcopy) as [(Hline & Hsub & Hmodule) Hothers].
  split; [by rewrite Hline|]. split; [by rewrite Hsub|]. split; [by rewrite Hmodule|].
  destruct (Hothers identF) as (_ & HsubF & _); [unfold identF; simpl; lia|].
  by rewrite HsubF.
Defined.

(** X12: the back-references are not copied: the copy has no identifier
    expression.  So renaming the copy in its scope always returns, changes
    the name field of no expression, and leaves the original as it was. *)
Theorem deCopyIdent_rename_copy db db' ident destBlock newIdent newName :
  deCopyIdent ident (Some destBlock) db = Ok (newIdent, db') →
  identExpressions <$> idents db' !! newIdent = Some []
  ∧ ∃ db'',
      deRenameIdent newIdent newName db' = Ok db''
      ∧ expressions db'' = expressions db
      ∧ idents db'' !! ident = idents db !! ident
      ∧ identSym <$> idents db'' !! newIdent = Some newName.
Proof.
  intros Hcopy.
  destruct (deCopyIdent_inv _ _ _ _ _ Hcopy)
    as (r & p & registered & Hr & Hp & Hreg & -> & Hids & (d & Hd & Hfresh & Hblocks)
        & _ & _ & _ & _ & _ & Hes & _).
  assert (idents db' !! length (idents db) = Some (copiedIdent r (Some destBlock))) as Hnew
    by (rewrite Hids; apply lookup_alloc).
  split; [by rewrite Hnew|].
  assert (∃ b, blocks db' !! destBlock = Some b) as [b Hb].
  { apply lookup_lt_is_Some. rewrite Hblocks, length_insert. eauto using lookup_lt_Some. }
  eexists. split.
  { rewrite (deRenameIdent_unfold _ _ _ _ _ _ Hnew eq_refl Hb). reflexivity. }
  simpl. split; [done|].
  assert (ident < length (idents db)) as Hlt by eauto using lookup_lt_Some.
  split.
  - rewrite list_lookup_insert_ne by lia. rewrite Hids. by apply lookup_app_l.
  - rewrite list_lookup_insert_eq; [done|]. rewrite Hids, length_app. simpl. lia.
Qed.

Lemma deCopyIdent_rename_copy_witness :
  ∃ newIdent db' db'',
    deCopyIdent identLX (Some blockClass) sampleDb = Ok (newIdent, db')
    ∧ deRenameIdent newIdent symY db' = Ok db''
    ∧ expressions db'' = expressions sampleDb
    ∧ identSym <$> idents db'' !! identLX = Some symX
    ∧ identSym <$> idents db'' !! newIdent = Some symY.
Proof.
  destruct (deCopyIdent identLX (Some blockClass) sampleDb)
    as [[newIdent db']| | |] eqn:Hcopy; [|vm_compute in Hcopy; discriminate Hcopy..].
  destruct (deCopyIdent_rename_copy _ _ _ _ _ symY Hcopy)
    as (_ & db'' & Hrename & Hes & Hident & Hnew).
  exists newIdent, db', db''. do 3 (split; [done|]). split; [|done].
  by rewrite Hident.
Defined.

(** ** Invariants the calls keep *)

(** A new record at the end of the identifier array, appended to the table
    of a block that does not bind its name, or to no table, keeps the tables
    valid and their names unique. *)
Lemma alloc_invariant db db' (x : deIdentRec) (dest : option deBlock) :
  tablesValid db → uniqueDb db →
  idents db' = idents db ++ [x] →
  match dest with
  | Some destBlock =>
      ∃ d, blocks db !! destBlock = Some d
           ∧ tableFind (idents db) (identSym x) (blockIdents d) = None
           ∧ blocks db'
             = <[destBlock := blockWithIdents d (blockIdents d ++ [length (idents db)])]>
                 (blocks db)
  | None => blocks db' = blocks db
  end →
  tablesValid db' ∧ uniqueDb db'.
Proof.
  intros Hv Hu Hids Hblocks.
  assert (∀ block b j, blocks db !! block = Some b → j ∈ blockIdents b →
                       identSym <$> idents db' !! j = identSym <$> idents db !! j) as Hsym.
  { intros block b j Hb Hj. rewrite Hids. apply identSym_alloc. by eapply Hv. }
  destruct dest as [destBlock|].
  - destruct Hblocks as (d & Hd & Hfresh & Hblocks). split.
    + intros block b j Hb Hj. rewrite Hids, length_app. simpl. rewrite Hblocks in Hb.
      apply list_lookup_insert_Some in Hb as [(-> & <- & _)|[_ Hb]].
      * simpl in Hj. apply elem_of_app in Hj as [Hj|Hj%list_elem_of_singleton]; [|lia].
        specialize (Hv _ _ _ Hd Hj). lia.
      * specialize (Hv _ _ _ Hb Hj). lia.
    + intros block b Hb. rewrite Hblocks in Hb.
      apply list_lookup_insert_Some in Hb as [(-> & <- & _)|[_ Hb]].
      * simpl. apply uniqueNames_append.
        -- apply (uniqueNames_ext (idents db)); [intros j Hj; by eapply Hsym|by eapply Hu].
        -- intros name Hn. unfold identNamed in Hn. rewrite Hids, lookup_alloc in Hn.
           injection Hn as <-.
           rewrite (tableFind_ext (idents db)); [done|intros j Hj; by eapply Hsym].
      * apply (uniqueNames_ext (idents db)); [intros j Hj; by eapply Hsym|by eapply Hu].
  - split.
    + intros block b j Hb Hj. rewrite Hids, length_app. simpl. rewrite Hblocks in Hb.
      specialize (Hv _ _ _ Hb Hj). lia.
    + intros block b Hb. rewrite Hblocks in Hb.
      apply (uniqueNames_ext (idents db)); [intros j Hj; by eapply Hsym|by eapply Hu].
Qed.

Lemma deFunctionIdentCreate_inv db db' (scope : option deBlock) function name ident :
  deFunctionIdentCreate scope function name db = Ok (ident, db') →
  ident = length (idents db)
  ∧ idents db'
    = idents db ++ [mkIdent DE_IDENT_FUNCTION name scope (Some function) None []]
  ∧ match scope with
    | Some block =>
        ∃ b, blocks db !! block = Some b
             ∧ tableFind (idents db) name (blockIdents b) = None
             ∧ blocks db'
               = <[block := blockWithIdents b (blockIdents b ++ [length (idents db)])]>
                   (blocks db)
    | None => blocks db' = blocks db
    end.
Proof.
  unfold deFunctionIdentCreate. intros H.
  apply bind_Ok in H as (line & Hline & H).
  unfold deFunctionGetLine in Hline. apply bind_Ok in Hline as (f & Hf%deref_Ok & _).
  destruct scope as [block|].
  - destruct (blocks db !! block) as [b|] eqn:Hb.
    + destruct (tableFind (idents db) name (blockIdents b)) as [old|] eqn:Hfresh.
      * rewrite (deIdentCreate_duplicate db block _ name line old) in H; [done|].
        by rewrite (deBlockFindIdent_lookup _ _ _ _ Hb), Hfresh.
      * apply bind_Ok in H as ([created db1] & Hcreate & H).
        rewrite (deIdentCreate_scope _ _ _ _ _ _ Hb Hfresh) in Hcreate.
        injection Hcreate as <- <-.
        unfold deFunctionAppendIdent, deref in H. simpl in H. rewrite Hf in H.
        simpl in H. rewrite lookup_alloc in H. simpl in H. injection H as <- <-.
        split; [done|]. simpl. rewrite alloc_set_lookup. split; [done|]. by exists b.
    + apply bind_Ok in H as ([created db1] & Hcreate & H).
      unfold deIdentCreate, deBlockFindIdent, deref in Hcreate. by rewrite Hb in Hcreate.
  - apply bind_Ok in H as ([created db1] & Hcreate & H).
    rewrite deIdentCreate_operator in Hcreate. injection Hcreate as <- <-.
    unfold deFunctionAppendIdent, deref in H. simpl in H. rewrite Hf in H.
    simpl in H. rewrite lookup_alloc in H. simpl in H. injection H as <- <-.
    split; [done|]. simpl. by rewrite alloc_set_lookup.
Qed.

(** X13: the calls that create identifiers keep the invariants of the
    tables: after a successful [deFunctionIdentCreate] or [deCopyIdent], to a
    scope or to the no-scope sentinel, every entry of a table is still an
    allocated identifier and no table binds a name twice. *)
Theorem creating_calls_keep_unique db db' (scope : option deBlock) ident :
  tablesValid db → uniqueDb db →
  (∃ function name, deFunctionIdentCreate scope function name db = Ok (ident, db'))
  ∨ (∃ copied, deCopyIdent copied scope db = Ok (ident, db')) →
  tablesValid db' ∧ uniqueDb db'.
Proof.
  intros Hv Hu [(function & name & Hcreate)|(copied & Hcopy)].
  - destruct (deFunctionIdentCreate_inv _ _ _ _ _ _ Hcreate) as (_ & Hids & Hblocks).
    by eapply (alloc_invariant db db' _ scope).
  - destruct (deCopyIdent_inv _ _ _ _ _ Hcopy)
      as (r & p & registered & Hr & _ & _ & -> & Hids & Hblocks & _).
    by eapply (alloc_invariant db db' (copiedIdent r scope) scope).
Qed.

Lemma creating_calls_keep_unique_witness :
  ∃ copy db',
    deCopyIdent identGX (Some blockClass) sampleDb = Ok (copy, db')
    ∧ tablesValid db' ∧ uniqueDb db'.
Proof.
  destruct (deCopyIdent identGX (Some blockClass) sampleDb)
    as [[copy db']| | |] eqn:Hcopy; [|vm_compute in Hcopy; discriminate Hcopy..].
  exists copy, db'. split; [done|].
  apply (creating_calls_keep_unique sampleDb db' (Some blockClass) copy
           sampleDb_tablesValid sampleDb_unique).
  right. by exists identGX.
Defined.

Lemma alloc_consistent db db' (x : deIdentRec) (dest : option deBlock) :
  scopesConsistent db →
  idents db' = idents db ++ [x] →
  identBlock x = dest →
  match dest with
  | Some destBlock =>
      ∃ d, blocks db !! destBlock = Some d
           ∧ tableFind (idents db) (identSym x) (blockIdents d) = None
           ∧ blocks db'
             = <[destBlock := blockWithIdents d (blockIdents d ++ [length (idents db)])]>
                 (blocks db)
  | None => blocks db' = blocks db
  end →
  scopesConsistent db'.
Proof.
  intros (Hv & Hnd & Hiff) Hids Hblock Hblocks.
  assert (∀ block b, blocks db !! block = Some b → length (idents db) ∉ blockIdents b)
    as Hnew.
  { intros block b Hb Hin. specialize (Hv _ _ _ Hb Hin). lia. }
  assert (∀ j r, j < length (idents db) → idents db' !! j = Some r →
                 idents db !! j = Some r) as Hold.
  { intros j r Hlt. by rewrite Hids, lookup_app_l. }
  assert (∀ j r, idents db' !! j = Some r →
                 j < length (idents db) ∨ j = length (idents db) ∧ r = x) as Hcases.
  { intros j r Hj. destruct (decide (j < length (idents db))); [by left|right].
    pose proof (lookup_lt_Some _ _ _ Hj) as Hlt. rewrite Hids, length_app in Hlt.
    simpl in Hlt. assert (j = length (idents db)) as -> by lia.
    rewrite Hids, lookup_alloc in Hj. by injection Hj as <-. }
  destruct dest as [destBlock|].
  - destruct Hblocks as (d & Hd & _ & Hblocks).
    split; [|split].
    + intros block b j Hb Hj. rewrite Hids, length_app. simpl. rewrite Hblocks in Hb.
      apply list_lookup_insert_Some in Hb as [(-> & <- & _)|[_ Hb]].
      * simpl in Hj. apply elem_of_app in Hj as [Hj|Hj%list_elem_of_singleton]; [|lia].
        specialize (Hv _ _ _ Hd Hj). lia.
      * specialize (Hv _ _ _ Hb Hj). lia.
    + intros block b Hb. rewrite Hblocks in Hb.
      apply list_lookup_insert_Some in Hb as [(-> & <- & _)|[_ Hb]]; [|by eapply Hnd].
      simpl. apply NoDup_app. split; [by eapply Hnd|]. split; [|apply NoDup_singleton].
      intros j Hj ->%list_elem_of_singleton. by apply (Hnew _ _ Hd).
    + intros j r block Hj. destruct (Hcases _ _ Hj) as [Hlt|[-> ->]].
      * rewrite (Hiff _ _ block (Hold _ _ Hlt Hj)). rewrite Hblocks. split.
        -- intros (b & Hb & Hin). destruct (decide (block = destBlock)) as [->|Hne].
           ++ eexists. split; [apply list_lookup_insert_eq; eauto using lookup_lt_Some|].
              simpl. apply elem_of_app. left. congruence.
           ++ exists b. by rewrite list_lookup_insert_ne.
        -- intros (b & Hb & Hin).
           apply list_lookup_insert_Some in Hb as [(-> & <- & _)|[_ Hb]]; [|eauto].
           simpl in Hin. apply elem_of_app in Hin as [Hin|Hin%list_elem_of_singleton];
             [eauto|lia].
      * rewrite Hblock, Hblocks. split.
        -- intros [= <-]. eexists.
           split; [apply list_lookup_insert_eq; eauto using lookup_lt_Some|].
           simpl. apply elem_of_app. right. by apply list_elem_of_singleton.
        -- intros (b & Hb & Hin).
           apply list_lookup_insert_Some in Hb as [(-> & <- & _)|[_ Hb]]; [done|].
           by destruct (Hnew _ _ Hb).
  - split; [|split].
    + intros block b j Hb Hj. rewrite Hids, length_app. simpl. rewrite Hblocks in Hb.
      specialize (Hv _ _ _ Hb Hj). lia.
    + intros block b Hb. rewrite Hblocks in Hb. by eapply Hnd.
    + intros j r block Hj. rewrite Hblocks. destruct (Hcases _ _ Hj) as [Hlt|[-> ->]].
      * by apply Hiff, Hold.
      * rewrite Hblock. split; [done|]. intros (b & Hb & Hin). by destruct (Hnew _ _ Hb).
Qed.

Lemma rename_consistent db db' ident newName :
  scopesConsistent db → deRenameIdent ident newName db = Ok db' → scopesConsistent db'.
Proof.
  intros (Hv & Hnd & Hiff) Hrename.
  destruct (deRenameIdent_inv _ _ _ _ Hrename) as (r & scopeBlock & b & Hr & Hblock & Hb).
  pose proof (rename_idents _ _ _ _ _ _ _ Hr Hblock Hb Hrename) as Hids.
  pose proof (rename_blocks _ _ _ _ _ _ _ Hr Hblock Hb Hrename) as Hbs.
  assert (ident < length (idents db)) as Hlt by eauto using lookup_lt_Some.
  assert (scopeBlock < length (blocks db)) as Hblt by eauto using lookup_lt_Some.
  split; [|split].
  - intros block o j Ho Hj. rewrite Hids, length_insert. rewrite Hbs in Ho.
    apply list_lookup_insert_Some in Ho as [(-> & <- & _)|[_ Ho]]; [|by eapply Hv].
    simpl in Hj.
    apply elem_of_app in Hj as [[_ Hj]%list_elem_of_filter|Hj%list_elem_of_singleton].
    + by eapply Hv.
    + by subst j.
  - intros block o Ho. rewrite Hbs in Ho.
    apply list_lookup_insert_Some in Ho as [(-> & <- & _)|[_ Ho]]; [|by eapply Hnd].
    simpl. apply NoDup_app. split; [apply NoDup_filter; by eapply Hnd|].
    split; [|apply NoDup_singleton].
    intros j [Hne _]%list_elem_of_filter ->%list_elem_of_singleton. by apply Hne.
  - intros j rj block Hj. rewrite Hids in Hj. rewrite Hbs.
    apply list_lookup_insert_Some in Hj as [(-> & <- & _)|[Hne Hj]].
    + simpl. rewrite Hblock. split.
      * intros [= <-]. eexists. split; [by apply list_lookup_insert_eq|].
        simpl. apply elem_of_app. right. by apply list_elem_of_singleton.
      * intros (o & Ho & Hin).
        apply list_lookup_insert_Some in Ho as [(-> & <- & _)|[Hbne Ho]]; [done|].
        rewrite <- Hblock. apply (Hiff _ _ _ Hr). eauto.
    + rewrite (Hiff _ _ block Hj). split.
      * intros (o & Ho & Hin). destruct (decide (block = scopeBlock)) as [->|Hbne].
        -- eexists. split; [by apply list_lookup_insert_eq|].
           simpl. apply elem_of_app. left. apply list_elem_of_filter.
           split; [done|congruence].
        -- exists o. by rewrite list_lookup_insert_ne.
      * intros (o & Ho & Hin).
        apply list_lookup_insert_Some in Ho as [(-> & <- & _)|[_ Ho]]; [|eauto].
        simpl in Hin.
        apply elem_of_app in Hin as [[_ Hin]%list_elem_of_filter|Hin%list_elem_of_singleton];
          [eauto|done].
Qed.

Lemma runCall_consistent call db db' :
  scopesConsistent db → runCall call db = Ok db' → scopesConsistent db'.
Proof.
  intros Hc Hrun.
  destruct call as [scope type name line|scope function name|copied destBlock
                   |renamed newName|fuel pathIdent]; simpl in Hrun.
  - apply bind_Ok in Hrun as ([newIdent db1] & Hcreate & [= <-]).
    destruct scope as [block|].
    + destruct (deIdentCreate_scope_inv _ _ _ _ _ _ _ Hcreate) as (b & Hb & Hfresh & -> & ->).
      eapply (alloc_consistent db _ _ (Some block)); [done|done|done|]. by exists b.
    + rewrite deIdentCreate_operator in Hcreate. injection Hcreate as <- <-.
      by eapply (alloc_consistent db _ _ None).
  - apply bind_Ok in Hrun as ([newIdent db1] & Hcreate & [= <-]).
    destruct (deFunctionIdentCreate_inv _ _ _ _ _ _ Hcreate) as (_ & Hids & Hblocks).
    by eapply (alloc_consistent db db1 _ scope).
  - apply bind_Ok in Hrun as ([newIdent db1] & Hcopy & [= <-]).
    destruct (deCopyIdent_inv _ _ _ _ _ Hcopy)
      as (r & p & registered & Hr & _ & _ & -> & Hids & Hblocks & _).
    by eapply (alloc_consistent db db1 (copiedIdent r destBlock) destBlock).
  - by eapply rename_consistent.
  - apply bind_Ok in Hrun as ([expression db1] & Hcreate & [= <-]).
    by rewrite (deCreateIdentPathExpression_frame _ _ _ _ _ Hcreate).
Qed.

(** X14: every identifier with a block belongs to exactly one scope, and
    every call of ident.c that changes the database keeps it so: if the
    tables hold allocated identifiers, none twice, and an identifier is an
    entry of the table of a block exactly when that block is its block, then
    the same holds after any sequence of successful calls of
    [deIdentCreate], [deFunctionIdentCreate], [deCopyIdent], [deRenameIdent]
    and [deCreateIdentPathExpression]. *)
Theorem runCalls_consistent calls db db' :
  scopesConsistent db → runCalls calls db = Ok db' → scopesConsistent db'.
Proof.
  revert db. induction calls as [|call rest IH]; intros db Hc Hrun; simpl in Hrun.
  - by injection Hrun as <-.
  - apply bind_Ok in Hrun as (db1 & Hcall & Hrun).
    eapply IH; [|done]. by eapply runCall_consistent.
Qed.

Lemma sampleDb_consistent : scopesConsistent sampleDb.
Proof.
  split; [apply sampleDb_tablesValid|]. split.
  - intros block b Hb.
    assert (Forall (λ b, NoDup (blockIdents b)) (blocks sampleDb)) as Hall
      by (refine (bool_decide_unpack _ _); by vm_compute).
    by apply (Forall_lookup_1 _ _ _ _ Hall Hb).
  - intros ident r block Hr.
    do 8 (destruct ident as [|ident]; [simpl in Hr; injection Hr as <-; simpl; split;
      [intros [= <-]; eexists; split; [reflexivity|]; simpl; repeat constructor
      |intros (b & Hb & Hin);
       do 6 (destruct block as [|block];
             [simpl in Hb; injection Hb as <-; simpl in Hin;
              first [reflexivity
                    |apply list_elem_of_In in Hin; vm_compute in Hin; intuition discriminate]
             |]);
       by destruct block]|]).
    by destruct ident.
Qed.

Lemma runCalls_consistent_witness :
  ∃ db',
    runCalls [CallRenameIdent identLX symY; CallCopyIdent identGX (Some blockL);
              CallFunctionIdentCreate (Some blockClass) 2 symF;
              CallIdentCreate None DE_IDENT_VARIABLE symX None;
              CallCreateIdentPathExpression 3 identF] sampleDb = Ok db'
    ∧ scopesConsistent db'.
Proof.
  destruct (runCalls [CallRenameIdent identLX symY; CallCopyIdent identGX (Some blockL);
                      CallFunctionIdentCreate (Some blockClass) 2 symF;
                      CallIdentCreate None DE_IDENT_VARIABLE symX None;
                      CallCreateIdentPathExpression 3 identF] sampleDb)
    as [db'| | |] eqn:Hrun; [|vm_compute in Hrun; discriminate Hrun..].
  exists db'. split; [reflexivity|].
  exact (runCalls_consistent _ _ _ sampleDb_consistent Hrun).
Defined.

(** X15: [deRenameIdent] to a name that is not bound in the scope of the
    identifier keeps the invariants of the tables: when every identifier
    with a block belongs to exactly one scope and the names of every table
    are unique before the call, both hold after it. *)
Theorem deRenameIdent_keeps_unique db db' ident newName r scopeBlock :
  scopesConsistent db →
  uniqueDb db →
  idents db !! ident = Some r →
  identBlock r = Some scopeBlock →
  deBlockFindIdent db scopeBlock newName = Ok None →
  deRenameIdent ident newName db = Ok db' →
  scopesConsistent db' ∧ uniqueDb db'.
Proof.
  intros Hc Hu Hr Hblock Hfresh Hrename.
  split; [by eapply rename_consistent|].
  apply deBlockFindIdent_Ok in Hfresh as (b & Hb & Hfresh). symmetry in Hfresh.
  pose proof (rename_idents _ _ _ _ _ _ _ Hr Hblock Hb Hrename) as Hids.
  pose proof (rename_blocks _ _ _ _ _ _ _ Hr Hblock Hb Hrename) as Hbs.
  destruct Hc as (_ & _ & Hiff).
  intros block o Ho. rewrite Hbs in Ho.
  apply list_lookup_insert_Some in Ho as [(-> & <- & _)|[Hne Ho]].
  - simpl. apply uniqueNames_append.
    + apply (uniqueNames_ext (idents db)).
      * intros j [Hj _]%list_elem_of_filter.
        by apply (rename_identSym_other _ _ _ _ _ _ _ Hr Hblock Hb Hrename).
      * apply uniqueNames_remove. by eapply Hu.
    + intros name Hn.
      apply (rename_identNamed _ _ _ _ _ _ _ Hr Hblock Hb Hrename) in Hn as ->.
      rewrite (rename_tableFind _ _ _ _ _ _ _ Hr Hblock Hb Hrename).
      by apply tableFind_filter_None.
  - apply (uniqueNames_ext (idents db)); [|by eapply Hu].
    intros j Hj. apply (rename_identSym_other _ _ _ _ _ _ _ Hr Hblock Hb Hrename).
    intros ->. apply Hne. symmetry.
    assert (identBlock r = Some block) as Hother by (apply (Hiff _ _ _ Hr); eauto).
    congruence.
Qed.

Lemma deRenameIdent_keeps_unique_witness :
  ∃ db',
    deRenameIdent identLX symY sampleDb = Ok db'
    ∧ scopesConsistent db' ∧ uniqueDb db'.
Proof.
  destruct (deRenameIdent identLX symY sampleDb) as [db'| | |] eqn:Hrename;
    [|vm_compute in Hrename; discriminate Hrename..].
  exists db'. split; [reflexivity|].
  apply (deRenameIdent_keeps_unique sampleDb db' identLX symY
           (mkIdent DE_IDENT_VARIABLE symX (Some blockL) None (Some 2) [0; 4]) blockL);
    [apply sampleDb_consistent|apply sampleDb_unique|reflexivity|reflexivity|reflexivity
    |exact Hrename].
Defined.

(** X16: [deRenameIdent] does not look the new name up.  When the table of
    the scope of the identifier already holds another identifier of the new
    name, the call still returns (as soon as the back-references of the
    identifier are identifier expressions); afterwards both identifiers are
    entries of the table of the scope and both carry the new name, so the
    names of the table are no longer unique. *)
Theorem deRenameIdent_unchecked db ident other newName r scopeBlock b :
  idents db !! ident = Some r →
  identBlock r = Some scopeBlock →
  blocks db !! scopeBlock = Some b →
  other ∈ blockIdents b →
  identNamed (idents db) newName other →
  other ≠ ident →
  Forall (λ e, exprType <$> expressions db !! e = Some DE_EXPR_IDENT) (identExpressions r) →
  ∃ db' b',
    deRenameIdent ident newName db = Ok db'
    ∧ blocks db' !! scopeBlock = Some b'
    ∧ ident ∈ blockIdents b' ∧ other ∈ blockIdents b'
    ∧ identNamed (idents db') newName ident ∧ identNamed (idents db') newName other
    ∧ ¬ uniqueDb db'.
Proof.
  intros Hr Hblock Hb Hin Hnamed Hne Hall.
  assert (∃ db', deRenameIdent ident newName db = Ok db') as [db' Hrename].
  { rewrite (deRenameIdent_unfold _ _ _ _ _ _ Hr Hblock Hb).
    by apply deForeachIdentExpression_total. }
  pose proof (rename_blocks _ _ _ _ _ _ _ Hr Hblock Hb Hrename) as Hbs.
  assert (identNamed (idents db') newName ident) as Hrenamed
    by by apply (rename_identNamed _ _ _ _ _ _ _ Hr Hblock Hb Hrename).
  assert (identNamed (idents db') newName other) as Hother.
  { unfold identNamed.
    by rewrite (rename_identSym_other _ _ _ _ _ _ _ Hr Hblock Hb Hrename). }
  assert (other ∈ filter (λ j, j ≠ ident) (blockIdents b)) as Hkept
    by by apply list_elem_of_filter.
  assert (blocks db' !! scopeBlock
          = Some (blockWithIdents b (filter (λ j, j ≠ ident) (blockIdents b) ++ [ident])))
    as Hb' by (rewrite Hbs; apply list_lookup_insert_eq; eauto using lookup_lt_Some).
  eexists db', _. split; [done|]. split; [exact Hb'|]. simpl.
  split; [apply elem_of_app; right; by apply list_elem_of_singleton|].
  split; [apply elem_of_app; by left|].
  split; [done|]. split; [done|].
  intros Hu. specialize (Hu _ _ Hb' newName). simpl in Hu.
  rewrite filter_app, length_app, filter_cons, decide_True in Hu by done.
  simpl in Hu.
  assert (other ∈ filter (identNamed (idents db') newName)
                    (filter (λ j, j ≠ ident) (blockIdents b))) as Hcount
    by by apply list_elem_of_filter.
  destruct (filter (identNamed (idents db') newName)
              (filter (λ j, j ≠ ident) (blockIdents b))); [by apply elem_of_nil in Hcount|].
  simpl in Hu. lia.
Qed.

Lemma deRenameIdent_unchecked_witness :
  ∃ db' b',
    deRenameIdent identM symX sampleDb = Ok db'
    ∧ blocks db' !! blockG = Some b'
    ∧ identM ∈ blockIdents b' ∧ identGX ∈ blockIdents b'
    ∧ identNamed (idents db') symX identM ∧ identNamed (idents db') symX identGX
    ∧ ¬ uniqueDb db'.
Proof.
  apply (deRenameIdent_unchecked sampleDb identM identGX symX
           (mkIdent DE_IDENT_FUNCTION symM (Some blockG) (Some 1) None [1]) blockG
           (mkBlock DE_BLOCK_FUNCTION (Some 0) None (Some 0) None
              [identGX; identM; identPoint]));
    [reflexivity|reflexivity|reflexivity|repeat constructor|reflexivity|discriminate|].
  repeat constructor.
Defined.

(** ** Renaming seen through the lookups *)

Lemma tableFind_filter_unnamed ids name table ident :
  ¬ identNamed ids name ident →
  tableFind ids name (filter (λ j, j ≠ ident) table) = tableFind ids name table.
Proof.
  intros Hn. induction table as [|i t IH]; [done|].
  rewrite filter_cons, (tableFind_cons _ _ i t).
  destruct (decide (i ≠ ident)) as [Hne|Heq].
  - by rewrite tableFind_cons, IH.
  - apply dec_stable in Heq as ->. by rewrite decide_False.
Qed.

Lemma tableFind_iff ids ids' name table :
  (∀ j, j ∈ table → identNamed ids' name j ↔ identNamed ids name j) →
  tableFind ids' name table = tableFind ids name table.
Proof.
  intros Hsame. induction table as [|i t IH]; [done|].
  rewrite !tableFind_cons.
  rewrite (decide_ext (identNamed ids' name i) (identNamed ids name i))
    by (apply Hsame, list_elem_of_here).
  rewrite IH; [done|]. intros j Hj. apply Hsame. by apply list_elem_of_further.
Qed.

Lemma tableFind_reinsert ids name table ident :
  uniqueNames ids table → ident ∈ table →
  tableFind ids name (filter (λ j, j ≠ ident) table ++ [ident]) = tableFind ids name table.
Proof.
  intros Hu Hin. rewrite tableFind_append.
  destruct (decide (identNamed ids name ident)) as [Hn|Hn].
  - rewrite (tableFind_member _ _ _ _ Hu Hin Hn).
    by rewrite (tableFind_remove _ _ _ _ Hu (tableFind_member _ _ _ _ Hu Hin Hn)).
  - rewrite (tableFind_filter_unnamed _ _ _ _ Hn). by destruct (tableFind ids name table).
Qed.

(** Writing a new table into a block leaves the other fields of every block. *)
Lemma blockFields_insert db db' scopeBlock b table :
  blocks db !! scopeBlock = Some b →
  blocks db' = <[scopeBlock := blockWithIdents b table]> (blocks db) →
  ∀ block,
    deBlockGetFilepath db' block = deBlockGetFilepath db block
    ∧ deBlockGetOwningBlock db' block = deBlockGetOwningBlock db block
    ∧ deBlockGetType db' block = deBlockGetType db block
    ∧ deBlockGetOwningFunction db' block = deBlockGetOwningFunction db block
    ∧ deBlockGetOwningClass db' block = deBlockGetOwningClass db block.
Proof.
  intros Hb Hbs block.
  unfold deBlockGetFilepath, deBlockGetOwningBlock, deBlockGetType,
    deBlockGetOwningFunction, deBlockGetOwningClass, deref.
  rewrite Hbs. destruct (decide (block = scopeBlock)) as [->|Hne].
  - rewrite list_lookup_insert_eq by eauto using lookup_lt_Some. by rewrite Hb.
  - by rewrite list_lookup_insert_ne.
Qed.

Lemma rename_samePayloads db db' ident newName :
  deRenameIdent ident newName db = Ok db' →
  samePayloads db db' ∧ filepaths db' = filepaths db ∧ rootBlock db' = rootBlock db
  ∧ functions db' = functions db ∧ classes db' = classes db ∧ tclasses db' = tclasses db.
Proof.
  intros Hrename.
  destruct (deRenameIdent_inv _ _ _ _ Hrename) as (r & scopeBlock & b & Hr & Hblock & Hb).
  destruct (rename_shape _ _ _ _ _ _ _ Hr Hblock Hb Hrename) as ([es ->] & _).
  by repeat split.
Qed.

(** X17: [deRenameIdent] is invisible to everything but the two names.  For
    a name that is neither the old nor the new name of the identifier, every
    block binds after the call what it bound before, and [deFindIdent]
    answers from every scope as before; and the line, the sub-block and the
    module-or-package answer of every identifier, the renamed one included,
    are the same as before. *)
Theorem deRenameIdent_other_names db db' ident newName r :
  idents db !! ident = Some r →
  deRenameIdent ident newName db = Ok db' →
  (∀ name, name ≠ identSym r → name ≠ newName →
     (∀ block, deBlockFindIdent db' block name = deBlockFindIdent db block name)
     ∧ ∀ scopeBlock, deFindIdent db' scopeBlock name = deFindIdent db scopeBlock name)
  ∧ ∀ other,
      deIdentGetLine db' other = deIdentGetLine db other
      ∧ deIdentGetSubBlock db' other = deIdentGetSubBlock db other
      ∧ deIdentIsModuleOrPackage db' other = deIdentIsModuleOrPackage db other.
Proof.
  intros Hr Hrename.
  destruct (deRenameIdent_inv _ _ _ _ Hrename) as (r0 & scopeBlock & b & Hr0 & Hblock & Hb).
  assert (r0 = r) as -> by congruence.
  pose proof (rename_idents _ _ _ _ _ _ _ Hr Hblock Hb Hrename) as Hids.
  pose proof (rename_blocks _ _ _ _ _ _ _ Hr Hblock Hb Hrename) as Hbs.
  destruct (rename_samePayloads _ _ _ _ Hrename) as (Hsame & Hfiles & Hroot & _).
  split.
  - intros name Hold Hnew.
    assert (∀ table, tableFind (idents db') name table = tableFind (idents db) name table)
      as Htable.
    { intros table. apply tableFind_iff. intros j _. unfold identNamed. rewrite Hids.
      destruct (decide (j = ident)) as [->|Hne].
      - rewrite list_lookup_insert_eq by eauto using lookup_lt_Some. rewrite Hr. simpl.
        split; congruence.
      - by rewrite list_lookup_insert_ne. }
    assert (∀ block, deBlockFindIdent db' block name = deBlockFindIdent db block name)
      as Hfind.
    { intros block. unfold deBlockFindIdent, deref. rewrite Hbs.
      destruct (decide (block = scopeBlock)) as [->|Hne].
      - rewrite list_lookup_insert_eq by eauto using lookup_lt_Some. rewrite Hb. simpl.
        rewrite Htable, tableFind_append, tableFind_filter_unnamed.
        + rewrite decide_False; [by destruct (tableFind _ _ _)|].
          unfold identNamed. rewrite Hr. simpl. congruence.
        + unfold identNamed. rewrite Hr. simpl. congruence.
      - rewrite list_lookup_insert_ne by done.
        destruct (blocks db !! block); [simpl|done]. by rewrite Htable. }
    split; [done|]. intros scope. apply deFindIdent_ext; [done| | |done].
    + apply (blockFields_insert _ _ _ _ _ Hb Hbs).
    + intros filepath. unfold deFilepathGetModuleBlock. by rewrite Hfiles.
  - intros other. destruct (idents db !! other) as [ro|] eqn:Hother.
    + destruct (decide (other = ident)) as [->|Hne].
      * assert (ro = r) as -> by congruence.
        apply (accessors_ext db db' ident ident r (identWithSym r newName)); try done.
        rewrite Hids. apply list_lookup_insert_eq. eauto using lookup_lt_Some.
      * apply (accessors_ext db db' other other ro ro); try done.
        rewrite Hids. by rewrite list_lookup_insert_ne.
    + assert (idents db' !! other = None) as Hother'.
      { rewrite Hids. apply lookup_ge_None. rewrite length_insert.
        by apply lookup_ge_None. }
      unfold deIdentGetLine, deIdentGetSubBlock, deIdentIsModuleOrPackage, deIdentGetType,
        deref.
      by rewrite Hother, Hother'.
Qed.

Lemma deRenameIdent_other_names_witness :
  ∃ db',
    deRenameIdent identM symY sampleDb = Ok db'
    ∧ deFindIdent db' blockL symF = deFindIdent sampleDb blockL symF
    ∧ deFindIdent db' blockL symPoint = deFindIdent sampleDb blockL symPoint
    ∧ deIdentGetSubBlock db' identM = deIdentGetSubBlock sampleDb identM
    ∧ deIdentIsModuleOrPackage db' identM = deIdentIsModuleOrPackage sampleDb identM.
Proof.
  destruct (deRenameIdent identM symY sampleDb) as [db'| | |] eqn:Hrename;
    [|vm_compute in Hrename; discriminate Hrename..].
  destruct (deRenameIdent_other_names sampleDb db' identM symY
              (mkIdent DE_IDENT_FUNCTION symM (Some blockG) (Some 1) None [1])
              eq_refl Hrename) as [Hnames Hanswers].
  exists db'. split; [reflexivity|].
  split; [apply (Hnames symF); discriminate|].
  split; [apply (Hnames symPoint); discriminate|].
  destruct (Hanswers identM) as (_ & Hsub & Hmodule). by split.
Defined.

(** X18: renaming an identifier and renaming it back to its old name gives
    the lookups back.  For an identifier that is an entry of the table of its
    block, whose names are unique, after a successful [deRenameIdent] to any
    name (bound in the block or not) the [deRenameIdent] back to the old name
    returns, and then the identifier records are those before the two calls,
    every block binds every name to what it bound before, [deFindIdent]
    answers as before from every scope for every name, the expressions in the
    back-reference set of the identifier carry the old name and every other
    expression is as before. *)
Theorem deRenameIdent_back db db1 ident newName r scopeBlock b :
  idents db !! ident = Some r →
  identBlock r = Some scopeBlock →
  blocks db !! scopeBlock = Some b →
  ident ∈ blockIdents b →
  uniqueNames (idents db) (blockIdents b) →
  deRenameIdent ident newName db = Ok db1 →
  ∃ db2,
    deRenameIdent ident (identSym r) db1 = Ok db2
    ∧ idents db2 = idents db
    ∧ (∀ block name, deBlockFindIdent db2 block name = deBlockFindIdent db block name)
    ∧ (∀ scope name, deFindIdent db2 scope name = deFindIdent db scope name)
    ∧ (∀ e, e ∈ identExpressions r →
            expressions db2 !! e
            = (λ x, exprWithName x (identSym r)) <$> expressions db !! e)
    ∧ (∀ e, e ∉ identExpressions r → expressions db2 !! e = expressions db !! e).
Proof.
  intros Hr Hblock Hb Hin Hu Hrename.
  assert (ident < length (idents db)) as Hlt by eauto using lookup_lt_Some.
  assert (scopeBlock < length (blocks db)) as Hblt by eauto using lookup_lt_Some.
  destruct (rename_shape _ _ _ _ _ _ _ Hr Hblock Hb Hrename) as (_ & Hes1 & Hall).
  pose proof (rename_idents _ _ _ _ _ _ _ Hr Hblock Hb Hrename) as Hids1.
  pose proof (rename_blocks _ _ _ _ _ _ _ Hr Hblock Hb Hrename) as Hbs1.
  destruct (rename_samePayloads _ _ _ _ Hrename) as (_ & Hfiles1 & Hroot1 & _).
  assert (idents db1 !! ident = Some (identWithSym r newName)) as Hr1
    by (rewrite Hids1; by apply list_lookup_insert_eq).
  assert (blocks db1 !! scopeBlock
          = Some (blockWithIdents b (filter (λ j, j ≠ ident) (blockIdents b) ++ [ident])))
    as Hb1 by (rewrite Hbs1; by apply list_lookup_insert_eq).
  assert (∃ db2, deRenameIdent ident (identSym r) db1 = Ok db2) as [db2 Hback].
  { rewrite (deRenameIdent_unfold _ _ _ _ _ _ Hr1 Hblock Hb1).
    apply deForeachIdentExpression_total. simpl.
    eapply Forall_impl; [exact Hall|]. intros e He. simpl in He. simpl.
    rewrite Hes1. unfold renamedIn. destruct (decide (e ∈ identExpressions r)); [|done].
    by destruct (expressions db !! e). }
  destruct (rename_shape _ _ _ _ _ _ _ Hr1 Hblock Hb1 Hback) as (_ & Hes2 & _).
  pose proof (rename_idents _ _ _ _ _ _ _ Hr1 Hblock Hb1 Hback) as Hids2.
  pose proof (rename_blocks _ _ _ _ _ _ _ Hr1 Hblock Hb1 Hback) as Hbs2.
  destruct (rename_samePayloads _ _ _ _ Hback) as (_ & Hfiles2 & Hroot2 & _).
  assert (idents db2 = idents db) as Hids.
  { rewrite Hids2, Hids1, list_insert_insert_eq.
    apply list_insert_id. rewrite Hr. f_equal. by destruct r. }
  assert (blocks db2
          = <[scopeBlock := blockWithIdents b
                              (filter (λ j, j ≠ ident) (blockIdents b) ++ [ident])]>
              (blocks db)) as Hbs.
  { rewrite Hbs2, Hbs1, list_insert_insert_eq. simpl. do 2 f_equal.
    rewrite filter_app, list_filter_filter_l by done.
    rewrite filter_cons_False by (intros Hne; by apply Hne). by rewrite app_nil_r. }
  assert (∀ block name, deBlockFindIdent db2 block name = deBlockFindIdent db block name)
    as Hfind.
  { intros block name. unfold deBlockFindIdent, deref. rewrite Hbs, Hids.
    destruct (decide (block = scopeBlock)) as [->|Hne].
    - rewrite list_lookup_insert_eq by done. rewrite Hb. simpl.
      by rewrite tableFind_reinsert.
    - by rewrite list_lookup_insert_ne. }
  exists db2. split; [done|]. split; [done|]. split; [done|]. split; [|split].
  - intros scope name. apply deFindIdent_ext; [done| | |].
    + apply (blockFields_insert _ _ _ _ _ Hb Hbs).
    + intros filepath. unfold deFilepathGetModuleBlock. by rewrite Hfiles2, Hfiles1.
    + unfold deRootGetBlock. by rewrite Hroot2, Hroot1.
  - intros e He. rewrite Hes2. unfold renamedIn. simpl. rewrite decide_True by done.
    rewrite Hes1. unfold renamedIn. rewrite decide_True by done.
    by destruct (expressions db !! e).
  - intros e He. rewrite Hes2. unfold renamedIn. simpl. rewrite decide_False by done.
    rewrite Hes1. unfold renamedIn. by rewrite decide_False.
Qed.

Lemma deRenameIdent_back_witness :
  ∃ db1 db2,
    deRenameIdent identM symX sampleDb = Ok db1
    ∧ deRenameIdent identM symM db1 = Ok db2
    ∧ idents db2 = idents sampleDb
    ∧ deFindIdent db2 blockL symM = deFindIdent sampleDb blockL symM
    ∧ deFindIdent db2 blockL symX = deFindIdent sampleDb blockL symX.
Proof.
  destruct (deRenameIdent identM symX sampleDb) as [db1| | |] eqn:Hrename;
    [|vm_compute in Hrename; discriminate Hrename..].
  destruct (deRenameIdent_back sampleDb db1 identM symX
              (mkIdent DE_IDENT_FUNCTION symM (Some blockG) (Some 1) None [1]) blockG
              (mkBlock DE_BLOCK_FUNCTION (Some 0) None (Some 0) None
                 [identGX; identM; identPoint]))
    as (db2 & Hback & Hids & _ & Hfind & _);
    [reflexivity|reflexivity|reflexivity|repeat constructor|apply (sampleDb_unique blockG)
    |exact Hrename|].
  { reflexivity. }
  exists db1, db2. split; [reflexivity|]. split; [exact Hback|]. split; [exact Hids|].
  split; apply Hfind.
Defined.

(** ** Path expressions: [deCreateIdentPathExpression] *)

(** X19: whenever [deCreateIdentPathExpression] returns, for any identifier
    and any database, it has only appended to the expression array: the
    database is otherwise unchanged (no identifier gets a back-reference to
    the new expressions), the expressions that were there are as they were,
    and the returned expression is the last one allocated.  It is the root
    of a well-formed path, nested to the left, whose trailing name is the
    name of the identifier; a path of [n] names takes [2 n - 1] new
    expressions and [n] levels of the recursion. *)
Theorem deCreateIdentPathExpression_appends fuel ident db expression db' :
  deCreateIdentPathExpression fuel ident db = Ok (expression, db') →
  db' = setExpressions db (expressions db')
  ∧ length (expressions db) ≤ expression
  ∧ length (expressions db') = S expression
  ∧ (∀ k, k < length (expressions db) → expressions db' !! k = expressions db !! k)
  ∧ ∃ p,
      laidOut (expressions db') expression p
      ∧ identSym <$> idents db !! ident = Some (lastName p)
      ∧ depth p ≤ fuel
      ∧ S (length (expressions db')) = length (expressions db) + 2 * depth p.
Proof.
  revert ident db expression db'.
  induction fuel as [|fuel IH]; intros ident db expression db' Hcreate; [done|].
  simpl in Hcreate.
  apply bind_Ok in Hcreate as (line & _ & Hcreate).
  apply bind_Ok in Hcreate as (sym & Hsym & Hcreate).
  unfold deIdentGetSym in Hsym. apply bind_Ok in Hsym as (r & Hr%deref_Ok & [= <-]).
  set (identNode := mkExpression DE_EXPR_IDENT (identSym r) line None None) in *.
  apply bind_Ok in Hcreate as ([owner|] & _ & Hcreate).
  - apply bind_Ok in Hcreate as ([prefixExpr db1] & Hrec & Hcreate).
    destruct (IH _ _ _ _ Hrec) as (Hframe & Hge & Hlen & Hkeep & p & Hlaid & _ & Hdepth & Hsize).
    simpl in Hframe, Hge, Hlen, Hkeep, Hsize. rewrite length_app in Hge, Hkeep, Hsize.
    simpl in Hge, Hkeep, Hsize.
    unfold deBinaryExpressionCreate in Hcreate.
    apply bind_Ok in Hcreate as (s & Hs%deref_Ok & Hcreate).
    apply bind_Ok in Hcreate as (i & Hi%deref_Ok & Hcreate).
    injection Hcreate as <- <-. simpl.
    set (dotNode := mkExpression DE_EXPR_DOT utSymNull line (Some prefixExpr) None).
    assert (expressions db1 !! length (expressions db) = Some identNode) as Hnode.
    { rewrite Hkeep by lia. apply lookup_alloc. }
    split; [by rewrite Hframe|]. split; [lia|].
    split; [rewrite length_app, length_insert; simpl; lia|]. split.
    + intros k Hk. rewrite lookup_app_l by (rewrite length_insert; lia).
      rewrite list_lookup_insert_ne by lia.
      rewrite Hkeep by lia. by apply lookup_app_l.
    + exists (PathDot p (identSym r)). split; [|split; [by rewrite Hr|split]].
      * eapply (laidOutDot _ (length (expressions db1)) dotNode prefixExpr
                  (exprWithNext s (Some (length (expressions db))))
                  (length (expressions db)) identNode); try done.
        -- rewrite <- (length_insert (expressions db1) prefixExpr
                         (exprWithNext s (Some (length (expressions db))))).
           apply lookup_alloc.
        -- lia.
        -- rewrite lookup_app_l by (rewrite length_insert; lia).
           by apply list_lookup_insert_eq; lia.
        -- lia.
        -- rewrite lookup_app_l by (rewrite length_insert; lia).
           by rewrite list_lookup_insert_ne by lia.
        -- apply (laidOut_agree (expressions db1)); [done| |].
           ++ intros k Hk. rewrite lookup_app_l by (rewrite length_insert; lia).
              by rewrite list_lookup_insert_ne by lia.
           ++ exists s, (exprWithNext s (Some (length (expressions db)))).
              split; [done|]. split; [|done].
              rewrite lookup_app_l by (rewrite length_insert; lia).
              apply list_lookup_insert_eq. lia.
      * simpl. lia.
      * rewrite length_app, length_insert. simpl. lia.
  - injection Hcreate as <- <-. simpl.
    split; [done|]. split; [done|]. split; [rewrite length_app; simpl; lia|].
    split; [intros k Hk; by rewrite lookup_app_l|].
    exists (PathIdent (identSym r)). split; [|split; [by rewrite Hr|split]].
    + by eapply (laidOutIdent _ _ identNode); [apply lookup_alloc|].
    + simpl. lia.
    + rewrite length_app. simpl. lia.
Qed.

Lemma deCreateIdentPathExpression_appends_witness :
  ∃ expression db',
    deCreateIdentPathExpression 3 identLX sampleDb = Ok (expression, db')
    ∧ idents db' = idents sampleDb
    ∧ (∀ k, k < 11 → expressions db' !! k = expressions sampleDb !! k)
    ∧ ∃ p, laidOut (expressions db') expression p ∧ lastName p = symX.
Proof.
  destruct (deCreateIdentPathExpression 3 identLX sampleDb) as [[expression db']| | |]
    eqn:Hcreate; [|vm_compute in Hcreate; discriminate Hcreate..].
  destruct (deCreateIdentPathExpression_appends 3 identLX sampleDb expression db' Hcreate)
    as (Hframe & _ & _ & Hkeep & p & Hlaid & Hname & _).
  exists expression, db'. split; [reflexivity|].
  split; [by rewrite Hframe|]. split; [exact Hkeep|].
  exists p. split; [exact Hlaid|]. simpl in Hname. by injection Hname as <-.
Defined.

(** ** The owning identifier: [deFindIdentOwningIdent] *)

Lemma rename_deIdentGetBlock db db' ident newName other :
  deRenameIdent ident newName db = Ok db' →
  deIdentGetBlock db' other = deIdentGetBlock db other
  ∧ deIdentGetLine db' other = deIdentGetLine db other.
Proof.
  intros Hrename.
  destruct (deRenameIdent_inv _ _ _ _ Hrename) as (r & scopeBlock & b & Hr & Hblock & Hb).
  pose proof (rename_idents _ _ _ _ _ _ _ Hr Hblock Hb Hrename) as Hids.
  destruct (rename_samePayloads _ _ _ _ Hrename) as (Hsame & _).
  destruct (decide (other = ident)) as [->|Hne].
  - assert (idents db' !! ident = Some (identWithSym r newName)) as Hr'
      by (rewrite Hids; apply list_lookup_insert_eq; eauto using lookup_lt_Some).
    split.
    + unfold deIdentGetBlock. by rewrite (deref_lookup _ _ _ Hr), (deref_lookup _ _ _ Hr').
    + by apply (accessors_ext db db' ident ident r (identWithSym r newName)).
  - assert (idents db' !! other = idents db !! other) as Hother
      by (rewrite Hids; by apply list_lookup_insert_ne).
    split.
    + unfold deIdentGetBlock, deref. by rewrite Hother.
    + destruct (idents db !! other) as [ro|] eqn:Hro.
      * by apply (accessors_ext db db' other other ro ro).
      * unfold deIdentGetLine, deIdentGetType, deref. by rewrite Hother, Hro.
Qed.

(** X20: [deRenameIdent] renames the identifier, not the function it stands
    for, and [deFindIdentOwningIdent] looks the owning identifier up under
    the name of the function.  So, in a database where every identifier with
    a block belongs to exactly one scope and the names of every table are
    unique, once the owning identifier of an identifier has been renamed to
    another name, the identifier has no owning identifier any more:
    [deFindIdentOwningIdent] returns the null identifier, and
    [deCreateIdentPathExpression] returns a bare name, one new identifier
    expression, in place of a dotted path. *)
Theorem deRenameIdent_owner_lost db db' ident owner newName ro :
  scopesConsistent db →
  uniqueDb db →
  deFindIdentOwningIdent db ident = Ok (Some owner) →
  idents db !! owner = Some ro →
  newName ≠ identSym ro →
  deRenameIdent owner newName db = Ok db' →
  deFindIdentOwningIdent db' ident = Ok None
  ∧ ∀ fuel line,
      deIdentGetLine db ident = Ok line →
      ∃ sym,
        deIdentGetSym db' ident = Ok sym
        ∧ deCreateIdentPathExpression (S fuel) ident db'
          = Ok (length (expressions db'),
                setExpressions db'
                  (expressions db' ++ [mkExpression DE_EXPR_IDENT sym line None None])).
Proof.
  intros (_ & _ & Hiff) Hu Howner Hro Hne Hrename.
  destruct (deRenameIdent_inv _ _ _ _ Hrename) as (r0 & scopeBlock & b & Hr0 & Hscope & Hb).
  assert (r0 = ro) as -> by congruence.
  pose proof (rename_blocks _ _ _ _ _ _ _ Hro Hscope Hb Hrename) as Hbs.
  destruct (rename_samePayloads _ _ _ _ Hrename) as (_ & _ & _ & Hfuns & Hclasses & Htclasses).
  pose proof (blockFields_insert _ _ _ _ _ Hb Hbs) as Hfields.
  assert (deFindIdentOwningIdent db' ident = Ok None) as Hlost.
  { unfold deFindIdentOwningIdent in *.
    apply bind_Ok in Howner as (block & Hblock & Howner).
    apply bind_Ok in Howner as ([owningBlock|] & Hob & Howner); [|done].
    apply bind_Ok in Howner as (type & Htype & Howner).
    apply bind_Ok in Howner as (name & Hname & Hfind).
    rewrite (proj1 (rename_deIdentGetBlock _ _ _ _ ident Hrename)), Hblock. simpl.
    destruct (Hfields block) as (_ & -> & -> & -> & ->). rewrite Hob. simpl.
    rewrite Htype. simpl.
    unfold deFunctionGetSym, deClassGetTclass, deTclassGetFunction in *.
    rewrite Hfuns, Hclasses, Htclasses, Hname. simpl.
    destruct (deBlockFindIdent_found _ _ _ _ Hfind) as (o & ro' & Ho & Hin & Hro' & Hsym).
    assert (ro' = ro) as -> by congruence.
    assert (owningBlock = scopeBlock) as ->.
    { assert (identBlock ro = Some owningBlock) as Hown by (apply (Hiff _ _ _ Hro); eauto).
      congruence. }
    assert (o = b) as -> by congruence.
    rewrite (rename_find _ _ _ _ _ _ _ Hro Hscope Hb Hrename).
    rewrite (deBlockFindIdent_lookup _ _ _ _ Hb) in Hfind. injection Hfind as Hfind.
    rewrite (tableFind_remove _ _ _ _ (Hu _ _ Hb) Hfind).
    rewrite decide_False; [done|]. congruence. }
  split; [done|]. intros fuel line Hline.
  assert (∃ sym, deIdentGetSym db' ident = Ok sym) as [sym Hsym].
  { unfold deIdentGetSym. unfold deFindIdentOwningIdent, deIdentGetBlock in Hlost.
    destruct (deref (idents db') ident) as [r'| | |]; try done. by exists (identSym r'). }
  exists sym. split; [done|]. simpl.
  rewrite (proj2 (rename_deIdentGetBlock _ _ _ _ ident Hrename)), Hline, bind_Ok_l.
  rewrite Hsym, bind_Ok_l. unfold deIdentExpressionCreate.
  by rewrite deFindIdentOwningIdent_setExpressions, Hlost.
Qed.

Lemma deRenameIdent_owner_lost_witness :
  ∃ db',
    deFindIdentOwningIdent sampleDb identLX = Ok (Some identF)
    ∧ deRenameIdent identF symY sampleDb = Ok db'
    ∧ deFindIdentOwningIdent db' identLX = Ok None
    ∧ deCreateIdentPathExpression 3 identLX db'
      = Ok (length (expressions db'),
            setExpressions db'
              (expressions db' ++ [mkExpression DE_EXPR_IDENT symX (Some 7) None None])).
Proof.
  destruct (deRenameIdent identF symY sampleDb) as [db'| | |] eqn:Hrename;
    [|vm_compute in Hrename; discriminate Hrename..].
  destruct (deRenameIdent_owner_lost sampleDb db' identLX identF symY
              (mkIdent DE_IDENT_FUNCTION symF (Some blockM) (Some 2) None [2])
              sampleDb_consistent sampleDb_unique eq_refl eq_refl) as [Hlost Hpath];
    [discriminate|exact Hrename|].
  exists db'. split; [reflexivity|]. split; [reflexivity|]. split; [exact Hlost|].
  destruct (Hpath 2 (Some 7) eq_refl) as (sym & Hsym & Hcreate).
  injection Hrename as <-. vm_compute in Hsym. injection Hsym as <-. exact Hcreate.
Defined.

(** X21: what [deFindIdentOwningIdent] returns.  An owning identifier it
    returns is an entry of the table of the block that owns the block of the
    identifier, and carries the name of the function that owns the block of
    the identifier or, for the block of a class, of the function of the
    class template.  For an identifier whose block has no owning block it
    returns the null identifier, whatever the kind of the block, and for a
    statement block with an owning block it exits with an error. *)
Theorem deFindIdentOwningIdent_sound db ident r block b :
  idents db !! ident = Some r →
  identBlock r = Some block →
  blocks db !! block = Some b →
  (blockOwningBlock b = None → deFindIdentOwningIdent db ident = Ok None)
  ∧ (blockOwningBlock b ≠ None → blockType b = DE_BLOCK_STATEMENT →
     deFindIdentOwningIdent db ident = Abort "Statement blocks do not have identifiers")
  ∧ ∀ owner,
      deFindIdentOwningIdent db ident = Ok (Some owner) →
      ∃ owningBlock o ro function f,
        blockOwningBlock b = Some owningBlock
        ∧ blocks db !! owningBlock = Some o ∧ owner ∈ blockIdents o
        ∧ idents db !! owner = Some ro
        ∧ functions db !! function = Some f
        ∧ identSym ro = functionSym f
        ∧ (blockType b = DE_BLOCK_FUNCTION ∧ blockOwningFunction b = Some function
           ∨ blockType b = DE_BLOCK_CLASS
             ∧ ∃ class c tclass t,
                 blockOwningClass b = Some class ∧ classes db !! class = Some c
                 ∧ classTclass c = Some tclass ∧ tclasses db !! tclass = Some t
                 ∧ tclassFunction t = Some function).
Proof.
  intros Hr Hblock Hb.
  assert (∀ A (k : deBlock → outcome A),
            (deIdentGetBlock db ident ≫= nonNull) ≫= k = k block) as Hstart.
  { intros A k. unfold deIdentGetBlock. rewrite (deref_lookup _ _ _ Hr). simpl.
    by rewrite Hblock. }
  unfold deFindIdentOwningIdent. rewrite Hstart.
  unfold deBlockGetOwningBlock, deBlockGetType. rewrite (deref_lookup _ _ _ Hb). simpl.
  split; [by intros ->|]. split.
  - intros Hsome Htype. destruct (blockOwningBlock b); [|done]. by rewrite Htype.
  - intros owner Howner. destruct (blockOwningBlock b) as [owningBlock|]; [|done].
    apply bind_Ok in Howner as (name & Hname & Hfind).
    destruct (deBlockFindIdent_found _ _ _ _ Hfind) as (o & ro & Ho & Hin & Hro & Hsym).
    unfold deBlockGetOwningFunction, deBlockGetOwningClass, deFunctionGetSym,
      deClassGetTclass, deTclassGetFunction in Hname.
    rewrite (deref_lookup _ _ _ Hb) in Hname. simpl in Hname.
    destruct (blockType b) eqn:Htype; [|done|].
    + apply bind_Ok in Hname as (function & Hfunction%nonNull_Ok & Hname).
      apply bind_Ok in Hname as (f & Hf%deref_Ok & [= <-]).
      exists owningBlock, o, ro, function, f. do 6 (split; [done|]). by left.
    + apply bind_Ok in Hname as (class & Hclass%nonNull_Ok & Hname).
      apply bind_Ok in Hname as (tclass & Htclass & Hname).
      apply bind_Ok in Htclass as (tc & Htc & Htclass%nonNull_Ok).
      apply bind_Ok in Htc as (c & Hc%deref_Ok & [= <-]).
      apply bind_Ok in Hname as (function & Hfunction & Hname).
      apply bind_Ok in Hfunction as (tf & Htf & Hfunction%nonNull_Ok).
      apply bind_Ok in Htf as (t & Ht%deref_Ok & [= <-]).
      apply bind_Ok in Hname as (f & Hf%deref_Ok & [= <-]).
      exists owningBlock, o, ro, function, f. do 6 (split; [done|]). right.
      split; [done|]. by exists class, c, tclass, t.
Qed.

Lemma deFindIdentOwningIdent_sound_witness :
  deFindIdentOwningIdent sampleDb identGX = Ok None
  ∧ ∃ owningBlock o ro function f,
      blocks sampleDb !! owningBlock = Some o ∧ identPoint ∈ blockIdents o
      ∧ idents sampleDb !! identPoint = Some ro
      ∧ functions sampleDb !! function = Some f
      ∧ identSym ro = functionSym f.
Proof.
  split.
  - apply (deFindIdentOwningIdent_sound sampleDb identGX
             (mkIdent DE_IDENT_VARIABLE symX (Some blockG) None (Some 0) []) blockG
             (mkBlock DE_BLOCK_FUNCTION (Some 0) None (Some 0) None
                [identGX; identM; identPoint])); reflexivity.
  - destruct (deFindIdentOwningIdent_sound sampleDb identShowCopy
                (mkIdent DE_IDENT_FUNCTION symShow (Some blockClass) (Some 4) None [])
                blockClass
                (mkBlock DE_BLOCK_CLASS None (Some blockG) None (Some 0) [identShowCopy])
                eq_refl eq_refl eq_refl) as (_ & _ & Hsound).
    destruct (Hsound identPoint eq_refl)
      as (owningBlock & o & ro & function & f & _ & Ho & Hin & Hro & Hf & Hsym & _).
    by exists owningBlock, o, ro, function, f.
Defined.
